(** * image.c: 3x3 convolution over a 24-bit RGB pixel buffer

    A shallow embedding of [image.c] (C Image Processing Program by Colin
    Tomcak) and the properties of its convolution engine, its border
    handling, the gradient combination of [canny_edge_detection] and the
    pointwise transforms [invert] and [set_dim_to_black].

    Conventions of the embedding.
    - [int] values are [Z]; an operation whose C result is not representable
      in [int] is undefined behaviour and is modelled as a failure.
    - [uint8_t] values are [Z] in [0, 255]; a store into a [uint8_t] field
      writes the value modulo 256.
    - [double] values are IEEE 754 binary64 numbers ([spec_float] with
      precision 53 and maximal exponent 1024), multiplied with rounding to
      nearest even.
    - a buffer of [pixel_info] is a [list pixel_info]; a read or write
      outside the buffer is undefined behaviour.
    - in the pure layer undefined behaviour is [None]; in the program layer
      it is the outcome [Undefined]. *)

From Stdlib Require Import ZArith List Lia QArith.
From Stdlib Require Import Floats.SpecFloat.
From stdpp Require Import base option list list_numbers gmap.

Local Open Scope Z_scope.

(** ** Constants (image.c, lines 28-48) *)

Definition MAX_COLOR : Z := 255.
Definition NUM_THREADS : Z := 20.
Definition HIGH_PASS_THRESHOLD : Z := 60.
Definition LOW_PASS_THRESHOLD : Z := 200.

(** ** Machine integers *)

Definition INT_MIN : Z := - 2 ^ 31.
Definition INT_MAX : Z := 2 ^ 31 - 1.

Definition in_int (z : Z) : bool := (INT_MIN <=? z) && (z <=? INT_MAX).

(** [a + b] on [int]: undefined on overflow. *)
Definition int_add (a b : Z) : option Z :=
  let s := a + b in if in_int s then Some s else None.

(** [a * b] on [int]: undefined on overflow. *)
Definition int_mul (a b : Z) : option Z :=
  let s := a * b in if in_int s then Some s else None.

(** The conversion [(uint8_t)z]. *)
Definition to_uint8 (z : Z) : Z := z mod 256.

(** ** Doubles *)

Module Double.

Definition prec : Z := 53.
Definition emax : Z := 1024.

Definition double : Type := spec_float.

(** Conversion of an [int] to [double] (exact below 2^53). *)
Definition of_int (z : Z) : double := binary_normalize prec emax z 0 false.

(** A dyadic constant [m * 2^e]. *)
Definition dyadic (m e : Z) : double := binary_normalize prec emax m e false.

Definition mul (x y : double) : double := SFmul prec emax x y.

Definition div (x y : double) : double := SFdiv prec emax x y.

(** The integral part of a finite double, the fraction discarded. *)
Definition trunc (d : double) : option Z :=
  match d with
  | S754_zero _ => Some 0
  | S754_finite s m e => Some (cond_Zopp s (Z.shiftl (Z.pos m) e))
  | S754_infinity _ | S754_nan => None
  end.

(** The conversion [(int)d]: truncation toward zero, undefined when the
    integral part is not representable in [int] (and for NaN and
    infinities). *)
Definition to_int (d : double) : option Z :=
  z ← trunc d; if in_int z then Some z else None.

(** The exact value of a finite double as a rational (0 for NaN and
    infinities, which have none). *)
Definition to_Q (d : double) : Q :=
  match d with
  | S754_finite s m e =>
      let v := if 0 <=? e then inject_Z (Z.pos m * 2 ^ e)
               else Qmake (Z.pos m) (Z.to_pos (2 ^ (- e))) in
      if s then Qopp v else v
  | _ => 0%Q
  end.

End Double.

Abbreviation double := Double.double.

(** ** Kernels (image.c, lines 55-64): [double kernel[3][3]] *)

Record row3 : Type := Row3 { c0 : double; c1 : double; c2 : double }.

Record kernel3 : Type := Kernel3 { k0 : row3; k1 : row3; k2 : row3 }.

(** [kernel[m_y][m_x]]; an index outside [0, 2] is outside the array. *)
Definition kernel_at (k : kernel3) (m_y m_x : Z) : option double :=
  row ← match m_y with
        | 0 => Some (k0 k) | 1 => Some (k1 k) | 2 => Some (k2 k)
        | _ => None
        end;
  match m_x with
  | 0 => Some (c0 row) | 1 => Some (c1 row) | 2 => Some (c2 row)
  | _ => None
  end.

Definition kernel_of_ints (a b c d e f g h i : Z) : kernel3 :=
  Kernel3 (Row3 (Double.of_int a) (Double.of_int b) (Double.of_int c))
          (Row3 (Double.of_int d) (Double.of_int e) (Double.of_int f))
          (Row3 (Double.of_int g) (Double.of_int h) (Double.of_int i)).

Definition IDENTITY_KERNEL : kernel3 := kernel_of_ints 0 0 0 0 1 0 0 0 0.

(** .0625 = 2^-4, .125 = 2^-3, .25 = 2^-2. *)
Definition GAUSSIAN_BLUR_KERNEL : kernel3 :=
  Kernel3
    (Row3 (Double.dyadic 1 (-4)) (Double.dyadic 1 (-3)) (Double.dyadic 1 (-4)))
    (Row3 (Double.dyadic 1 (-3)) (Double.dyadic 1 (-2)) (Double.dyadic 1 (-3)))
    (Row3 (Double.dyadic 1 (-4)) (Double.dyadic 1 (-3)) (Double.dyadic 1 (-4))).

(** .11 and .12 are the doubles nearest to 11/100 and 12/100. *)
Definition BOX_BLUR_KERNEL : kernel3 :=
  let p11 := Double.div (Double.of_int 11) (Double.of_int 100) in
  let p12 := Double.div (Double.of_int 12) (Double.of_int 100) in
  Kernel3 (Row3 p11 p11 p11) (Row3 p11 p12 p11) (Row3 p11 p11 p11).

Definition SHARPEN_KERNEL : kernel3 := kernel_of_ints 0 (-1) 0 (-1) 5 (-1) 0 (-1) 0.
Definition EMBOSS_KERNEL : kernel3 := kernel_of_ints (-2) (-1) 0 (-1) 1 1 0 1 2.
Definition EDGE_DETECT_KERNEL : kernel3 :=
  kernel_of_ints (-2) (-2) (-2) (-2) 16 (-2) (-2) (-2) (-2).
Definition SOBEL_B_KERNEL : kernel3 := kernel_of_ints (-1) (-2) (-1) 0 0 0 1 2 1.
Definition SOBEL_T_KERNEL : kernel3 := kernel_of_ints 1 2 1 0 0 0 (-1) (-2) (-1).
Definition SOBEL_L_KERNEL : kernel3 := kernel_of_ints 1 0 (-1) 2 0 (-2) 1 0 (-1).
Definition SOBEL_R_KERNEL : kernel3 := kernel_of_ints (-1) 0 1 (-2) 0 2 (-1) 0 1.

(** ** Pixels and buffers (image.c, lines 67-80) *)

Record pixel_info : Type := Pixel { blue : Z; green : Z; red : Z }.

Definition uint8 (z : Z) : Prop := 0 <= z <= 255.

Definition pixel_wf (p : pixel_info) : Prop :=
  uint8 (blue p) /\ uint8 (green p) /\ uint8 (red p).

Definition black : pixel_info := Pixel 0 0 0.

Abbreviation buffer := (list pixel_info).

(** [p[i]] for a pointer [p] to the start of buffer [buf]. *)
Definition load (buf : buffer) (i : Z) : option pixel_info :=
  if 0 <=? i then buf !! Z.to_nat i else None.

(** [p[i] = v]. *)
Definition store (buf : buffer) (i : Z) (v : pixel_info) : option buffer :=
  if (0 <=? i) && (i <? Z.of_nat (length buf))
  then Some (<[Z.to_nat i := v]> buf) else None.

(** [rows[f_y][f_x]] where [rows] is the array of [H] row pointers
    [rows[i] = data + i * W] built by [convolve] (lines 557-567): the row
    index has to be inside the pointer array, the pixel inside the buffer. *)
Definition row_index (W H f_y f_x : Z) : option Z :=
  if (0 <=? f_y) && (f_y <? H) then Some (f_y * W + f_x) else None.

Definition load2 (buf : buffer) (W H f_y f_x : Z) : option pixel_info :=
  i ← row_index W H f_y f_x; load buf i.

Definition store2 (buf : buffer) (W H y x : Z) (v : pixel_info) : option buffer :=
  i ← row_index W H y x; store buf i v.

(** ** Loops *)

(** [for (i = lo; i < hi; i++) s = body(s, i)], stopping at the first
    undefined step. *)
Fixpoint for_each {S A : Type} (body : S → A → option S) (l : list A) (s : S)
  : option S :=
  match l with
  | [] => Some s
  | i :: l' => s' ← body s i; for_each body l' s'
  end.

Definition for_range {S : Type} (lo hi : Z) (body : S → Z → option S) (s : S)
  : option S :=
  for_each body (seqZ lo (hi - lo)) s.

(** ** The convolution worker (image.c, lines 597-652) *)

Definition radius : Z := 1.

(** Lines 625-631, for one axis of length [N]:
    [f = c; if (f < 0) f *= -1; if (f >= N) f -= (f - N + 1)*2;] *)
Definition reflect (N c : Z) : Z :=
  let f := c in
  let f := if f <? 0 then f * -1 else f in
  let f := if f >=? N then f - (f - N + 1) * 2 else f in
  f.

(** [(int)(channel * kernel[m_y][m_x])] (lines 635-637). *)
Definition tap (channel : Z) (w : double) : option Z :=
  Double.to_int (Double.mul (Double.of_int channel) w).

(** The accumulators [r], [g], [b]. *)
Record rgb : Type := Rgb { acc_r : Z; acc_g : Z; acc_b : Z }.

(** The body of the [xx] loop (lines 625-637). *)
Definition tap_step (W H : Z) (pixel_data : buffer) (kernel : kernel3)
    (x y yy : Z) (a : rgb) (xx : Z) : option rgb :=
  let f_x := reflect W xx in
  let f_y := reflect H yy in
  let m_y := y - yy + radius in
  let m_x := xx - x + radius in
  p ← load2 pixel_data W H f_y f_x;
  w ← kernel_at kernel m_y m_x;
  tr ← tap (red p) w; r ← int_add (acc_r a) tr;
  tg ← tap (green p) w; g ← int_add (acc_g a) tg;
  tb ← tap (blue p) w; b ← int_add (acc_b a) tb;
  Some (Rgb r g b).

(** Lines 640-645: [if (c > MAX_COLOR) c = MAX_COLOR; if (c < 0) c = 0;] *)
Definition clamp (c : Z) : Z :=
  let c := if c >? MAX_COLOR then MAX_COLOR else c in
  let c := if c <? 0 then 0 else c in
  c.

(** The body of the [x] loop without its store (lines 620-645): the value
    written to [new_pixel_array[y][x]]. *)
Definition convolve_pixel (W H : Z) (pixel_data : buffer) (kernel : kernel3)
    (y x : Z) : option pixel_info :=
  a ← for_range (y - radius) (y + radius + 1)
        (λ a yy, for_range (x - radius) (x + radius + 1)
                   (tap_step W H pixel_data kernel x y yy) a)
        (Rgb 0 0 0);
  Some {| red := to_uint8 (clamp (acc_r a));
          green := to_uint8 (clamp (acc_g a));
          blue := to_uint8 (clamp (acc_b a)) |}.

(** The fields of [thread_info] that differ between workers; the image,
    the two row-pointer arrays and the kernel are shared by all of them and
    are passed alongside. *)
Record thread_info : Type := ThreadInfo { start_y : Z; end_y : Z }.

(** [convolve_threader]: rows [start_y <= y < end_y], each left to right. *)
Definition convolve_threader (W H : Z) (pixel_data : buffer) (kernel : kernel3)
    (t : thread_info) (new_pixel_data : buffer) : option buffer :=
  for_range (start_y t) (end_y t)
    (λ new_pixel_data y,
       for_range 0 W
         (λ new_pixel_data x,
            v ← convolve_pixel W H pixel_data kernel y x;
            store2 new_pixel_data W H y x v)
         new_pixel_data)
    new_pixel_data.

(** ** The program layer: heap blocks, [malloc], [pthread_create] *)

Abbreviation block := positive.

(** [struct image_info]; [pixel_data] points to the start of a heap block. *)
Record image_info : Type :=
  ImageInfo { width : Z; height : Z; pixel_data : block }.

(** The state a call runs in: the live heap blocks of pixel data, the
    answers of the allocator to the [malloc] calls to come ([None] is [NULL],
    [Some garbage] a block whose uninitialised contents are taken from
    [garbage]; an exhausted list answers [NULL]), and the log of the
    [pthread_create] calls made so far. *)
Record world : Type := World {
  mem : gmap block buffer;
  answers : list (option buffer);
  created : list thread_info
}.

(** How a call ends: it returns, or it prints an error, runs [cleanup()] and
    calls [exit(EXIT_FAILURE)] (the world is the one [cleanup] starts from),
    or its behaviour is undefined. *)
Inductive outcome (A : Type) : Type :=
| Ok (a : A) (w : world)
| Exit (w : world)
| Undefined.
Arguments Ok {A} a w.
Arguments Exit {A} w.
Arguments Undefined {A}.

Definition prog (A : Type) : Type := world → outcome A.

Definition ret {A : Type} (a : A) : prog A := λ w, Ok a w.

Definition bind {A B : Type} (m : prog A) (f : A → prog B) : prog B :=
  λ w, match m w with
       | Ok a w' => f a w'
       | Exit w' => Exit w'
       | Undefined => Undefined
       end.

Notation "x ←← m ;; k" := (bind m (λ x, k))
  (at level 100, m at next level, right associativity,
   format "x  ←←  m ;;  '/' k").
Notation "m ;;; k" := (bind m (λ _, k))
  (at level 100, right associativity).

(** A pure computation run in the program: [None] is undefined behaviour. *)
Definition lift {A : Type} (o : option A) : prog A :=
  λ w, match o with Some a => Ok a w | None => Undefined end.

(** [exit(EXIT_FAILURE)] after the error message. *)
Definition exit_failure {A : Type} : prog A := λ w, Exit w.

(** The contents of a live block; a dangling pointer is undefined. *)
Definition deref (p : block) : prog buffer := λ w, lift (mem w !! p) w.

Definition assign (p : block) (buf : buffer) : prog unit :=
  λ w, Ok tt {| mem := <[p := buf]> (mem w);
                answers := answers w; created := created w |}.

Definition SIZE_MOD : Z := 2 ^ 64.
Definition PTRDIFF_MAX : Z := 2 ^ 63 - 1.
Definition sizeof_pixel_info : Z := 3.

(** [(pixel_info* )malloc(sizeof(pixel_info) * (size_t)n)] for an [int] [n]:
    the conversion to [size_t] and the product wrap modulo 2^64; a request
    above [PTRDIFF_MAX] bytes fails; otherwise the allocator's next answer
    decides, and a successful call returns a block that was not live, of
    [n] pixels with arbitrary contents. *)
Definition malloc_pixels (n : Z) : prog (option block) :=
  λ w,
    let image_size := n mod SIZE_MOD in
    let bytes := (sizeof_pixel_info * image_size) mod SIZE_MOD in
    match answers w with
    | [] => Ok None w
    | a :: rest =>
        let w' := {| mem := mem w; answers := rest; created := created w |} in
        match a with
        | Some garbage =>
            if bytes <=? PTRDIFF_MAX then
              let p := fresh (dom (mem w)) in
              Ok (Some p)
                 {| mem := <[p := resize (Z.to_nat image_size) black garbage]> (mem w);
                    answers := rest; created := created w |}
            else Ok None w'
        | None => Ok None w'
        end
    end.

(** [free(p)]: undefined unless [p] is a live block. *)
Definition free (p : block) : prog unit :=
  λ w, match mem w !! p with
       | Some _ => Ok tt {| mem := delete p (mem w);
                            answers := answers w; created := created w |}
       | None => Undefined
       end.

(** [pthread_create(threads + i, NULL, convolve_threader, info_structs + i)]. *)
Definition pthread_create (t : thread_info) : prog unit :=
  λ w, Ok tt {| mem := mem w; answers := answers w;
                created := created w ++ [t] |}.

(** A loop whose body only acts on the world. *)
Fixpoint for_each_prog {A : Type} (body : A → prog unit) (l : list A)
  : prog unit :=
  match l with
  | [] => ret tt
  | a :: l' => body a;;; for_each_prog body l'
  end.

(** ** [convolve] (image.c, lines 542-595) *)

(** The row bands of lines 571-588 for [n] workers: worker [i < n - 1] gets
    [H/n * i <= y < H/n * (i + 1)], the last one [H/n * (n - 1) <= y < H]. *)
Definition bands (n H : Z) : list thread_info :=
  ((λ i, ThreadInfo (H ÷ n * i) (H ÷ n * (i + 1))) <$> seqZ 0 (n - 1))
  ++ [ThreadInfo (H ÷ n * (n - 1)) H].

(** The workers run to completion between their creation and the joins of
    lines 590-593; here one after the other, in the order of [ts]. *)
Definition run_workers (W H : Z) (src : buffer) (kernel : kernel3)
    (ts : list thread_info) (dst : buffer) : option buffer :=
  for_each (λ dst t, convolve_threader W H src kernel t dst) ts dst.

(** [convolve] with [n] in the place of [NUM_THREADS]. *)
Definition convolve_n (n : Z) (info : image_info) (kernel : kernel3)
  : prog block :=
  let image_width := width info in
  let image_height := height info in
  size ←← lift (int_mul image_width image_height);;
  p ←← malloc_pixels size;;
  match p with
  | None => exit_failure
  | Some new_pixel_data =>
      (* the arrays [pixel_array] and [new_pixel_array] of length
         [image_height], and [threads], [info_structs] of length [n] *)
      if (image_height <=? 0) || (n <=? 0) then lift None else
      let ts := bands n image_height in
      for_each_prog pthread_create ts;;;
      src ←← deref (pixel_data info);;
      dst ←← deref new_pixel_data;;
      dst' ←← lift (run_workers image_width image_height src kernel ts dst);;
      assign new_pixel_data dst';;;
      ret new_pixel_data
  end.

Definition convolve (info : image_info) (kernel : kernel3) : prog block :=
  convolve_n NUM_THREADS info kernel.

(** The kernel wrappers (lines 654-692): convolve, free the old pixel data,
    let [info->pixel_data] point to the new one. *)
Definition replace_by_convolution (kernel : kernel3) (info : image_info)
  : prog image_info :=
  pd ←← convolve info kernel;;
  free (pixel_data info);;;
  ret {| width := width info; height := height info; pixel_data := pd |}.

Definition identity : image_info → prog image_info :=
  replace_by_convolution IDENTITY_KERNEL.
Definition box_blur : image_info → prog image_info :=
  replace_by_convolution BOX_BLUR_KERNEL.
Definition gaussian_blur : image_info → prog image_info :=
  replace_by_convolution GAUSSIAN_BLUR_KERNEL.
Definition sharpen : image_info → prog image_info :=
  replace_by_convolution SHARPEN_KERNEL.
Definition emboss : image_info → prog image_info :=
  replace_by_convolution EMBOSS_KERNEL.

(** ** Pointwise transforms (image.c, lines 326-348 and 444-458) *)

(** [for (int i = 0; i < image_size; i++) pixel_data[i] = f(pixel_data[i])]. *)
Definition pointwise_loop (f : pixel_info → pixel_info) (image_size : Z)
    (pixel_data : buffer) : option buffer :=
  for_range 0 image_size
    (λ pixel_data i, p ← load pixel_data i; store pixel_data i (f p))
    pixel_data.

Definition pointwise (f : pixel_info → pixel_info) (info : image_info)
  : prog unit :=
  image_size ←← lift (int_mul (width info) (height info));;
  if image_size <=? 0 then ret tt else
  buf ←← deref (pixel_data info);;
  buf' ←← lift (pointwise_loop f image_size buf);;
  assign (pixel_data info) buf'.

(** [(uint8_t)((red + green + blue)/3)]. *)
Definition average (p : pixel_info) : Z :=
  to_uint8 ((red p + green p + blue p) ÷ 3).

Definition greyscale_pixel (p : pixel_info) : pixel_info :=
  {| red := average p; green := average p; blue := average p |}.

Definition invert_pixel (p : pixel_info) : pixel_info :=
  {| red := to_uint8 (MAX_COLOR - red p);
     green := to_uint8 (MAX_COLOR - green p);
     blue := to_uint8 (MAX_COLOR - blue p) |}.

Definition set_dim_to_black_pixel (p : pixel_info) : pixel_info :=
  if average p <? HIGH_PASS_THRESHOLD
  then {| red := 0; green := 0; blue := 0 |}
  else p.

Definition greyscale : image_info → prog unit := pointwise greyscale_pixel.
Definition invert : image_info → prog unit := pointwise invert_pixel.
Definition set_dim_to_black : image_info → prog unit :=
  pointwise set_dim_to_black_pixel.

(** ** Edge detection (image.c, lines 694-748) *)

Definition simple_edge_detection (info : image_info) : prog image_info :=
  greyscale info;;;
  info ←← gaussian_blur info;;
  info ←← replace_by_convolution EDGE_DETECT_KERNEL info;;
  set_dim_to_black info;;;
  ret info.

(** The macro [MAX(a,b)]. *)
Definition MAX (a b : Z) : Z := if a >? b then a else b.

(** Lines 733-739 for one index. *)
Definition canny_pixel (t b l r : pixel_info) : pixel_info :=
  {| red := to_uint8 (MAX (MAX (red t) (red b)) (MAX (red l) (red r)));
     green := to_uint8 (MAX (MAX (green t) (green b)) (MAX (green l) (green r)));
     blue := to_uint8 (MAX (MAX (blue t) (blue b)) (MAX (blue l) (blue r))) |}.

(** The combination loop (lines 731-740). *)
Definition canny_combine (image_size : Z) (sobel_t_pd sobel_b_pd sobel_l_pd
    sobel_r_pd : buffer) (pixel_data : buffer) : option buffer :=
  for_range 0 image_size
    (λ pixel_data i,
       t ← load sobel_t_pd i; b ← load sobel_b_pd i;
       l ← load sobel_l_pd i; r ← load sobel_r_pd i;
       store pixel_data i (canny_pixel t b l r))
    pixel_data.

(** Lines 712-745: the four directional convolutions of the current image
    and their combination, written over the current image. *)
Definition canny_gradient (info : image_info) : prog unit :=
  sobel_t_pd ←← convolve info SOBEL_T_KERNEL;;
  sobel_b_pd ←← convolve info SOBEL_B_KERNEL;;
  sobel_l_pd ←← convolve info SOBEL_L_KERNEL;;
  sobel_r_pd ←← convolve info SOBEL_R_KERNEL;;
  image_size ←← lift (int_mul (width info) (height info));;
  t ←← deref sobel_t_pd;; b ←← deref sobel_b_pd;;
  l ←← deref sobel_l_pd;; r ←← deref sobel_r_pd;;
  pd ←← deref (pixel_data info);;
  pd' ←← lift (canny_combine image_size t b l r pd);;
  assign (pixel_data info) pd';;;
  free sobel_t_pd;;; free sobel_b_pd;;; free sobel_l_pd;;; free sobel_r_pd.

Definition canny_edge_detection (info : image_info) : prog image_info :=
  greyscale info;;;
  info ←← gaussian_blur info;;
  canny_gradient info;;;
  set_dim_to_black info;;;
  ret info.

(** ** Well-formed images *)

(** [info] describes the live block [buf]: one pixel per position, every
    channel a [uint8_t], and the pixel count representable in [int]. *)
Definition image_in (info : image_info) (buf : buffer) (w : world) : Prop :=
  mem w !! pixel_data info = Some buf
  ∧ Z.of_nat (length buf) = width info * height info
  ∧ width info * height info <= INT_MAX
  ∧ Forall pixel_wf buf.

(** The world [w] with the block [p] holding [buf]. *)
Definition with_block (p : block) (buf : buffer) (w : world) : world :=
  {| mem := <[p := buf]> (mem w); answers := answers w; created := created w |}.

(** ** Schedules, the reference convolution and the value of a pixel *)

(** The cells [(y, x)] worker [t] writes, in the order of its loops. *)
Definition worker_cells (W : Z) (t : thread_info) : list (Z * Z) :=
  y ← seqZ (start_y t) (end_y t - start_y t); x ← seqZ 0 W; [(y, x)].

(** One iteration of the [x] loop: compute the pixel of a cell from the
    source and write it to the destination. *)
Definition cell_step (W H : Z) (src : buffer) (kernel : kernel3)
    (dst : buffer) (c : Z * Z) : option buffer :=
  v ← convolve_pixel W H src kernel c.1 c.2; store2 dst W H c.1 c.2 v.

(** A schedule: the cell writes of all workers in the order in which they
    happen to be executed. *)
Definition run_schedule (W H : Z) (src : buffer) (kernel : kernel3)
    (cells : list (Z * Z)) (dst : buffer) : option buffer :=
  for_each (cell_step W H src kernel) cells dst.

(** The sequential single-band reference: one worker for all rows, writing
    into a zeroed destination. *)
Definition convolution (W H : Z) (src : buffer) (kernel : kernel3)
  : option buffer :=
  convolve_threader W H src kernel (ThreadInfo 0 H)
    (replicate (Z.to_nat (W * H)) black).

Definition in_grid (W H : Z) (c : Z * Z) : Prop :=
  0 <= c.1 < H ∧ 0 <= c.2 < W.

(** The result of a call without the log of thread creations. *)
Definition result {A : Type} (o : outcome A)
  : option (option A * gmap block buffer * list (option buffer)) :=
  match o with
  | Ok a w => Some (Some a, mem w, answers w)
  | Exit w => Some (None, mem w, answers w)
  | Undefined => None
  end.

(** The largest magnitude of a tap such that nine taps cannot overflow the
    [int] accumulators. *)
Definition TAP_MAX : Z := INT_MAX ÷ 9.

(** The products of the weight [w] with every channel value convert to
    [int], with magnitude at most [TAP_MAX]. *)
Definition weight_ok (w : double) : bool :=
  forallb (λ c, match tap c w with
                | Some t => Z.abs t <=? TAP_MAX
                | None => false
                end) (seqZ 0 256).

Definition kernel_weights (k : kernel3) : list double :=
  [c0 (k0 k); c1 (k0 k); c2 (k0 k);
   c0 (k1 k); c1 (k1 k); c2 (k1 k);
   c0 (k2 k); c1 (k2 k); c2 (k2 k)].

(** The kernel keeps [convolve] inside defined behaviour on every image. *)
Definition kernel_ok (k : kernel3) : bool := forallb weight_ok (kernel_weights k).

(** [source[y, x]] of a row-major grid of width [W] ([black] outside). *)
Definition source_at (W : Z) (src : buffer) (y x : Z) : pixel_info :=
  default black (load src (y * W + x)).

(** [kernel[m_y][m_x]] (0 outside the kernel). *)
Definition weight_at (k : kernel3) (m_y m_x : Z) : double :=
  default (S754_zero false) (kernel_at k m_y m_x).

(** The tap [channel * w] truncated toward zero (0 where the conversion
    is undefined). *)
Definition tap_value (channel : Z) (w : double) : Z := default 0 (tap channel w).

(** The offsets [(dy, dx)] of the 3x3 neighbourhood. *)
Definition neighbourhood : list (Z * Z) :=
  dy ← [-1; 0; 1]; dx ← [-1; 0; 1]; [(dy, dx)].

(** The tap of the neighbour at offset [d] of the pixel [(y, x)]:
    [trunc (source[reflect (y+dy), reflect (x+dx)] * kernel[1-dy][dx+1])]. *)
Definition tap_at (ch : pixel_info → Z) (W H : Z) (src : buffer) (k : kernel3)
    (y x : Z) (d : Z * Z) : Z :=
  tap_value (ch (source_at W src (reflect H (y + d.1)) (reflect W (x + d.2))))
            (weight_at k (1 - d.1) (d.2 + 1)).

Definition sum_list (l : list Z) : Z := foldr Z.add 0 l.

(** The sum of the nine truncated taps of a channel. *)
Definition channel_sum (ch : pixel_info → Z) (W H : Z) (src : buffer)
    (k : kernel3) (y x : Z) : Z :=
  sum_list (tap_at ch W H src k y x <$> neighbourhood).

(** Saturation to [0, 255]. *)
Definition saturate (z : Z) : Z := Z.max 0 (Z.min 255 z).

(** The output pixel: per channel, the saturated sum of the truncated
    taps. *)
Definition convolved_pixel (W H : Z) (src : buffer) (k : kernel3) (y x : Z)
  : pixel_info :=
  {| blue := saturate (channel_sum blue W H src k y x);
     green := saturate (channel_sum green W H src k y x);
     red := saturate (channel_sum red W H src k y x) |}.

(** An offset of the 3x3 neighbourhood. *)
Definition near (d : Z * Z) : Prop := -1 <= d.1 <= 1 ∧ -1 <= d.2 <= 1.

(** Accumulators after at most [n] taps of magnitude at most [TAP_MAX]. *)
Definition acc_bounded (n : Z) (a : rgb) : Prop :=
  Z.abs (acc_r a) <= n * TAP_MAX
  ∧ Z.abs (acc_g a) <= n * TAP_MAX
  ∧ Z.abs (acc_b a) <= n * TAP_MAX.

(** The accumulators with the taps of the neighbour at offset [d] added. *)
Definition add_taps (W H : Z) (src : buffer) (k : kernel3) (y x : Z) (a : rgb)
    (d : Z * Z) : rgb :=
  Rgb (acc_r a + tap_at red W H src k y x d)
      (acc_g a + tap_at green W H src k y x d)
      (acc_b a + tap_at blue W H src k y x d).

(** ** The value of a channel as the specification states it *)

(** The value of a channel as the sentence of the specification has it: the
    sum of the nine real products, saturated to [0, 255], then truncated. *)
Definition exact_channel_sum (ch : pixel_info → Z) (W H : Z) (src : buffer)
    (k : kernel3) (y x : Z) : Q :=
  foldr Qplus 0%Q
    ((λ d, (inject_Z (ch (source_at W src (reflect H (y + d.1))
                                     (reflect W (x + d.2))))
            * Double.to_Q (weight_at k (1 - d.1) (d.2 + 1)))%Q)
       <$> neighbourhood).

Definition saturate_Q (q : Q) : Q :=
  if Qle_bool q 0 then 0%Q else if Qle_bool 255 q then 255%Q else q.

Definition truncate_Q (q : Q) : Z := Qnum q ÷ Z.pos (Qden q).

Definition stated_channel (ch : pixel_info → Z) (W H : Z) (src : buffer)
    (k : kernel3) (y x : Z) : Z :=
  truncate_Q (saturate_Q (exact_channel_sum ch W H src k y x)).

(** ** Checks by evaluation *)

(** The taps of the identity kernel, checked for the 256 channel values:
    the centre weight returns the channel, the others 0. *)
Definition identity_taps_check : bool :=
  forallb (λ m_y, forallb (λ m_x, forallb (λ c,
      tap_value c (weight_at IDENTITY_KERNEL m_y m_x)
      =? (if (m_y =? 1) && (m_x =? 1) then c else 0))
    (seqZ 0 256)) [0; 1; 2]) [0; 1; 2].

(** ** The other pointwise transforms (image.c, lines 350-540) *)

Definition BRIGHTEN_WEIGHT : Z := 50.
Definition DARKEN_WEIGHT : Z := 50.

(** [a - b] on [int]: undefined on overflow. *)
Definition int_sub (a b : Z) : option Z :=
  let s := a - b in if in_int s then Some s else None.

(** [float] values: IEEE 754 binary32. *)
Module Float.

Definition prec : Z := 24.
Definition emax : Z := 128.

Definition float : Type := spec_float.

(** Conversion of an [int] to [float] (exact below 2^24). *)
Definition of_int (z : Z) : float := binary_normalize prec emax z 0 false.

Definition mul (x y : float) : float := SFmul prec emax x y.

(** The conversion [(int)f], as for a [double]. *)
Definition to_int (f : float) : option Z := Double.to_int f.

(** The constant [0.5f]. *)
Definition half : float := binary_normalize prec emax 1 (-1) false.

End Float.

Definition SATURATE_WEIGHT : Float.float := Float.half.
Definition DESATURATE_WEIGHT : Float.float := Float.half.

(** [(int)(weight * (float)(c - average))] (lines 361-363 and 387-389). *)
Definition weighted_distance (weight : Float.float) (c average : Z) : option Z :=
  Float.to_int (Float.mul weight (Float.of_int (c - average))).

(** A pointwise loop whose body may be undefined. *)
Definition pointwise_loop_partial (f : pixel_info → option pixel_info)
    (image_size : Z) (pixel_data : buffer) : option buffer :=
  for_range 0 image_size
    (λ pixel_data i, p ← load pixel_data i; v ← f p; store pixel_data i v)
    pixel_data.

Definition pointwise_partial (f : pixel_info → option pixel_info)
    (info : image_info) : prog unit :=
  image_size ←← lift (int_mul (width info) (height info));;
  if image_size <=? 0 then ret tt else
  buf ←← deref (pixel_data info);;
  buf' ←← lift (pointwise_loop_partial f image_size buf);;
  assign (pixel_data info) buf'.

(** The body of the loop of [saturate] (lines 357-372). *)
Definition saturate_pixel (p : pixel_info) : option pixel_info :=
  let average := average p in
  let r := red p in
  let g := green p in
  let b := blue p in
  dr ← weighted_distance SATURATE_WEIGHT r average; r ← int_add r dr;
  dg ← weighted_distance SATURATE_WEIGHT g average; g ← int_add g dg;
  db ← weighted_distance SATURATE_WEIGHT b average; b ← int_add b db;
  Some {| red := to_uint8 (clamp r);
          green := to_uint8 (clamp g);
          blue := to_uint8 (clamp b) |}.

(** The body of the loop of [desaturate] (lines 383-398). *)
Definition desaturate_pixel (p : pixel_info) : option pixel_info :=
  let average := average p in
  let r := red p in
  let g := green p in
  let b := blue p in
  dr ← weighted_distance DESATURATE_WEIGHT r average; r ← int_sub r dr;
  dg ← weighted_distance DESATURATE_WEIGHT g average; g ← int_sub g dg;
  db ← weighted_distance DESATURATE_WEIGHT b average; b ← int_sub b db;
  Some {| red := to_uint8 (clamp r);
          green := to_uint8 (clamp g);
          blue := to_uint8 (clamp b) |}.

(** [saturate] and [desaturate] (lines 350-400). *)
Module Colour.

Definition saturate : image_info → prog unit := pointwise_partial saturate_pixel.
Definition desaturate : image_info → prog unit :=
  pointwise_partial desaturate_pixel.

End Colour.

(** The body of the loop of [brighten] (lines 408-419). *)
Definition brighten_pixel (p : pixel_info) : pixel_info :=
  let r := red p + BRIGHTEN_WEIGHT in
  let g := green p + BRIGHTEN_WEIGHT in
  let b := blue p + BRIGHTEN_WEIGHT in
  {| red := to_uint8 (clamp r);
     green := to_uint8 (clamp g);
     blue := to_uint8 (clamp b) |}.

(** The body of the loop of [darken] (lines 429-440). *)
Definition darken_pixel (p : pixel_info) : pixel_info :=
  let r := red p - DARKEN_WEIGHT in
  let g := green p - DARKEN_WEIGHT in
  let b := blue p - DARKEN_WEIGHT in
  {| red := to_uint8 (clamp r);
     green := to_uint8 (clamp g);
     blue := to_uint8 (clamp b) |}.

(** The body of the loop of [set_bright_to_white] (lines 466-472). *)
Definition set_bright_to_white_pixel (p : pixel_info) : pixel_info :=
  if average p >? LOW_PASS_THRESHOLD
  then {| red := MAX_COLOR; green := MAX_COLOR; blue := MAX_COLOR |}
  else p.

Definition red_only_pixel (p : pixel_info) : pixel_info :=
  {| red := red p; green := 0; blue := 0 |}.

Definition green_only_pixel (p : pixel_info) : pixel_info :=
  {| red := 0; green := green p; blue := 0 |}.

Definition blue_only_pixel (p : pixel_info) : pixel_info :=
  {| red := 0; green := 0; blue := blue p |}.

(** [temp = red; red = green; green = temp]. *)
Definition swap_r_and_g_pixel (p : pixel_info) : pixel_info :=
  let temp := red p in {| red := green p; green := temp; blue := blue p |}.

Definition swap_r_and_b_pixel (p : pixel_info) : pixel_info :=
  let temp := red p in {| red := blue p; green := green p; blue := temp |}.

Definition swap_g_and_b_pixel (p : pixel_info) : pixel_info :=
  let temp := green p in {| red := red p; green := blue p; blue := temp |}.

Definition brighten : image_info → prog unit := pointwise brighten_pixel.
Definition darken : image_info → prog unit := pointwise darken_pixel.
Definition set_bright_to_white : image_info → prog unit :=
  pointwise set_bright_to_white_pixel.
Definition red_only : image_info → prog unit := pointwise red_only_pixel.
Definition green_only : image_info → prog unit := pointwise green_only_pixel.
Definition blue_only : image_info → prog unit := pointwise blue_only_pixel.
Definition swap_r_and_g : image_info → prog unit := pointwise swap_r_and_g_pixel.
Definition swap_r_and_b : image_info → prog unit := pointwise swap_r_and_b_pixel.
Definition swap_g_and_b : image_info → prog unit := pointwise swap_g_and_b_pixel.

(** ** The check of the file header (image.c, lines 775-795) *)

Definition HEADER_SIZE : Z := 54.
Definition BITS_PER_PIXEL : Z := 24.

(** The conversion [(char)z] of a byte, [char] being signed. *)
Definition to_char (z : Z) : Z :=
  let u := z mod 256 in if u <? 128 then u else u - 256.

(** The conversion of a [uint16_t] to [int16_t]. *)
Definition to_int16 (z : Z) : Z :=
  let u := z mod 65536 in if u <? 32768 then u else u - 65536.

(** [header[i]] for the array [uint8_t header[HEADER_SIZE]]. *)
Definition header_at (header : list Z) (i : Z) : option Z :=
  if 0 <=? i then header !! Z.to_nat i else None.

(** The codes of ['B'] and ['M']. *)
Definition CHAR_B : Z := 66.
Definition CHAR_M : Z := 77.

Section header_check.

(** [*(uint16_t* )&header[i]] (line 786): two bytes of the [uint8_t] array
    read through an lvalue of type [uint16_t]. The array is not of that
    type and its address need not be aligned for it, so the C standard
    leaves the read undefined; what the compiler and the machine make of it
    is a parameter of the check: [None] where the read is undefined, the
    value read otherwise. *)
Variable read_uint16 : list Z → Z → option Z.

Definition check_file_and_bpp (header : list Z) : prog unit :=
  h0 ←← lift (header_at header 0);;
  if negb (CHAR_B =? to_char h0) then exit_failure else
  h1 ←← lift (header_at header 1);;
  if negb (CHAR_M =? to_char h1) then exit_failure else
  v ←← lift (read_uint16 header 28);;
  let bits_per_pixel := to_int16 v in
  if negb (bits_per_pixel =? BITS_PER_PIXEL) then exit_failure else ret tt.

End header_check.

(** The read on a machine that stores the low byte first, under a compiler
    that gives the cast its usual meaning. *)
Definition little_endian_read (header : list Z) (i : Z) : option Z :=
  lo ← header_at header i; hi ← header_at header (i + 1); Some (lo + 256 * hi).

(** ** Observations on outcomes *)

(** The pixels of the image [info] after a call that returned. *)
Definition pixels_after {A : Type} (info : image_info) (o : outcome A)
  : option buffer :=
  match o with
  | Ok _ w => mem w !! pixel_data info
  | Exit _ | Undefined => None
  end.

(** The conversion [(int)(0.5f * (float)d)] is [d / 2] rounded toward zero,
    checked for every difference [d] of two channel values. *)
Definition half_distance_check : bool :=
  forallb (λ d, match weighted_distance Float.half d 0 with
                | Some t => t =? d ÷ 2
                | None => false
                end) (seqZ (-255) 511).

(** The function [saturate] computes on a pixel: every channel is moved
    away from the average by half its distance, rounded toward zero, and
    saturated. *)
Definition saturated (p : pixel_info) : pixel_info :=
  let a := (red p + green p + blue p) ÷ 3 in
  {| blue := Z.max 0 (Z.min 255 (blue p + (blue p - a) ÷ 2));
     green := Z.max 0 (Z.min 255 (green p + (green p - a) ÷ 2));
     red := Z.max 0 (Z.min 255 (red p + (red p - a) ÷ 2)) |}.

(** The function [desaturate] computes on a pixel: every channel is moved
    toward the average by half its distance, rounded toward zero. *)
Definition desaturated (p : pixel_info) : pixel_info :=
  let a := (red p + green p + blue p) ÷ 3 in
  {| blue := blue p - (blue p - a) ÷ 2;
     green := green p - (green p - a) ÷ 2;
     red := red p - (red p - a) ÷ 2 |}.

(** The tap of an integer weight [m] with [-16 <= m <= 16] is the exact
    product, checked for the 256 channel values. *)
Definition integer_taps_check : bool :=
  forallb (λ m, forallb (λ c, match tap c (Double.of_int m) with
                              | Some t => t =? c * m
                              | None => false
                              end) (seqZ 0 256)) (seqZ (-16) 33).

(** The taps of the weights 2^-4, 2^-3 and 2^-2 of the Gaussian kernel are
    the quotients by 16, 8 and 4, checked for the 256 channel values. *)
Definition gaussian_taps_check : bool :=
  forallb (λ c, match tap c (Double.dyadic 1 (-4)), tap c (Double.dyadic 1 (-3)),
                      tap c (Double.dyadic 1 (-2)) with
                | Some t16, Some t8, Some t4 =>
                    (t16 =? c / 16) && (t8 =? c / 8) && (t4 =? c / 4)
                | _, _, _ => false
                end) (seqZ 0 256).

(** The sum of the nine weights of a kernel of integers. *)
Definition weight_sum (a b c d e f g h i : Z) : Z :=
  a + b + c + d + e + f + g + h + i.

(** The level a channel [c] of a uniform image has after the Gaussian
    kernel: four corner taps [c/16], four edge taps [c/8], the centre tap
    [c/4]. *)
Definition blurred_level (c : Z) : Z := 4 * (c / 16) + 4 * (c / 8) + c / 4.

(** A grey pixel: three equal channels. *)
Definition grey (p : pixel_info) : Prop := red p = green p ∧ green p = blue p.

(** A header the check accepts: B, M, zeros, and the depth 24 at offset 28. *)
Definition bitmap_header : list Z :=
  [66; 77] ++ replicate 26 0 ++ [24; 0] ++ replicate 24 0.

(** ** Sample inputs *)

(** A 3x2 sample image, its pixels and a world holding it. *)
Definition sample_image : image_info := ImageInfo 3 2 1%positive.

Definition sample_buffer : buffer :=
  [Pixel 10 20 30; Pixel 0 0 0; Pixel 255 255 255;
   Pixel 60 60 60; Pixel 59 60 60; Pixel 200 100 7].

Definition sample_world : world :=
  World {[ 1%positive := sample_buffer ]} (repeat (Some []) 8) [].

(** A 2x2 image with all channels 8. *)
Definition grey8 : buffer := replicate 4 (Pixel 8 8 8).

(** The world of [grey8]: one live block, one allocation granted. *)
Definition kernel_sample_world : world :=
  World {[ 1%positive := grey8 ]} [Some []] [].

(** A 1x1 image and a world holding it. *)
Definition one_pixel_image : image_info := ImageInfo 1 1 1%positive.

Definition one_pixel_world : world :=
  World {[ 1%positive := [Pixel 10 20 30] ]} [Some [Pixel 0 0 0]] [].

(** An image of width 0 and a world holding it. *)
Definition empty_image : image_info := ImageInfo 0 1 1%positive.

Definition empty_world : world := World {[ 1%positive := [] ]} [Some []] [].

(** An image of 2x40 pixels, two rows for each of the [NUM_THREADS]
    workers, its pixels and a world holding it. *)
Definition tall_image : image_info := ImageInfo 2 40 1%positive.

Definition tall_buffer : buffer :=
  (λ i, Pixel (3 * i) (255 - 2 * i) (i * i mod 256)) <$> seqZ 0 80.

Definition tall_world : world :=
  World {[ 1%positive := tall_buffer ]} [Some [Pixel 7 7 7]] [].

(** Every channel of every pixel of a buffer is in [0, 255]. *)
Definition buffer_wfb (l : buffer) : bool :=
  forallb (λ p, (0 <=? blue p) && (blue p <=? 255)
                && (0 <=? green p) && (green p <=? 255)
                && (0 <=? red p) && (red p <=? 255)) l.

(** * Properties *)

(** ** Loops *)

Lemma for_each_app {S A : Type} (body : S → A → option S) (l1 l2 : list A) (s : S) :
  for_each body (l1 ++ l2) s = for_each body l1 s ≫= for_each body l2.
Proof.
  revert s. induction l1 as [|a l1 IH]; intros s; simpl; [done|].
  destruct (body s a) as [s'|]; simpl; [apply IH | done].
Qed.

(** A step that is undefined whatever the state makes the loop undefined. *)
Lemma for_each_undefined {S A : Type} (body : S → A → option S) (l : list A)
    (a : A) (s : S) :
  a ∈ l → (∀ s, body s a = None) → for_each body l s = None.
Proof.
  intros Ha Hnone. revert s.
  induction l as [|a0 l IH]; intros s; [by apply elem_of_nil in Ha|].
  simpl. apply elem_of_cons in Ha as [->|Ha].
  - by rewrite Hnone.
  - destruct (body s a0); simpl; [by apply IH | done].
Qed.

Lemma load_lookup (buf : buffer) (i : nat) : load buf (Z.of_nat i) = buf !! i.
Proof.
  unfold load. rewrite Nat2Z.id.
  destruct (Z.leb_spec 0 (Z.of_nat i)); [done|lia].
Qed.

Lemma store_insert (buf : buffer) (i : nat) (v : pixel_info) :
  (i < length buf)%nat → store buf (Z.of_nat i) v = Some (<[i := v]> buf).
Proof.
  intros Hi. unfold store. rewrite Nat2Z.id.
  destruct (Z.leb_spec 0 (Z.of_nat i)); [|lia].
  destruct (Z.ltb_spec (Z.of_nat i) (Z.of_nat (length buf))); [done|lia].
Qed.

(** A loop that writes [g i] at every index [i < n], each step looking only
    at the part of the buffer not yet written: the first [n] cells end up
    holding [g 0 .. g (n-1)], the rest is untouched. *)
Lemma for_each_seqZ_store (body : buffer → Z → option buffer)
    (g : nat → pixel_info) (buf : buffer) (n : nat) :
  (n ≤ length buf)%nat →
  (∀ (i : nat) s, (i < n)%nat → length s = length buf →
     drop i s = drop i buf → body s (Z.of_nat i) = store s (Z.of_nat i) (g i)) →
  for_each body (seqZ 0 (Z.of_nat n)) buf = Some ((g <$> seq 0 n) ++ drop n buf).
Proof.
  intros Hn Hbody. induction n as [|n IH].
  - by rewrite drop_0.
  - rewrite seqZ_S, for_each_app, IH; [|lia|intros; apply Hbody; [lia|done..]].
    rewrite seq_S, fmap_app, Z.add_0_l.
    assert (Hlen : length ((g <$> seq 0 n) ++ drop n buf) = length buf).
    { rewrite length_app, length_fmap, length_seq, length_drop. lia. }
    cbn [mbind option_bind for_each].
    rewrite Hbody; [|lia|done|].
    2:{ rewrite drop_app_length'; [done|]. by rewrite length_fmap, length_seq. }
    rewrite store_insert by lia. cbn [mbind option_bind]. f_equal.
    rewrite insert_app_r_alt; rewrite length_fmap, length_seq; [|lia].
    rewrite Nat.sub_diag, <- app_assoc. f_equal.
    destruct (lookup_lt_is_Some_2 buf n) as [x Hx]; [lia|].
    by rewrite (drop_S _ _ _ Hx).
Qed.

(** ** Pointwise transforms *)

Lemma pointwise_loop_spec (f : pixel_info → pixel_info) (buf : buffer) :
  pointwise_loop f (Z.of_nat (length buf)) buf = Some (f <$> buf).
Proof.
  unfold pointwise_loop, for_range. rewrite Z.sub_0_r.
  rewrite (for_each_seqZ_store _ (λ i, f (default black (buf !! i)))); [|done|].
  - f_equal. rewrite drop_all, app_nil_r. apply list_eq. intros i.
    rewrite !list_lookup_fmap. destruct (decide (i < length buf)%nat) as [Hi|Hi].
    + rewrite lookup_seq_lt by done. simpl.
      by destruct (lookup_lt_is_Some_2 buf i Hi) as [x ->].
    + rewrite lookup_seq_ge, lookup_ge_None_2 by lia. done.
  - intros i s Hi Hlen Hdrop. rewrite load_lookup.
    assert (s !! i = buf !! i) as ->.
    { rewrite <- (Nat.add_0_r i), <- !lookup_drop. by rewrite Hdrop. }
    by destruct (lookup_lt_is_Some_2 buf i Hi) as [x ->].
Qed.

Lemma with_block_same (p : block) (buf : buffer) (w : world) :
  mem w !! p = Some buf → with_block p buf w = w.
Proof.
  intros H. destruct w as [m a c]. unfold with_block. simpl in *.
  by rewrite insert_id.
Qed.

Lemma with_block_twice (p : block) (buf1 buf2 : buffer) (w : world) :
  with_block p buf2 (with_block p buf1 w) = with_block p buf2 w.
Proof. unfold with_block. simpl. by rewrite insert_insert_eq. Qed.

Lemma in_int_spec (z : Z) : in_int z = true ↔ INT_MIN <= z <= INT_MAX.
Proof. unfold in_int. rewrite andb_true_iff, !Z.leb_le. done. Qed.

Lemma int_mul_size (info : image_info) (buf : buffer) (w : world) :
  image_in info buf w →
  int_mul (width info) (height info) = Some (Z.of_nat (length buf)).
Proof.
  intros (_ & Hlen & Hmax & _). unfold int_mul.
  assert (in_int (width info * height info) = true) as ->.
  { apply in_int_spec. unfold INT_MIN. lia. }
  by rewrite Hlen.
Qed.

(** A pointwise transform maps its function over the image, in place. *)
Lemma pointwise_spec (f : pixel_info → pixel_info) (info : image_info)
    (buf : buffer) (w : world) :
  image_in info buf w →
  pointwise f info w = Ok tt (with_block (pixel_data info) (f <$> buf) w).
Proof.
  intros Himg. pose proof (int_mul_size _ _ _ Himg) as Hsize.
  destruct Himg as (Hmem & Hlen & Hmax & Hwf).
  unfold pointwise, bind. rewrite Hsize. simpl.
  destruct (Z.leb_spec (Z.of_nat (length buf)) 0) as [Hz|Hz].
  - destruct buf; [|simpl in Hz; lia]. simpl.
    unfold ret. by rewrite with_block_same.
  - unfold deref. rewrite Hmem. simpl.
    rewrite pointwise_loop_spec. simpl. done.
Qed.

Lemma image_in_pointwise (f : pixel_info → pixel_info) (info : image_info)
    (buf : buffer) (w : world) :
  (∀ p, pixel_wf p → pixel_wf (f p)) →
  image_in info buf w →
  image_in info (f <$> buf) (with_block (pixel_data info) (f <$> buf) w).
Proof.
  intros Hf (Hmem & Hlen & Hmax & Hwf). repeat split.
  - simpl. apply lookup_insert_eq.
  - by rewrite length_fmap.
  - done.
  - apply Forall_fmap. eapply Forall_impl; [done|]. intros p Hp. by apply Hf.
Qed.

Lemma to_uint8_id (z : Z) : uint8 z → to_uint8 z = z.
Proof. unfold uint8, to_uint8. intros. apply Z.mod_small. lia. Qed.

Lemma invert_pixel_wf (p : pixel_info) : pixel_wf p → pixel_wf (invert_pixel p).
Proof.
  destruct p as [b g r]. unfold pixel_wf, invert_pixel, MAX_COLOR.
  cbn [blue green red]. unfold uint8. intros (?&?&?).
  rewrite !to_uint8_id by (unfold uint8; lia). lia.
Qed.

Lemma invert_pixel_involutive (p : pixel_info) :
  pixel_wf p → invert_pixel (invert_pixel p) = p.
Proof.
  destruct p as [b g r]. unfold pixel_wf, uint8, invert_pixel, MAX_COLOR.
  cbn [blue green red]. intros (?&?&?).
  rewrite (to_uint8_id (255 - b)), (to_uint8_id (255 - g)),
    (to_uint8_id (255 - r)) by (unfold uint8; lia).
  rewrite !to_uint8_id by (unfold uint8; lia).
  f_equal; lia.
Qed.

Lemma invert_buffer_involutive (buf : buffer) :
  Forall pixel_wf buf → invert_pixel <$> (invert_pixel <$> buf) = buf.
Proof.
  induction 1 as [|p l Hp _ IH]; [done|].
  rewrite !fmap_cons. by rewrite invert_pixel_involutive, IH.
Qed.

(** C10. On every well-formed image, [invert] returns, and a second
    [invert] returns with the world the first one started from: every pixel
    has its original channel values again, each channel having been mapped to
    255 minus its value twice. *)
Theorem invert_twice_restores (info : image_info) (buf : buffer) (w : world) :
  image_in info buf w →
  ∃ w1, invert info w = Ok tt w1
        ∧ mem w1 !! pixel_data info = Some (invert_pixel <$> buf)
        ∧ invert info w1 = Ok tt w.
Proof.
  intros Himg. eexists. split; [by apply pointwise_spec|]. split.
  { simpl. apply lookup_insert_eq. }
  unfold invert. erewrite pointwise_spec;
    [|apply image_in_pointwise; [apply invert_pixel_wf|done]].
  f_equal. rewrite with_block_twice.
  destruct Himg as (Hmem & _ & _ & Hwf).
  apply with_block_same. rewrite Hmem. f_equal.
  symmetry. by apply invert_buffer_involutive.
Qed.

Lemma sample_image_in : image_in sample_image sample_buffer sample_world.
Proof.
  repeat split; try done; unfold sample_buffer;
    repeat (apply Forall_cons; split; [unfold pixel_wf, uint8; simpl; lia|]);
    apply Forall_nil_2.
Qed.

Lemma invert_twice_restores_witness :
  image_in sample_image sample_buffer sample_world
  ∧ ∃ w1, invert sample_image sample_world = Ok tt w1
          ∧ mem w1 !! pixel_data sample_image = Some (invert_pixel <$> sample_buffer)
          ∧ invert sample_image w1 = Ok tt sample_world.
Proof.
  split; [exact sample_image_in|].
  exact (invert_twice_restores _ _ _ sample_image_in).
Defined.

Lemma average_wf (p : pixel_info) :
  pixel_wf p → average p = (red p + green p + blue p) ÷ 3.
Proof.
  unfold pixel_wf, uint8, average. intros (?&?&?). apply to_uint8_id.
  unfold uint8. rewrite Z.quot_div_nonneg by lia.
  split; [apply Z.div_pos; lia|].
  apply Z.lt_succ_r, Z.div_lt_upper_bound; lia.
Qed.

(** C8. On every well-formed image, [set_dim_to_black] returns with the image
    changed in place as follows: a pixel whose average [(r+g+b)/3] (integer
    division) is strictly below the threshold [HIGH_PASS_THRESHOLD] = 60 has
    all three channels 0; a pixel whose average is equal to or above the
    threshold keeps all its channel values. *)
Theorem set_dim_to_black_threshold (info : image_info) (buf : buffer) (w : world) :
  image_in info buf w →
  ∃ buf', set_dim_to_black info w = Ok tt (with_block (pixel_data info) buf' w)
    ∧ length buf' = length buf
    ∧ ∀ i p, buf !! i = Some p →
        ((red p + green p + blue p) ÷ 3 < HIGH_PASS_THRESHOLD →
           buf' !! i = Some {| blue := 0; green := 0; red := 0 |})
        ∧ (HIGH_PASS_THRESHOLD <= (red p + green p + blue p) ÷ 3 →
           buf' !! i = Some p).
Proof.
  intros Himg. exists (set_dim_to_black_pixel <$> buf).
  split; [by apply pointwise_spec|]. split; [by rewrite length_fmap|].
  intros i p Hp. rewrite list_lookup_fmap, Hp. simpl.
  destruct Himg as (_ & _ & _ & Hwf).
  assert (pixel_wf p) as Hpwf.
  { rewrite Forall_lookup in Hwf. by eapply Hwf. }
  unfold set_dim_to_black_pixel. rewrite average_wf by done.
  destruct (Z.ltb_spec ((red p + green p + blue p) ÷ 3) HIGH_PASS_THRESHOLD);
    split; intros; try done; lia.
Qed.

Lemma set_dim_to_black_threshold_witness :
  image_in sample_image sample_buffer sample_world
  ∧ ∃ buf', set_dim_to_black sample_image sample_world
              = Ok tt (with_block (pixel_data sample_image) buf' sample_world)
    ∧ length buf' = length sample_buffer
    ∧ ∀ i p, sample_buffer !! i = Some p →
        ((red p + green p + blue p) ÷ 3 < HIGH_PASS_THRESHOLD →
           buf' !! i = Some {| blue := 0; green := 0; red := 0 |})
        ∧ (HIGH_PASS_THRESHOLD <= (red p + green p + blue p) ÷ 3 →
           buf' !! i = Some p).
Proof.
  split; [exact sample_image_in|].
  exact (set_dim_to_black_threshold _ _ _ sample_image_in).
Defined.

(** The boundary on the sample image: the pixel (60,60,60) has average 60
    and is kept, the pixel (59,60,60) has average 59 and becomes black. *)
Example set_dim_to_black_boundary :
  set_dim_to_black_pixel (Pixel 60 60 60) = Pixel 60 60 60
  ∧ set_dim_to_black_pixel (Pixel 59 60 60) = Pixel 0 0 0.
Proof. done. Qed.

(** ** Border reflection *)

(** C2, counterexample. The specified mapping fails at the high edge, where
    the code maps [c = N] to [N - 2] and not to [2N - 1 - c = N - 1] (here
    [N = 3]), and for [N = 1], where the mapped coordinate of [c = -1] is
    [-1], outside [0, N). *)
Lemma reflect_high_edge_counterexample :
  ¬ (reflect 3 3 = 2 * 3 - 1 - 3) ∧ ¬ (0 <= reflect 1 (-1) < 1).
Proof. split; vm_compute; [discriminate | intros [H _]; by apply H]. Qed.

(** C2, as the code has it. For an axis of length [N >= 2] and a coordinate
    [c] at most one pixel outside [0, N), the reflection maps [c < 0] to [-c] and
    [c >= N] to [2N - 2 - c] (the mirror image about the last pixel, that
    pixel not repeated), leaves [c] in [0, N) as it is, and the mapped
    coordinate lies in [0, N). *)
Theorem reflect_single_overstep (N c : Z) :
  2 <= N → -1 <= c <= N →
  (c < 0 → reflect N c = - c)
  ∧ (N <= c → reflect N c = 2 * N - 2 - c)
  ∧ (0 <= c < N → reflect N c = c)
  ∧ 0 <= reflect N c < N.
Proof.
  intros HN Hc. unfold reflect.
  destruct (Z.ltb_spec c 0);
    [destruct (Z.geb_spec (c * -1) N) | destruct (Z.geb_spec c N)]; lia.
Qed.

Lemma reflect_single_overstep_witness :
  2 <= 3 ∧ -1 <= 3 <= 3
  ∧ (3 < 0 → reflect 3 3 = - 3)
  ∧ (3 <= 3 → reflect 3 3 = 2 * 3 - 2 - 3)
  ∧ (0 <= 3 < 3 → reflect 3 3 = 3)
  ∧ 0 <= reflect 3 3 < 3.
Proof.
  split; [lia|]. split; [lia|]. apply (reflect_single_overstep 3 3); lia.
Defined.

(** ** Workers as schedules of cell writes *)

Lemma for_each_nested {S A B : Type} (f : A → S → B → option S)
    (la : list A) (lb : list B) (s : S) :
  for_each (λ s a, for_each (f a) lb s) la s
  = for_each (λ s c, f c.1 s c.2) (a ← la; b ← lb; [(a, b)]) s.
Proof.
  revert s. induction la as [|a la IH]; intros s; [done|].
  cbn [for_each]. rewrite bind_cons, for_each_app.
  assert (∀ s, for_each (λ s c, f c.1 s c.2) (b ← lb; [(a, b)]) s
               = for_each (f a) lb s) as ->.
  { clear. induction lb as [|b lb IH]; intros s; [done|].
    rewrite bind_cons. simpl. destruct (f a s b); simpl; [apply IH|done]. }
  destruct (for_each (f a) lb s); simpl; [apply IH|done].
Qed.

Lemma convolve_threader_schedule (W H : Z) (src : buffer) (k : kernel3)
    (t : thread_info) (dst : buffer) :
  convolve_threader W H src k t dst
  = run_schedule W H src k (worker_cells W t) dst.
Proof.
  unfold convolve_threader, for_range, run_schedule, worker_cells.
  rewrite Z.sub_0_r.
  apply (for_each_nested (λ y dst x, cell_step W H src k dst (y, x))).
Qed.

Lemma run_workers_schedule (W H : Z) (src : buffer) (k : kernel3)
    (ts : list thread_info) (dst : buffer) :
  run_workers W H src k ts dst
  = run_schedule W H src k (ts ≫= worker_cells W) dst.
Proof.
  unfold run_workers, run_schedule. revert dst.
  induction ts as [|t ts IH]; intros dst; [done|].
  cbn [for_each]. rewrite bind_cons, for_each_app, convolve_threader_schedule.
  unfold run_schedule.
  destruct (for_each _ (worker_cells W t) dst); simpl; [apply IH|done].
Qed.

Lemma elem_of_worker_cells (W : Z) (t : thread_info) (c : Z * Z) :
  c ∈ worker_cells W t ↔ start_y t <= c.1 < end_y t ∧ 0 <= c.2 < W.
Proof.
  unfold worker_cells. rewrite list_elem_of_bind. split.
  - intros (y & Hc & Hy). apply list_elem_of_bind in Hc as (x & Hc & Hx).
    apply list_elem_of_singleton in Hc as ->.
    apply elem_of_seqZ in Hy, Hx. simpl. lia.
  - intros [Hy Hx]. exists c.1. split; [|apply elem_of_seqZ; lia].
    apply list_elem_of_bind. exists c.2. split; [|apply elem_of_seqZ; lia].
    destruct c. simpl. apply list_elem_of_singleton. done.
Qed.

(** The bands of [n >= 1] workers cover the rows [0 <= y < H], and nothing
    else. *)
Lemma bands_cover (n H y : Z) :
  1 <= n → 1 <= H →
  (∃ t, t ∈ bands n H ∧ start_y t <= y < end_y t) ↔ 0 <= y < H.
Proof.
  intros Hn HH. unfold bands. rewrite Z.quot_div_nonneg by lia.
  set (q := H / n).
  assert (0 <= q) by (apply Z.div_pos; lia).
  assert (q * n <= H) by (rewrite Z.mul_comm; apply Z.mul_div_le; lia).
  split.
  - intros (t & Ht & Hy). apply elem_of_app in Ht as [Ht|Ht].
    + apply list_elem_of_fmap in Ht as (i & -> & Hi).
      apply elem_of_seqZ in Hi. simpl in Hy. nia.
    + apply list_elem_of_singleton in Ht as ->. simpl in Hy. nia.
  - intros Hy. destruct (Z_lt_le_dec y (q * (n - 1))) as [Hlt|Hge].
    + assert (0 < q) by nia.
      exists (ThreadInfo (q * (y / q)) (q * (y / q + 1))). split.
      * apply elem_of_app. left. apply list_elem_of_fmap.
        exists (y / q). split; [done|]. apply elem_of_seqZ.
        split; [apply Z.div_pos; lia|].
        rewrite Z.add_0_l. apply Z.div_lt_upper_bound; lia.
      * simpl. pose proof (Z.mul_div_le y q ltac:(lia)).
        pose proof (Z.mul_succ_div_gt y q ltac:(lia)). lia.
    + exists (ThreadInfo (q * (n - 1)) H). split.
      * apply elem_of_app. right. by apply list_elem_of_singleton.
      * simpl. lia.
Qed.

Lemma elem_of_bands_cells (W H n : Z) (c : Z * Z) :
  1 <= n → 1 <= H →
  c ∈ bands n H ≫= worker_cells W ↔ in_grid W H c.
Proof.
  intros Hn HH. rewrite list_elem_of_bind. unfold in_grid.
  setoid_rewrite elem_of_worker_cells.
  rewrite <- (bands_cover n H c.1) by done. split.
  - intros (t & [Hy Hx] & Ht). split; [by exists t | done].
  - intros [(t & Ht & Hy) Hx]. by exists t.
Qed.

Lemma cell_index_inj (W H : Z) (c c' : Z * Z) :
  in_grid W H c → in_grid W H c' →
  c.1 * W + c.2 = c'.1 * W + c'.2 → c = c'.
Proof.
  destruct c as [y x], c' as [y' x']. unfold in_grid. simpl.
  intros [Hy Hx] [Hy' Hx'] Heq.
  assert (y = y') by nia. subst. f_equal. lia.
Qed.

Lemma cell_step_store (W H : Z) (src : buffer) (k : kernel3) (dst : buffer)
    (c : Z * Z) :
  in_grid W H c → Z.of_nat (length dst) = W * H →
  cell_step W H src k dst c
  = v ← convolve_pixel W H src k c.1 c.2;
    Some (<[Z.to_nat (c.1 * W + c.2) := v]> dst).
Proof.
  intros [Hy Hx] Hlen. unfold cell_step, store2, row_index, store.
  destruct (convolve_pixel W H src k c.1 c.2) as [v|]; [simpl|done].
  destruct (Z.leb_spec 0 c.1); [|lia].
  destruct (Z.ltb_spec c.1 H); [|lia]. simpl.
  destruct (Z.leb_spec 0 (c.1 * W + c.2)); [|nia].
  destruct (Z.ltb_spec (c.1 * W + c.2) (Z.of_nat (length dst))); [done|nia].
Qed.

(** A schedule of in-grid cells is undefined exactly when the pixel of one
    of its cells is. *)
Lemma run_schedule_None (W H : Z) (src : buffer) (k : kernel3)
    (cells : list (Z * Z)) (dst : buffer) :
  Forall (in_grid W H) cells → Z.of_nat (length dst) = W * H →
  run_schedule W H src k cells dst = None
  ↔ ∃ c, c ∈ cells ∧ convolve_pixel W H src k c.1 c.2 = None.
Proof.
  intros Hgrid Hlen. split.
  - revert dst Hlen. unfold run_schedule.
    induction Hgrid as [|c cells Hc _ IH]; intros dst Hlen; [done|].
    cbn [for_each]. rewrite cell_step_store by done.
    destruct (convolve_pixel W H src k c.1 c.2) as [v|] eqn:Hv.
    + simpl. intros Hrun. apply IH in Hrun as (c' & Hc' & Hnone).
      * exists c'. split; [by right|done].
      * by rewrite length_insert.
    + intros _. exists c. split; [by left|done].
  - intros (c & Hc & Hnone). eapply for_each_undefined; [done|].
    intros s. unfold cell_step. by rewrite Hnone.
Qed.

(** When a schedule of in-grid cells returns, every cell of the schedule
    holds its pixel, computed from the source alone, and every other cell is
    as it was. *)
Lemma run_schedule_Some (W H : Z) (src : buffer) (k : kernel3)
    (cells : list (Z * Z)) (dst dst' : buffer) :
  Forall (in_grid W H) cells → Z.of_nat (length dst) = W * H →
  run_schedule W H src k cells dst = Some dst' →
  length dst' = length dst
  ∧ ∀ c, in_grid W H c →
      dst' !! Z.to_nat (c.1 * W + c.2)
      = if decide (c ∈ cells) then convolve_pixel W H src k c.1 c.2
        else dst !! Z.to_nat (c.1 * W + c.2).
Proof.
  intros Hgrid. revert dst. unfold run_schedule.
  induction Hgrid as [|c0 cells Hc0 Hgrid IH]; intros dst Hlen Hrun.
  - simpl in Hrun. injection Hrun as <-. split; [done|].
    intros c Hc. destruct (decide (c ∈ [])) as [Hin|]; [|done].
    by apply elem_of_nil in Hin.
  - cbn [for_each] in Hrun. rewrite cell_step_store in Hrun by done.
    destruct (convolve_pixel W H src k c0.1 c0.2) as [v|] eqn:Hv; [|done].
    simpl in Hrun. apply IH in Hrun as [Hlen' Hlook];
      [|by rewrite length_insert].
    rewrite length_insert in Hlen'. split; [done|].
    intros c Hc. rewrite (Hlook c Hc).
    destruct (decide (c ∈ cells)) as [Hin|Hnin].
    + rewrite decide_True by (by right). done.
    + destruct (decide (c = c0)) as [->|Hne].
      * rewrite decide_True by (by left).
        rewrite list_lookup_insert_eq; [done|].
        destruct Hc0. nia.
      * rewrite decide_False by (rewrite elem_of_cons; tauto).
        apply list_lookup_insert_ne. intros Heq. apply Hne. symmetry.
        apply (cell_index_inj W H); [done..|].
        destruct Hc, Hc0. apply Z2Nat.inj in Heq; nia.
Qed.

(** Every position of a [W * H] buffer is the position of a cell of the
    grid. *)
Lemma position_cell (W H : Z) (i : nat) :
  Z.of_nat i < W * H → 0 <= W →
  ∃ c, in_grid W H c ∧ Z.to_nat (c.1 * W + c.2) = i.
Proof.
  intros Hi HW. assert (W ≠ 0) by (intros ->; lia). assert (0 < W) by lia.
  exists (Z.of_nat i / W, Z.of_nat i mod W). unfold in_grid. simpl.
  pose proof (Z.mod_pos_bound (Z.of_nat i) W ltac:(lia)).
  pose proof (Z.div_mod (Z.of_nat i) W ltac:(lia)).
  assert (0 <= Z.of_nat i / W) by (apply Z.div_pos; lia).
  assert (Z.of_nat i / W < H).
  { apply Z.div_lt_upper_bound; [lia|]. nia. }
  split; [lia|]. rewrite (Z.mul_comm _ W). lia.
Qed.

(** Two schedules over the same cells of the grid have the same result,
    from any two destinations of the right size. *)
Lemma run_schedule_same_cells (W H : Z) (src : buffer) (k : kernel3)
    (cells1 cells2 : list (Z * Z)) (dst1 dst2 : buffer) :
  (∀ c, c ∈ cells1 ↔ in_grid W H c) →
  (∀ c, c ∈ cells2 ↔ in_grid W H c) → 0 <= H →
  Z.of_nat (length dst1) = W * H → Z.of_nat (length dst2) = W * H →
  run_schedule W H src k cells1 dst1 = run_schedule W H src k cells2 dst2.
Proof.
  intros H1 H2 HH Hlen1 Hlen2.
  assert (Forall (in_grid W H) cells1) as Hg1.
  { apply Forall_forall. intros c. apply H1. }
  assert (Forall (in_grid W H) cells2) as Hg2.
  { apply Forall_forall. intros c. apply H2. }
  destruct (run_schedule W H src k cells1 dst1) as [d1|] eqn:E1;
    destruct (run_schedule W H src k cells2 dst2) as [d2|] eqn:E2.
  - f_equal.
    apply run_schedule_Some in E1 as [L1 K1]; [|done..].
    apply run_schedule_Some in E2 as [L2 K2]; [|done..].
    apply list_eq. intros i.
    destruct (decide (Z.of_nat i < W * H)) as [Hi|Hi].
    + destruct (Z_lt_le_dec W 0) as [HW|HW].
      { exfalso. nia. }
      destruct (position_cell W H i Hi HW) as (c & Hc & <-).
      rewrite K1, K2 by done.
      rewrite !decide_True; [done|by apply H2|by apply H1].
    + rewrite !lookup_ge_None_2; [done|lia..].
  - apply run_schedule_None in E2 as (c & Hc & Hnone); [|done..].
    assert (run_schedule W H src k cells1 dst1 = None) as E.
    { apply run_schedule_None; [done..|]. exists c. split; [|done].
      apply H1. by apply H2. }
    congruence.
  - apply run_schedule_None in E1 as (c & Hc & Hnone); [|done..].
    assert (run_schedule W H src k cells2 dst2 = None) as E.
    { apply run_schedule_None; [done..|]. exists c. split; [|done].
      apply H2. by apply H1. }
    congruence.
  - done.
Qed.

(** ** [convolve] at the program level *)

Lemma for_each_prog_pthread_create (ts : list thread_info) (w : world) :
  for_each_prog pthread_create ts w
  = Ok tt {| mem := mem w; answers := answers w; created := created w ++ ts |}.
Proof.
  revert w. induction ts as [|t ts IH]; intros w.
  - simpl. unfold ret. rewrite app_nil_r. by destruct w.
  - simpl. unfold bind, pthread_create. rewrite IH. simpl.
    by rewrite <- app_assoc.
Qed.

(** A request that is granted was for a non-negative number of pixels. *)
Lemma malloc_size_nonneg (size : Z) :
  in_int size = true →
  (sizeof_pixel_info * (size mod SIZE_MOD)) mod SIZE_MOD <= PTRDIFF_MAX →
  0 <= size ∧ size mod SIZE_MOD = size.
Proof.
  rewrite in_int_spec.
  unfold INT_MIN, INT_MAX, sizeof_pixel_info, SIZE_MOD, PTRDIFF_MAX.
  intros Hint Hbytes. destruct (Z_lt_le_dec size 0) as [Hneg|Hpos].
  - exfalso.
    assert (size mod 2 ^ 64 = size + 2 ^ 64) as E1.
    { symmetry. apply Z.mod_unique with (q := -1); lia. }
    rewrite E1 in Hbytes.
    assert ((3 * (size + 2 ^ 64)) mod 2 ^ 64 = 3 * size + 2 ^ 64) as E2.
    { symmetry. apply Z.mod_unique with (q := 2); lia. }
    rewrite E2 in Hbytes. lia.
  - split; [done|]. apply Z.mod_small. lia.
Qed.

Lemma malloc_size_ok (size : Z) :
  0 <= size <= INT_MAX →
  size mod SIZE_MOD = size
  ∧ (sizeof_pixel_info * (size mod SIZE_MOD)) mod SIZE_MOD <= PTRDIFF_MAX.
Proof.
  unfold INT_MAX, sizeof_pixel_info, SIZE_MOD, PTRDIFF_MAX. intros Hs.
  rewrite (Z.mod_small size) by lia. split; [done|].
  rewrite Z.mod_small; lia.
Qed.

(** The workers of any [n >= 1] bands, one after the other, compute the
    sequential single-band reference. *)
Lemma run_workers_bands (W H n : Z) (src : buffer) (k : kernel3) (dst : buffer) :
  1 <= n → 1 <= H → Z.of_nat (length dst) = W * H →
  run_workers W H src k (bands n H) dst = convolution W H src k.
Proof.
  intros Hn HH Hlen. unfold convolution.
  rewrite run_workers_schedule, convolve_threader_schedule.
  apply run_schedule_same_cells; [| |lia|done|].
  - intros c. by apply elem_of_bands_cells.
  - intros c. rewrite elem_of_worker_cells. unfold in_grid. simpl. lia.
  - rewrite length_replicate. lia.
Qed.

(** The part of [convolve_n] after the allocation (lines 556-594), run in
    the world [w'] the allocation leaves. *)
Lemma convolve_n_success (n : Z) (info : image_info) (k : kernel3) (w : world)
    (src garbage : buffer) (rest : list (option buffer)) :
  1 <= n → 1 <= height info →
  0 <= width info * height info <= INT_MAX →
  answers w = Some garbage :: rest →
  mem w !! pixel_data info = Some src →
  convolve_n n info k w
  = match convolution (width info) (height info) src k with
    | Some out =>
        Ok (fresh (dom (mem w)))
           {| mem := <[fresh (dom (mem w)) := out]> (mem w);
              answers := rest;
              created := created w ++ bands n (height info) |}
    | None => Undefined
    end.
Proof.
  intros Hn HH Hsize Hans Hsrc.
  destruct (malloc_size_ok _ Hsize) as [Hmod Hbytes].
  unfold convolve_n, bind, int_mul.
  assert (in_int (width info * height info) = true) as ->.
  { apply in_int_spec. unfold INT_MIN. lia. }
  cbn [lift]. unfold malloc_pixels. rewrite Hans.
  destruct (Z.leb_spec
              ((sizeof_pixel_info * ((width info * height info) `mod` SIZE_MOD))
                 `mod` SIZE_MOD) PTRDIFF_MAX) as [_|]; [|lia].
  destruct (Z.leb_spec (height info) 0); [lia|].
  destruct (Z.leb_spec n 0); [lia|]. cbn [orb].
  rewrite for_each_prog_pthread_create. cbn [mem answers created].
  assert (fresh (dom (mem w)) ≠ pixel_data info) as Hfresh.
  { intros Heq. apply (is_fresh (dom (mem w))). rewrite Heq.
    apply elem_of_dom. by eexists. }
  unfold deref. cbn [mem]. rewrite lookup_insert_ne by done. rewrite Hsrc.
  cbn [lift mem]. rewrite lookup_insert_eq. cbn [lift].
  rewrite run_workers_bands; [|done..|].
  2:{ rewrite length_resize, Hmod. lia. }
  destruct (convolution (width info) (height info) src k) as [out|]; [|done].
  cbn [lift]. unfold assign, ret. cbn [mem answers created].
  by rewrite insert_insert_eq.
Qed.

(** The result of [convolve_n] does not depend on the number of bands. *)
Lemma convolve_n_result (n : Z) (info : image_info) (k : kernel3) (w : world) :
  1 <= n →
  result (convolve_n n info k w) = result (convolve_n 1 info k w).
Proof.
  intros Hn. unfold convolve_n, bind, int_mul.
  rewrite (proj2 (Z.leb_gt n 0)) by lia. change (1 <=? 0) with false.
  rewrite orb_false_r.
  destruct (in_int (width info * height info)) eqn:Hint; [|done].
  cbn [lift]. unfold malloc_pixels.
  destruct (answers w) as [|[garbage|] rest] eqn:Hans; [done| |done].
  destruct (Z.leb_spec
              ((sizeof_pixel_info * ((width info * height info) `mod` SIZE_MOD))
                 `mod` SIZE_MOD) PTRDIFF_MAX) as [Hbytes|]; [|done].
  destruct (malloc_size_nonneg _ Hint Hbytes) as [Hpos Hmod].
  destruct (Z.leb_spec (height info) 0) as [|HH]; [done|].
  rewrite !for_each_prog_pthread_create. cbn [mem answers created].
  unfold deref. cbn [mem].
  destruct (<[fresh (dom (mem w)) := _]> (mem w) !! pixel_data info)
    as [src|]; [|done].
  cbn [lift mem]. rewrite lookup_insert_eq. cbn [lift].
  rewrite !run_workers_bands
    by first [lia | rewrite length_resize, Hmod; lia].
  destruct (convolution (width info) (height info) src k); done.
Qed.

(** ** The value of an output pixel *)

Lemma tap_ok (w : double) (c : Z) :
  weight_ok w = true → uint8 c →
  ∃ t, tap c w = Some t ∧ Z.abs t <= TAP_MAX.
Proof.
  unfold weight_ok, uint8. rewrite forallb_forall. intros Hw Hc.
  specialize (Hw c). destruct (tap c w) as [t|].
  - exists t. split; [done|]. apply Z.leb_le, Hw.
    apply list_elem_of_In, elem_of_seqZ. lia.
  - discriminate Hw. apply list_elem_of_In, elem_of_seqZ. lia.
Qed.

Lemma kernel_at_ok (k : kernel3) (m_y m_x : Z) :
  kernel_ok k = true → 0 <= m_y <= 2 → 0 <= m_x <= 2 →
  ∃ w, kernel_at k m_y m_x = Some w ∧ weight_ok w = true.
Proof.
  unfold kernel_ok, kernel_weights. cbn [forallb].
  rewrite !andb_true_iff. intros (?&?&?&?&?&?&?&?&?&_) Hy Hx.
  assert (m_y = 0 ∨ m_y = 1 ∨ m_y = 2) as [-> | [-> | ->]] by lia;
    (assert (m_x = 0 ∨ m_x = 1 ∨ m_x = 2) as [-> | [-> | ->]] by lia);
    eexists; (split; [reflexivity|done]).
Qed.

Lemma reflect_in_range (N c : Z) :
  2 <= N → -1 <= c <= N → 0 <= reflect N c < N.
Proof.
  intros HN Hc. unfold reflect.
  destruct (Z.ltb_spec c 0);
    [destruct (Z.geb_spec (c * -1) N) | destruct (Z.geb_spec c N)]; lia.
Qed.

Lemma load2_in_grid (W H : Z) (src : buffer) (f_y f_x : Z) :
  Z.of_nat (length src) = W * H → 0 <= f_y < H → 0 <= f_x < W →
  ∃ p, load2 src W H f_y f_x = Some p ∧ source_at W src f_y f_x = p ∧ p ∈ src.
Proof.
  intros Hlen Hy Hx. unfold load2, row_index, source_at.
  destruct (Z.leb_spec 0 f_y); [|lia]. destruct (Z.ltb_spec f_y H); [|lia].
  simpl. unfold load. destruct (Z.leb_spec 0 (f_y * W + f_x)); [|nia].
  destruct (lookup_lt_is_Some_2 src (Z.to_nat (f_y * W + f_x))) as [p Hp];
    [nia|].
  exists p. rewrite Hp. split; [done|]. split; [done|].
  by eapply list_elem_of_lookup_2.
Qed.

Section pixel_value.
Context (W H : Z) (src : buffer) (k : kernel3).
Hypothesis HW : 2 <= W.
Hypothesis HH : 2 <= H.
Hypothesis Hlen : Z.of_nat (length src) = W * H.
Hypothesis Hwf : Forall pixel_wf src.
Hypothesis Hk : kernel_ok k = true.

(** One tap: inside the image and the kernel, and no overflow while fewer
    than nine taps have been added. *)
Lemma tap_step_ok (y x n : Z) (d : Z * Z) (a : rgb) :
  0 <= y < H → 0 <= x < W → near d → 0 <= n < 9 → acc_bounded n a →
  tap_step W H src k x y (y + d.1) a (x + d.2) = Some (add_taps W H src k y x a d)
  ∧ acc_bounded (n + 1) (add_taps W H src k y x a d).
Proof.
  intros Hy Hx [Hd1 Hd2] Hn (Hr & Hg & Hb).
  unfold tap_step, add_taps, tap_at.
  replace (y - (y + d.1) + radius) with (1 - d.1) by (unfold radius; lia).
  replace (x + d.2 - x + radius) with (d.2 + 1) by (unfold radius; lia).
  destruct (load2_in_grid W H src (reflect H (y + d.1)) (reflect W (x + d.2)))
    as (p & -> & -> & Hp); [done|apply reflect_in_range; lia..|].
  destruct (kernel_at_ok k (1 - d.1) (d.2 + 1)) as (w & Hw & Hwok);
    [done|lia..|].
  unfold weight_at. rewrite Hw.
  change (default (S754_zero false) (Some w)) with w.
  cbn [mbind option_bind].
  rewrite Forall_forall in Hwf. destruct (Hwf p Hp) as (Hpb & Hpg & Hpr).
  destruct (tap_ok w (red p) Hwok Hpr) as (tr & Htr & Hbr).
  destruct (tap_ok w (green p) Hwok Hpg) as (tg & Htg & Hbg).
  destruct (tap_ok w (blue p) Hwok Hpb) as (tb & Htb & Hbb).
  unfold tap_value. rewrite Htr, Htg, Htb.
  change (default 0 (Some tr)) with tr. change (default 0 (Some tg)) with tg.
  change (default 0 (Some tb)) with tb. cbn [mbind option_bind].
  assert (9 * TAP_MAX <= INT_MAX) as Hnine by (vm_compute; discriminate).
  assert (0 <= TAP_MAX) as Hpos by (vm_compute; discriminate).
  unfold int_add.
  assert (∀ s t, Z.abs s <= n * TAP_MAX → Z.abs t <= TAP_MAX →
                 in_int (s + t) = true ∧ Z.abs (s + t) <= (n + 1) * TAP_MAX)
    as Hadd.
  { intros s t Hs Ht. rewrite in_int_spec. unfold INT_MIN.
    change (2 ^ 31) with (INT_MAX + 1). nia. }
  destruct (Hadd _ _ Hr Hbr) as [-> ?].
  destruct (Hadd _ _ Hg Hbg) as [-> ?].
  destruct (Hadd _ _ Hb Hbb) as [-> ?].
  cbn [mbind option_bind acc_r acc_g acc_b]. done.
Qed.

(** Inside the formula no default is ever taken: the neighbour is read
    inside the source, the weight inside the kernel, and the conversion of
    their product to [int] is defined. *)
Lemma tap_at_defined (ch : pixel_info → Z) (y x : Z) (d : Z * Z) :
  (∀ p, pixel_wf p → uint8 (ch p)) →
  0 <= y < H → 0 <= x < W → near d →
  ∃ p w,
    load2 src W H (reflect H (y + d.1)) (reflect W (x + d.2)) = Some p
    ∧ kernel_at k (1 - d.1) (d.2 + 1) = Some w
    ∧ tap (ch p) w = Some (tap_at ch W H src k y x d).
Proof.
  intros Hch Hy Hx [Hd1 Hd2]. unfold tap_at.
  destruct (load2_in_grid W H src (reflect H (y + d.1)) (reflect W (x + d.2)))
    as (p & Hload & -> & Hp); [done|apply reflect_in_range; lia..|].
  destruct (kernel_at_ok k (1 - d.1) (d.2 + 1)) as (w & Hw & Hwok);
    [done|lia..|].
  exists p, w. split; [done|]. split; [done|].
  unfold weight_at. rewrite Hw.
  change (default (S754_zero false) (Some w)) with w.
  rewrite Forall_forall in Hwf.
  destruct (tap_ok w (ch p) Hwok (Hch p (Hwf p Hp))) as (t & Ht & _).
  unfold tap_value. by rewrite Ht.
Qed.

(** The taps of a list of at most nine offsets. *)
Lemma taps_ok (y x n : Z) (l : list (Z * Z)) (a : rgb) :
  0 <= y < H → 0 <= x < W → Forall near l →
  0 <= n → n + Z.of_nat (length l) <= 9 → acc_bounded n a →
  for_each (λ a c, tap_step W H src k x y c.1 a c.2)
           ((λ d, (y + d.1, x + d.2)) <$> l) a
  = Some (foldl (add_taps W H src k y x) a l).
Proof.
  intros Hy Hx Hl. revert n a.
  induction Hl as [|d l Hd _ IH]; intros n a Hn Hnine Ha; [done|].
  rewrite fmap_cons. cbn [for_each foldl fst snd].
  simpl length in Hnine.
  destruct (tap_step_ok y x n d a) as [-> Ha']; [done..|lia|done|].
  cbn [mbind option_bind]. apply (IH (n + 1)); [lia|lia|done].
Qed.

Lemma foldl_add_taps (y x : Z) (l : list (Z * Z)) (a : rgb) :
  foldl (add_taps W H src k y x) a l
  = Rgb (acc_r a + sum_list (tap_at red W H src k y x <$> l))
        (acc_g a + sum_list (tap_at green W H src k y x <$> l))
        (acc_b a + sum_list (tap_at blue W H src k y x <$> l)).
Proof.
  revert a. induction l as [|d l IH]; intros a.
  - destruct a. simpl. f_equal; lia.
  - cbn [foldl]. rewrite IH. rewrite !fmap_cons.
    unfold add_taps, sum_list. cbn [acc_r acc_g acc_b foldr]. f_equal; lia.
Qed.

Lemma neighbours (y x : Z) :
  (yy ← seqZ (y - radius) (y + radius + 1 - (y - radius));
   xx ← seqZ (x - radius) (x + radius + 1 - (x - radius)); [(yy, xx)])
  = (λ d, (y + d.1, x + d.2)) <$> neighbourhood.
Proof.
  unfold radius.
  replace (y + 1 + 1 - (y - 1)) with 3 by lia.
  replace (x + 1 + 1 - (x - 1)) with 3 by lia.
  unfold seqZ. simpl.
  repeat (f_equal; try lia).
Qed.

Lemma clamp_saturate (z : Z) : to_uint8 (clamp z) = saturate z.
Proof.
  unfold clamp, saturate, MAX_COLOR.
  destruct (Z.gtb_spec z 255).
  - change (255 <? 0) with false. cbv iota. rewrite to_uint8_id; [lia|].
    unfold uint8. lia.
  - destruct (Z.ltb_spec z 0).
    + rewrite to_uint8_id; [lia|]. unfold uint8. lia.
    + rewrite to_uint8_id; [lia|]. unfold uint8. lia.
Qed.

(** The pixel [convolve_threader] computes for an in-grid cell. *)
Lemma convolve_pixel_value (y x : Z) :
  0 <= y < H → 0 <= x < W →
  convolve_pixel W H src k y x = Some (convolved_pixel W H src k y x).
Proof.
  intros Hy Hx. unfold convolve_pixel, for_range.
  rewrite (for_each_nested (λ yy a xx, tap_step W H src k x y yy a xx)).
  rewrite neighbours.
  rewrite (taps_ok y x 0); [| done | done | | lia | | ].
  - rewrite foldl_add_taps. cbn [mbind option_bind acc_r acc_g acc_b].
    rewrite !Z.add_0_l, !clamp_saturate. done.
  - unfold neighbourhood, near. repeat constructor; simpl; lia.
  - vm_compute. discriminate.
  - unfold acc_bounded. simpl. lia.
Qed.

End pixel_value.

Lemma elem_of_all_cells (W H : Z) (c : Z * Z) :
  c ∈ worker_cells W (ThreadInfo 0 H) ↔ in_grid W H c.
Proof. rewrite elem_of_worker_cells. unfold in_grid. simpl. lia. Qed.

(** On an image of at least 2x2 pixels and with a kernel that keeps the
    taps inside [int], the reference convolution is defined and holds the
    saturated tap sums. *)
Lemma convolution_value (W H : Z) (src : buffer) (k : kernel3) :
  2 <= W → 2 <= H → Z.of_nat (length src) = W * H → Forall pixel_wf src →
  kernel_ok k = true →
  ∃ out, convolution W H src k = Some out
    ∧ length out = length src
    ∧ ∀ y x, 0 <= y < H → 0 <= x < W →
        out !! Z.to_nat (y * W + x) = Some (convolved_pixel W H src k y x).
Proof.
  intros HW HH Hlen Hwf Hk. unfold convolution.
  rewrite convolve_threader_schedule.
  assert (Forall (in_grid W H) (worker_cells W (ThreadInfo 0 H))) as Hgrid.
  { apply Forall_forall. intros c. apply elem_of_all_cells. }
  assert (Z.of_nat (length (replicate (Z.to_nat (W * H)) black)) = W * H)
    as Hlen0 by (rewrite length_replicate; lia).
  destruct (run_schedule W H src k _ _) as [out|] eqn:Hrun.
  - exists out. split; [done|].
    apply run_schedule_Some in Hrun as [Hl Hlook]; [|done..].
    split; [lia|]. intros y x Hy Hx.
    pose proof (Hlook (y, x) (conj Hy Hx)) as Hyx. cbn [fst snd] in Hyx.
    rewrite Hyx.
    rewrite decide_True by (by apply elem_of_all_cells).
    by apply convolve_pixel_value.
  - apply run_schedule_None in Hrun as (c & Hc & Hnone); [|done..].
    apply elem_of_all_cells in Hc as [Hy Hx].
    rewrite (convolve_pixel_value W H src k) in Hnone; done.
Qed.

(** C1, counterexample. The code converts every tap to [int] before it
    adds it, and does not truncate the completed sum. On a 2x2 image with all
    channels 8 and the Gaussian kernel, whose weights .0625, .125 and .25 are
    exact doubles, the taps of a pixel are four times [(int)0.5 = 0], four
    times 1 and once 2: the code stores 6, the sum of the products is 8. *)
Lemma convolve_sum_counterexample :
  (convolution 2 2 grey8 GAUSSIAN_BLUR_KERNEL ≫= (.!! 0%nat))
  = Some (Pixel 6 6 6)
  ∧ stated_channel red 2 2 grey8 GAUSSIAN_BLUR_KERNEL 0 0 = 8
  ∧ stated_channel green 2 2 grey8 GAUSSIAN_BLUR_KERNEL 0 0 = 8
  ∧ stated_channel blue 2 2 grey8 GAUSSIAN_BLUR_KERNEL 0 0 = 8
  ∧ (convolution 2 2 grey8 GAUSSIAN_BLUR_KERNEL ≫= (.!! 0%nat))
    ≠ Some {| blue := stated_channel blue 2 2 grey8 GAUSSIAN_BLUR_KERNEL 0 0;
              green := stated_channel green 2 2 grey8 GAUSSIAN_BLUR_KERNEL 0 0;
              red := stated_channel red 2 2 grey8 GAUSSIAN_BLUR_KERNEL 0 0 |}.
Proof. vm_compute. repeat (split; [done|]). discriminate. Qed.

(** C1, as the code has it. For every well-formed source grid with [W, H >= 2] and every
    kernel whose taps stay inside [int] ([kernel_ok]; the allocation
    succeeding), [convolve] returns a new grid in which each channel of the
    pixel [(x, y)] is the sum over [dx, dy] in {-1, 0, 1} of
    [source[reflect (y+dy), reflect (x+dx)] * kernel[1-dy][dx+1]], each
    product truncated toward zero to an integer before it is added, and the
    integer sum saturated to [0, 255]. *)
Theorem convolve_pixel_formula (info : image_info) (k : kernel3) (w : world)
    (src garbage : buffer) (rest : list (option buffer)) :
  image_in info src w → 2 <= width info → 2 <= height info →
  kernel_ok k = true → answers w = Some garbage :: rest →
  ∃ out,
    convolve info k w
    = Ok (fresh (dom (mem w)))
         {| mem := <[fresh (dom (mem w)) := out]> (mem w);
            answers := rest;
            created := created w ++ bands NUM_THREADS (height info) |}
    ∧ Z.of_nat (length out) = width info * height info
    ∧ ∀ y x, 0 <= y < height info → 0 <= x < width info →
        out !! Z.to_nat (y * width info + x)
        = Some {| blue := saturate (channel_sum blue (width info)
                                      (height info) src k y x);
                  green := saturate (channel_sum green (width info)
                                       (height info) src k y x);
                  red := saturate (channel_sum red (width info)
                                     (height info) src k y x) |}.
Proof.
  intros (Hmem & Hlen & Hmax & Hwf) HW HH Hk Hans.
  destruct (convolution_value (width info) (height info) src k)
    as (out & Hout & Hl & Hlook); [done..|].
  exists out. split; [|split; [lia|done]].
  unfold convolve. erewrite convolve_n_success; [|unfold NUM_THREADS; lia|lia|nia|done..].
  by rewrite Hout.
Qed.

(** The same at the program level: [convolve] stores 6 in every channel of
    the first pixel. *)
Example convolve_sum_counterexample_program :
  match convolve (ImageInfo 2 2 1%positive) GAUSSIAN_BLUR_KERNEL
          kernel_sample_world with
  | Ok p w' => (mem w' !! p) ≫= (.!! 0%nat) = Some (Pixel 6 6 6)
  | _ => False
  end.
Proof. vm_compute. done. Qed.

Lemma gaussian_kernel_ok : kernel_ok GAUSSIAN_BLUR_KERNEL = true.
Proof. vm_compute. done. Qed.

Lemma convolve_pixel_formula_witness :
  image_in sample_image sample_buffer sample_world
  ∧ 2 <= width sample_image ∧ 2 <= height sample_image
  ∧ kernel_ok GAUSSIAN_BLUR_KERNEL = true
  ∧ answers sample_world = Some [] :: repeat (Some []) 7
  ∧ ∃ out,
    convolve sample_image GAUSSIAN_BLUR_KERNEL sample_world
    = Ok (fresh (dom (mem sample_world)))
         {| mem := <[fresh (dom (mem sample_world)) := out]> (mem sample_world);
            answers := repeat (Some []) 7;
            created := created sample_world
                       ++ bands NUM_THREADS (height sample_image) |}
    ∧ Z.of_nat (length out) = width sample_image * height sample_image
    ∧ ∀ y x, 0 <= y < height sample_image → 0 <= x < width sample_image →
        out !! Z.to_nat (y * width sample_image + x)
        = Some {| blue := saturate (channel_sum blue (width sample_image)
                                      (height sample_image) sample_buffer
                                      GAUSSIAN_BLUR_KERNEL y x);
                  green := saturate (channel_sum green (width sample_image)
                                       (height sample_image) sample_buffer
                                       GAUSSIAN_BLUR_KERNEL y x);
                  red := saturate (channel_sum red (width sample_image)
                                     (height sample_image) sample_buffer
                                     GAUSSIAN_BLUR_KERNEL y x) |}.
Proof.
  split; [exact sample_image_in|].
  split; [simpl; lia|]. split; [simpl; lia|].
  split; [exact gaussian_kernel_ok|]. split; [reflexivity|].
  apply (convolve_pixel_formula sample_image GAUSSIAN_BLUR_KERNEL sample_world
           sample_buffer [] (repeat (Some []) 7) sample_image_in).
  - simpl; lia.
  - simpl; lia.
  - exact gaussian_kernel_ok.
  - reflexivity.
Defined.

(** ** Degenerate grids: a single row or a single column *)

(** With one row or one column the reflection of the first neighbour leaves
    the grid: the pixel (0, 0) reads outside the source. *)
Lemma convolve_pixel_degenerate (W H : Z) (src : buffer) (k : kernel3) :
  1 <= W → 1 <= H → W = 1 ∨ H = 1 →
  convolve_pixel W H src k 0 0 = None.
Proof.
  intros HW HH Hone. unfold convolve_pixel, for_range.
  change (seqZ (0 - radius) (0 + radius + 1 - (0 - radius))) with [-1; 0; 1].
  assert (for_each
            (λ a yy, for_each (tap_step W H src k 0 0 yy) [-1; 0; 1] a)
            [-1; 0; 1] (Rgb 0 0 0) = None) as ->; [|done].
  destruct (decide (H = 1)) as [->|HH1].
  - apply (for_each_undefined _ _ (-1)); [by left|]. intros a.
    apply (for_each_undefined _ _ (-1)); [by left|]. intros a'.
    unfold tap_step, load2, row_index. done.
  - assert (W = 1) as -> by tauto.
    apply (for_each_undefined _ _ 0); [right; by left|]. intros a.
    apply (for_each_undefined _ _ (-1)); [by left|]. intros a'.
    unfold tap_step, load2, row_index.
    change (reflect 1 (-1)) with (-1).
    assert (reflect H 0 = 0) as ->.
    { unfold reflect. simpl. destruct (Z.geb_spec 0 H); [lia|done]. }
    destruct (Z.ltb_spec 0 H); [|lia]. done.
Qed.

Lemma convolution_degenerate (W H : Z) (src : buffer) (k : kernel3) :
  1 <= W → 1 <= H → W = 1 ∨ H = 1 → convolution W H src k = None.
Proof.
  intros HW HH Hone. unfold convolution. rewrite convolve_threader_schedule.
  apply run_schedule_None.
  - apply Forall_forall. intros c. apply elem_of_all_cells.
  - rewrite length_replicate. nia.
  - exists (0, 0). split.
    + apply elem_of_all_cells. unfold in_grid. simpl. lia.
    + by apply convolve_pixel_degenerate.
Qed.

Lemma convolve_degenerate (info : image_info) (k : kernel3) (w : world)
    (src garbage : buffer) (rest : list (option buffer)) :
  1 <= width info → 1 <= height info → width info = 1 ∨ height info = 1 →
  width info * height info <= INT_MAX →
  mem w !! pixel_data info = Some src → answers w = Some garbage :: rest →
  convolve info k w = Undefined.
Proof.
  intros HW HH Hone Hmax Hsrc Hans. unfold convolve.
  erewrite convolve_n_success; [|unfold NUM_THREADS; lia|lia|nia|done..].
  by rewrite convolution_degenerate.
Qed.

(** ** The identity kernel *)

Lemma identity_taps (m_y m_x c : Z) :
  0 <= m_y <= 2 → 0 <= m_x <= 2 → uint8 c →
  tap_value c (weight_at IDENTITY_KERNEL m_y m_x)
  = if (m_y =? 1) && (m_x =? 1) then c else 0.
Proof.
  intros Hy Hx Hc.
  assert (identity_taps_check = true) as Hcheck by (vm_compute; done).
  unfold identity_taps_check in Hcheck.
  assert (∀ m, 0 <= m <= 2 → In m [0; 1; 2]) as Hin.
  { intros m Hm. apply list_elem_of_In.
    rewrite !elem_of_cons. lia. }
  apply forallb_forall with (x := m_y) in Hcheck; [|by apply Hin].
  apply forallb_forall with (x := m_x) in Hcheck; [|by apply Hin].
  apply forallb_forall with (x := c) in Hcheck; [by apply Z.eqb_eq|].
  apply list_elem_of_In, elem_of_seqZ. unfold uint8 in Hc. lia.
Qed.

Lemma identity_kernel_ok : kernel_ok IDENTITY_KERNEL = true.
Proof. vm_compute. done. Qed.

Lemma reflect_inside (N c : Z) : 0 <= c < N → reflect N c = c.
Proof.
  intros Hc. unfold reflect. destruct (Z.ltb_spec c 0); [lia|].
  destruct (Z.geb_spec c N); lia.
Qed.

Lemma identity_channel_sum (ch : pixel_info → Z) (W H : Z) (src : buffer)
    (y x : Z) :
  (∀ p, pixel_wf p → uint8 (ch p)) →
  2 <= W → 2 <= H → Z.of_nat (length src) = W * H → Forall pixel_wf src →
  0 <= y < H → 0 <= x < W →
  channel_sum ch W H src IDENTITY_KERNEL y x = ch (source_at W src y x).
Proof.
  intros Hch HW HH Hlen Hwf Hy Hx.
  assert (∀ d, near d →
            tap_at ch W H src IDENTITY_KERNEL y x d
            = if (1 - d.1 =? 1) && (d.2 + 1 =? 1)
              then ch (source_at W src (reflect H (y + d.1)) (reflect W (x + d.2)))
              else 0) as Htap.
  { intros d [Hd1 Hd2]. unfold tap_at. apply identity_taps; [lia..|].
    destruct (load2_in_grid W H src (reflect H (y + d.1)) (reflect W (x + d.2)))
      as (p & _ & -> & Hp); [done|apply reflect_in_range; lia..|].
    apply Hch. rewrite Forall_forall in Hwf. by apply Hwf. }
  unfold channel_sum, neighbourhood.
  cbn [mbind list_bind app fmap list_fmap mret list_ret].
  rewrite !Htap by (unfold near; simpl; lia).
  cbn [fst snd]. simpl sum_list.
  rewrite !Z.add_0_r, !reflect_inside by lia. done.
Qed.

(** On every well-formed image of at least 2x2 pixels, the convolution with
    the identity kernel is the image itself. *)
Lemma identity_convolution (W H : Z) (src : buffer) :
  2 <= W → 2 <= H → Z.of_nat (length src) = W * H → Forall pixel_wf src →
  convolution W H src IDENTITY_KERNEL = Some src.
Proof.
  intros HW HH Hlen Hwf.
  destruct (convolution_value W H src IDENTITY_KERNEL)
    as (out & -> & Hl & Hlook); [done..|apply identity_kernel_ok|].
  f_equal. apply list_eq. intros i.
  destruct (decide (i < length src)%nat) as [Hi|Hi].
  - destruct (position_cell W H i) as ([y x] & [Hy Hx] & <-); [lia..|].
    cbn [fst snd] in *. rewrite Hlook by done.
    destruct (load2_in_grid W H src y x) as (p & Hload & Hsrc & Hp);
      [done..|].
    unfold convolved_pixel.
    rewrite !identity_channel_sum; try done;
      try (intros q (?&?&?); done).
    rewrite Hsrc. rewrite Forall_forall in Hwf.
    destruct (Hwf p Hp) as (Hb & Hg & Hr). unfold uint8 in *.
    unfold saturate. rewrite !Z.min_r, !Z.max_r by lia.
    unfold load2, row_index in Hload.
    destruct (Z.leb_spec 0 y); [|lia]. destruct (Z.ltb_spec y H); [|lia].
    simpl in Hload. unfold load in Hload.
    destruct (Z.leb_spec 0 (y * W + x)); [|nia].
    rewrite Hload. by destruct p.
  - rewrite !lookup_ge_None_2; [done|lia..].
Qed.

(** X23. On every well-formed image of at least 2x2 pixels, [identity]
    returns and the image it leaves has the pixels of the one it was given. *)
Lemma identity_keeps_image (info : image_info) (w : world)
    (src garbage : buffer) (rest : list (option buffer)) :
  image_in info src w → 2 <= width info → 2 <= height info →
  answers w = Some garbage :: rest →
  ∃ info' w', identity info w = Ok info' w'
    ∧ width info' = width info ∧ height info' = height info
    ∧ mem w' !! pixel_data info' = Some src
    ∧ mem w' !! pixel_data info = None.
Proof.
  intros (Hmem & Hlen & Hmax & Hwf) HW HH Hans.
  unfold identity, replace_by_convolution, bind, convolve.
  erewrite convolve_n_success; [|unfold NUM_THREADS; lia|lia|nia|done..].
  rewrite identity_convolution by done.
  assert (fresh (dom (mem w)) ≠ pixel_data info) as Hfresh.
  { intros Heq. apply (is_fresh (dom (mem w))). rewrite Heq.
    apply elem_of_dom. by eexists. }
  unfold free. cbn [mem]. rewrite lookup_insert_ne, Hmem by done.
  unfold ret. do 2 eexists. split; [done|]. cbn [width height pixel_data mem].
  split; [done|]. split; [done|]. split.
  - rewrite lookup_delete_ne by done. apply lookup_insert_eq.
  - apply lookup_delete_eq.
Qed.

(** C4, defect. At a 1x1 image, [identity] is undefined: the
    convolution reads outside the source (see [convolve_pixel_degenerate]),
    where the specification has the image returned unchanged. On images of
    at least 2x2 pixels the image is returned unchanged
    ([identity_keeps_image]). *)
Theorem identity_1x1_undefined (info : image_info) (w : world)
    (src garbage : buffer) (rest : list (option buffer)) :
  width info = 1 → height info = 1 →
  mem w !! pixel_data info = Some src → answers w = Some garbage :: rest →
  identity info w = Undefined.
Proof.
  intros HW HH Hsrc Hans. unfold identity, replace_by_convolution, bind.
  erewrite convolve_degenerate; [done|lia|lia|by left| |done..].
  rewrite HW, HH. vm_compute. discriminate.
Qed.

Lemma identity_1x1_undefined_witness :
  width one_pixel_image = 1 ∧ height one_pixel_image = 1
  ∧ mem one_pixel_world !! pixel_data one_pixel_image = Some [Pixel 10 20 30]
  ∧ answers one_pixel_world = Some [Pixel 0 0 0] :: []
  ∧ identity one_pixel_image one_pixel_world = Undefined.
Proof.
  repeat (split; [reflexivity|]).
  apply (identity_1x1_undefined one_pixel_image one_pixel_world
           [Pixel 10 20 30] [Pixel 0 0 0] []); reflexivity.
Defined.

(** C5, defect. On a 1x1 grid the reflection does not keep the
    neighbours on the single pixel: the coordinates -1 and 1 of the
    neighbours are both mapped to -1, a read at a row or a column -1 is
    outside the source, and [convolve] is undefined, for every kernel. *)
Theorem convolve_1x1_reads_outside (info : image_info) (k : kernel3)
    (w : world) (src garbage : buffer) (rest : list (option buffer)) :
  width info = 1 → height info = 1 →
  mem w !! pixel_data info = Some src → answers w = Some garbage :: rest →
  reflect 1 (0 - radius) = -1 ∧ reflect 1 (0 + radius) = -1
  ∧ (∀ f, load2 src 1 1 (-1) f = None ∧ load2 src 1 1 0 (-1) = None)
  ∧ convolve info k w = Undefined.
Proof.
  intros HW HH Hsrc Hans. split; [done|]. split; [done|]. split; [done|].
  eapply convolve_degenerate; [lia|lia|by left| |done..].
  rewrite HW, HH. vm_compute. discriminate.
Qed.

Lemma convolve_1x1_reads_outside_witness :
  width one_pixel_image = 1 ∧ height one_pixel_image = 1
  ∧ mem one_pixel_world !! pixel_data one_pixel_image = Some [Pixel 10 20 30]
  ∧ answers one_pixel_world = Some [Pixel 0 0 0] :: []
  ∧ reflect 1 (0 - radius) = -1 ∧ reflect 1 (0 + radius) = -1
  ∧ (∀ f, load2 [Pixel 10 20 30] 1 1 (-1) f = None
          ∧ load2 [Pixel 10 20 30] 1 1 0 (-1) = None)
  ∧ convolve one_pixel_image BOX_BLUR_KERNEL one_pixel_world = Undefined.
Proof.
  repeat (split; [reflexivity|]).
  apply (convolve_1x1_reads_outside one_pixel_image BOX_BLUR_KERNEL
           one_pixel_world [Pixel 10 20 30] [Pixel 0 0 0] []); reflexivity.
Defined.

(** X24. On every well-formed image of at least 2x2 pixels, with a kernel
    that keeps the taps inside [int] and the allocation succeeding,
    [convolve] returns a block that was not live, holding [W * H] pixels,
    and every block that was live, the source among them, is as it was. *)
Lemma convolve_fresh_frame (info : image_info) (k : kernel3) (w : world)
    (src garbage : buffer) (rest : list (option buffer)) :
  image_in info src w → 2 <= width info → 2 <= height info →
  kernel_ok k = true → answers w = Some garbage :: rest →
  ∃ p w' out, convolve info k w = Ok p w'
    ∧ mem w !! p = None
    ∧ mem w' !! p = Some out
    ∧ Z.of_nat (length out) = width info * height info
    ∧ mem w' !! pixel_data info = Some src
    ∧ ∀ q, q ≠ p → mem w' !! q = mem w !! q.
Proof.
  intros (Hmem & Hlen & Hmax & Hwf) HW HH Hk Hans.
  destruct (convolution_value (width info) (height info) src k)
    as (out & Hout & Hl & _); [done..|].
  unfold convolve.
  erewrite convolve_n_success; [|unfold NUM_THREADS; lia|lia|nia|done..].
  rewrite Hout. do 3 eexists. split; [done|]. cbn [mem].
  assert (mem w !! fresh (dom (mem w)) = None) as Hnone.
  { apply not_elem_of_dom. apply is_fresh. }
  split; [done|]. split; [apply lookup_insert_eq|]. split; [lia|]. split.
  - rewrite lookup_insert_ne; [done|]. intros Heq. congruence.
  - intros q Hq. by rewrite lookup_insert_ne.
Qed.

(** C9, defect. On an image with a single row or a single column
    ([W, H >= 1]), [convolve] is undefined: it reads outside the source and
    neither returns a grid nor guarantees anything about the source. On
    images of at least 2x2 pixels the call returns a fresh grid and leaves
    the source as it was ([convolve_fresh_frame]). *)
Theorem convolve_single_line_undefined (info : image_info) (k : kernel3)
    (w : world) (src garbage : buffer) (rest : list (option buffer)) :
  image_in info src w → 1 <= width info → 1 <= height info →
  width info = 1 ∨ height info = 1 →
  answers w = Some garbage :: rest →
  convolve info k w = Undefined.
Proof.
  intros (Hmem & Hlen & Hmax & Hwf) HW HH Hone Hans.
  by eapply convolve_degenerate.
Qed.

Lemma one_pixel_image_in :
  image_in one_pixel_image [Pixel 10 20 30] one_pixel_world.
Proof.
  repeat split; try done.
  apply Forall_cons. split; [unfold pixel_wf, uint8; simpl; lia|].
  apply Forall_nil_2.
Qed.

Lemma convolve_single_line_undefined_witness :
  image_in one_pixel_image [Pixel 10 20 30] one_pixel_world
  ∧ 1 <= width one_pixel_image ∧ 1 <= height one_pixel_image
  ∧ (width one_pixel_image = 1 ∨ height one_pixel_image = 1)
  ∧ answers one_pixel_world = Some [Pixel 0 0 0] :: []
  ∧ convolve one_pixel_image IDENTITY_KERNEL one_pixel_world = Undefined.
Proof.
  split; [exact one_pixel_image_in|].
  split; [simpl; lia|]. split; [simpl; lia|].
  split; [by left|]. split; [reflexivity|].
  apply (convolve_single_line_undefined one_pixel_image IDENTITY_KERNEL
           one_pixel_world [Pixel 10 20 30] [Pixel 0 0 0] []
           one_pixel_image_in); [simpl; lia|simpl; lia|by left|reflexivity].
Defined.

(** ** Dimensions that are not positive *)

(** C3, counterexample. [convolve] has no check of the dimensions. With
    [W = 0], [H = 1] and an allocator that grants the request of 0 bytes, the
    call creates its 20 workers and returns a block, without any error. *)
Lemma convolve_zero_width_counterexample :
  match convolve empty_image IDENTITY_KERNEL empty_world with
  | Ok p w' => length (created w') = 20%nat ∧ mem w' !! p = Some []
  | Exit _ | Undefined => False
  end.
Proof. vm_compute. done. Qed.

Lemma worker_cells_zero_width (t : thread_info) : worker_cells 0 t = [].
Proof.
  unfold worker_cells. induction (seqZ (start_y t) (end_y t - start_y t));
    [done|]. by rewrite bind_cons.
Qed.

Lemma convolution_zero_width (H : Z) (src : buffer) (k : kernel3) :
  convolution 0 H src k = Some [].
Proof.
  unfold convolution. rewrite convolve_threader_schedule.
  by rewrite worker_cells_zero_width.
Qed.

(** C3, as the code has it. [convolve] does not validate the dimensions and has no
    error for them. Its one rejection is the failed allocation: when the
    allocator answers [NULL], which it always does to the request made for a
    negative [W * H], the call exits with a failure before any worker is
    created and before anything is written. With [W = 0], [H >= 1] and the
    allocation granted, the call creates all [NUM_THREADS] workers, writes no
    pixel and returns an empty grid. *)
Theorem convolve_no_dimension_check (info : image_info) (k : kernel3)
    (w : world) :
  in_int (width info * height info) = true →
  (width info * height info < 0 ∨ head (answers w) = None
   ∨ head (answers w) = Some None →
   ∃ w', convolve info k w = Exit w'
     ∧ mem w' = mem w ∧ created w' = created w)
  ∧ (width info = 0 → 1 <= height info →
     ∀ src garbage rest,
       mem w !! pixel_data info = Some src →
       answers w = Some garbage :: rest →
       convolve info k w
       = Ok (fresh (dom (mem w)))
            {| mem := <[fresh (dom (mem w)) := []]> (mem w);
               answers := rest;
               created := created w ++ bands NUM_THREADS (height info) |}).
Proof.
  intros Hint. split.
  - intros Hfail. unfold convolve, convolve_n, bind, int_mul. rewrite Hint.
    cbn [lift]. unfold malloc_pixels.
    destruct (answers w) as [|[garbage|] rest] eqn:Hans.
    + eexists. split; [done|]. done.
    + destruct (Z.leb_spec
                  ((sizeof_pixel_info
                    * ((width info * height info) `mod` SIZE_MOD))
                     `mod` SIZE_MOD) PTRDIFF_MAX) as [Hbytes|Hbytes].
      * destruct (malloc_size_nonneg _ Hint Hbytes) as [Hpos _].
        destruct Hfail as [?|[?|?]]; [lia|done..].
      * eexists. split; [done|]. done.
    + eexists. split; [done|]. done.
  - intros HW HH src garbage rest Hsrc Hans. unfold convolve.
    erewrite convolve_n_success; [|unfold NUM_THREADS; lia|done| |done..].
    + by rewrite HW, convolution_zero_width.
    + rewrite HW. vm_compute. split; discriminate.
Qed.

Lemma convolve_no_dimension_check_witness :
  in_int (width empty_image * height empty_image) = true
  ∧ (width empty_image * height empty_image < 0
     ∨ head (answers empty_world) = None
     ∨ head (answers empty_world) = Some None →
     ∃ w', convolve empty_image IDENTITY_KERNEL empty_world = Exit w'
       ∧ mem w' = mem empty_world ∧ created w' = created empty_world)
  ∧ (width empty_image = 0 → 1 <= height empty_image →
     ∀ src garbage rest,
       mem empty_world !! pixel_data empty_image = Some src →
       answers empty_world = Some garbage :: rest →
       convolve empty_image IDENTITY_KERNEL empty_world
       = Ok (fresh (dom (mem empty_world)))
            {| mem := <[fresh (dom (mem empty_world)) := []]> (mem empty_world);
               answers := rest;
               created := created empty_world
                          ++ bands NUM_THREADS (height empty_image) |}).
Proof.
  split; [reflexivity|].
  apply (convolve_no_dimension_check empty_image IDENTITY_KERNEL empty_world).
  reflexivity.
Defined.

(** ** The gradient combination of [canny_edge_detection] *)

Lemma MAX_max (a b : Z) : MAX a b = Z.max a b.
Proof. unfold MAX. destruct (Z.gtb_spec a b); lia. Qed.

Lemma canny_pixel_max (t b l r : pixel_info) :
  pixel_wf t → pixel_wf b → pixel_wf l → pixel_wf r →
  canny_pixel t b l r
  = {| blue := Z.max (Z.max (blue t) (blue b)) (Z.max (blue l) (blue r));
       green := Z.max (Z.max (green t) (green b)) (Z.max (green l) (green r));
       red := Z.max (Z.max (red t) (red b)) (Z.max (red l) (red r)) |}.
Proof.
  unfold pixel_wf, uint8, canny_pixel.
  intros (?&?&?) (?&?&?) (?&?&?) (?&?&?).
  rewrite !MAX_max. rewrite !to_uint8_id by (unfold uint8; lia). done.
Qed.

(** The combination loop returns, and writes [canny_pixel] of the four
    directional pixels at every index. *)
Lemma canny_combine_spec (n : nat)
    (sobel_t_pd sobel_b_pd sobel_l_pd sobel_r_pd pixel_data : buffer) :
  length sobel_t_pd = n → length sobel_b_pd = n →
  length sobel_l_pd = n → length sobel_r_pd = n → length pixel_data = n →
  ∃ out,
    canny_combine (Z.of_nat n) sobel_t_pd sobel_b_pd sobel_l_pd sobel_r_pd
      pixel_data = Some out
    ∧ length out = n
    ∧ ∀ i t b l r,
        sobel_t_pd !! i = Some t → sobel_b_pd !! i = Some b →
        sobel_l_pd !! i = Some l → sobel_r_pd !! i = Some r →
        out !! i = Some (canny_pixel t b l r).
Proof.
  intros Lt Lb Ll Lr Lp.
  set (g := λ i : nat, canny_pixel (default black (sobel_t_pd !! i))
                         (default black (sobel_b_pd !! i))
                         (default black (sobel_l_pd !! i))
                         (default black (sobel_r_pd !! i))).
  exists ((g <$> seq 0 n) ++ drop n pixel_data).
  unfold canny_combine, for_range. rewrite Z.sub_0_r. split; [|split].
  - apply for_each_seqZ_store; [lia|]. intros i s Hi _ _.
    rewrite !load_lookup. unfold g.
    destruct (lookup_lt_is_Some_2 sobel_t_pd i) as [t ->]; [lia|].
    destruct (lookup_lt_is_Some_2 sobel_b_pd i) as [b ->]; [lia|].
    destruct (lookup_lt_is_Some_2 sobel_l_pd i) as [l ->]; [lia|].
    destruct (lookup_lt_is_Some_2 sobel_r_pd i) as [r ->]; [lia|].
    done.
  - rewrite length_app, length_fmap, length_seq, length_drop. lia.
  - intros i t b l r Ht Hb Hl Hr.
    assert (i < n)%nat as Hi by (rewrite <- Lt; by eapply lookup_lt_Some).
    rewrite lookup_app_l by (rewrite length_fmap, length_seq; lia).
    rewrite list_lookup_fmap, lookup_seq_lt by done. simpl. unfold g.
    by rewrite Ht, Hb, Hl, Hr.
Qed.

Lemma buffer_wfb_spec (l : buffer) : buffer_wfb l = true → Forall pixel_wf l.
Proof.
  intros Hl. apply Forall_forall. intros p Hp.
  unfold buffer_wfb in Hl. rewrite forallb_forall in Hl. specialize (Hl p).
  rewrite <- list_elem_of_In in Hl. specialize (Hl Hp).
  rewrite !andb_true_iff, !Z.leb_le in Hl. unfold pixel_wf, uint8. lia.
Qed.

(** ** [canny_gradient] at the program level *)

Lemma saturate_uint8 (z : Z) : uint8 (saturate z).
Proof. unfold uint8, saturate. lia. Qed.

(** [convolve] on a well-formed image of at least 2x2 pixels: the call
    returns the reference convolution in a block that was not live. *)
Lemma convolve_returns (info : image_info) (k : kernel3) (w : world)
    (src garbage : buffer) (rest : list (option buffer)) :
  image_in info src w → 2 <= width info → 2 <= height info →
  kernel_ok k = true → answers w = Some garbage :: rest →
  ∃ out, convolution (width info) (height info) src k = Some out
    ∧ length out = length src
    ∧ Forall pixel_wf out
    ∧ convolve info k w
      = Ok (fresh (dom (mem w)))
           {| mem := <[fresh (dom (mem w)) := out]> (mem w);
              answers := rest;
              created := created w ++ bands NUM_THREADS (height info) |}.
Proof.
  intros (Hmem & Hlen & Hmax & Hwf) HW HH Hk Hans.
  destruct (convolution_value (width info) (height info) src k)
    as (out & Hout & Hl & Hlook); [done..|].
  exists out. split; [done|]. split; [done|]. split.
  - apply Forall_lookup. intros i p Hp.
    destruct (position_cell (width info) (height info) i)
      as ([y x] & [Hy Hx] & <-); [apply lookup_lt_Some in Hp; lia|lia|].
    cbn [fst snd] in *. rewrite Hlook in Hp by done. injection Hp as <-.
    unfold convolved_pixel, pixel_wf. cbn [blue green red].
    auto using saturate_uint8.
  - unfold convolve.
    erewrite convolve_n_success; [|unfold NUM_THREADS; lia|lia|nia|done..].
    by rewrite Hout.
Qed.

Lemma image_in_alloc (info : image_info) (src out : buffer) (w : world)
    (a : list (option buffer)) (c : list thread_info) :
  image_in info src w →
  image_in info src {| mem := <[fresh (dom (mem w)) := out]> (mem w);
                       answers := a; created := c |}.
Proof.
  intros (Hmem & Hlen & Hmax & Hwf). repeat split; try done.
  cbn [mem]. rewrite lookup_insert_ne; [done|].
  intros Heq. apply (is_fresh (dom (mem w))). rewrite Heq.
  apply elem_of_dom. by eexists.
Qed.

Lemma sobel_kernels_ok :
  kernel_ok SOBEL_T_KERNEL = true ∧ kernel_ok SOBEL_B_KERNEL = true
  ∧ kernel_ok SOBEL_L_KERNEL = true ∧ kernel_ok SOBEL_R_KERNEL = true.
Proof. vm_compute. done. Qed.

(** Four blocks allocated one after the other and freed again leave the
    heap as it was, apart from the block written in between. *)
Lemma free_four (m : gmap block buffer) (p1 p2 p3 p4 pd : block)
    (t b l r out : buffer) :
  m !! p1 = None → <[p1 := t]> m !! p2 = None →
  <[p2 := b]> (<[p1 := t]> m) !! p3 = None →
  <[p3 := l]> (<[p2 := b]> (<[p1 := t]> m)) !! p4 = None →
  is_Some (m !! pd) →
  delete p4 (delete p3 (delete p2 (delete p1
    (<[pd := out]> (<[p4 := r]> (<[p3 := l]> (<[p2 := b]> (<[p1 := t]> m))))))))
  = <[pd := out]> m.
Proof.
  intros F1 F2 F3 F4 [x Hpd].
  apply lookup_insert_None in F2 as [F2 N2].
  apply lookup_insert_None in F3 as [F3 N3].
  apply lookup_insert_None in F3 as [F3 N3'].
  apply lookup_insert_None in F4 as [F4 N4].
  apply lookup_insert_None in F4 as [F4 N4'].
  apply lookup_insert_None in F4 as [F4 N4''].
  apply map_eq. intros q.
  rewrite !lookup_delete, !lookup_insert.
  repeat case_decide; simplify_eq; try done; congruence.
Qed.

(** On a well-formed image of at least 2x2 pixels, with the four
    allocations granted, [canny_gradient] returns with every pixel of the
    image replaced by the channel-wise maximum of the four directional
    convolutions of the image, and no other block changed. *)
Lemma canny_gradient_channel_max (info : image_info) (w : world)
    (src g1 g2 g3 g4 : buffer) (rest : list (option buffer)) :
  image_in info src w → 2 <= width info → 2 <= height info →
  answers w = Some g1 :: Some g2 :: Some g3 :: Some g4 :: rest →
  ∃ t b l r out,
    convolution (width info) (height info) src SOBEL_T_KERNEL = Some t
    ∧ convolution (width info) (height info) src SOBEL_B_KERNEL = Some b
    ∧ convolution (width info) (height info) src SOBEL_L_KERNEL = Some l
    ∧ convolution (width info) (height info) src SOBEL_R_KERNEL = Some r
    ∧ (∃ w', canny_gradient info w = Ok tt w'
             ∧ mem w' = <[pixel_data info := out]> (mem w)
             ∧ answers w' = rest)
    ∧ length out = length src
    ∧ ∀ i pt pb pl pr,
        t !! i = Some pt → b !! i = Some pb →
        l !! i = Some pl → r !! i = Some pr →
        out !! i
        = Some {| blue := Z.max (Z.max (blue pt) (blue pb))
                                (Z.max (blue pl) (blue pr));
                  green := Z.max (Z.max (green pt) (green pb))
                                 (Z.max (green pl) (green pr));
                  red := Z.max (Z.max (red pt) (red pb))
                               (Z.max (red pl) (red pr)) |}.
Proof.
  intros Himg HW HH Hans.
  destruct sobel_kernels_ok as (Kt & Kb & Kl & Kr).
  destruct (convolve_returns info SOBEL_T_KERNEL w src g1 _ Himg HW HH Kt Hans)
    as (t & Ht & Lt & Wt & Et).
  pose proof (image_in_alloc info src t w
                (Some g2 :: Some g3 :: Some g4 :: rest)
                (created w ++ bands NUM_THREADS (height info)) Himg) as Himg1.
  destruct (convolve_returns info SOBEL_B_KERNEL _ src g2 _ Himg1 HW HH Kb eq_refl)
    as (b & Hb & Lb & Wb & Eb).
  pose proof (image_in_alloc info src b _
                (Some g3 :: Some g4 :: rest)
                ((created w ++ bands NUM_THREADS (height info))
                   ++ bands NUM_THREADS (height info)) Himg1) as Himg2.
  destruct (convolve_returns info SOBEL_L_KERNEL _ src g3 _ Himg2 HW HH Kl eq_refl)
    as (l & Hl & Ll & Wl & El).
  pose proof (image_in_alloc info src l _
                (Some g4 :: rest)
                (((created w ++ bands NUM_THREADS (height info))
                    ++ bands NUM_THREADS (height info))
                   ++ bands NUM_THREADS (height info)) Himg2) as Himg3.
  destruct (convolve_returns info SOBEL_R_KERNEL _ src g4 _ Himg3 HW HH Kr eq_refl)
    as (r & Hr & Lr & Wr & Er).
  cbn [mem answers created] in *.
  destruct (canny_combine_spec (length src) t b l r src)
    as (out & Hout & Lout & Hlook); [done..|].
  exists t, b, l, r, out. do 4 (split; [done|]).
  pose proof (int_mul_size _ _ _ Himg) as Hsize.
  destruct Himg as (Hmem & _ & _ & _).
  set (m := mem w) in *.
  set (p1 := fresh (dom m)) in *.
  set (p2 := fresh (dom (<[p1 := t]> m))) in *.
  set (p3 := fresh (dom (<[p2 := b]> (<[p1 := t]> m)))) in *.
  set (p4 := fresh (dom (<[p3 := l]> (<[p2 := b]> (<[p1 := t]> m))))) in *.
  assert (m !! p1 = None) as F1 by apply not_elem_of_dom, is_fresh.
  assert (<[p1 := t]> m !! p2 = None) as F2 by apply not_elem_of_dom, is_fresh.
  assert (<[p2 := b]> (<[p1 := t]> m) !! p3 = None) as F3
    by apply not_elem_of_dom, is_fresh.
  assert (<[p3 := l]> (<[p2 := b]> (<[p1 := t]> m)) !! p4 = None) as F4
    by apply not_elem_of_dom, is_fresh.
  pose proof (free_four m p1 p2 p3 p4 (pixel_data info) t b l r out
                F1 F2 F3 F4 (mk_is_Some _ _ Hmem)) as Hfree.
  split; [|split; [done|]].
  - exists {| mem := delete p4 (delete p3 (delete p2 (delete p1
                (<[pixel_data info := out]>
                   (<[p4 := r]> (<[p3 := l]> (<[p2 := b]> (<[p1 := t]> m))))))));
              answers := rest;
              created := (((created w ++ bands NUM_THREADS (height info))
                             ++ bands NUM_THREADS (height info))
                            ++ bands NUM_THREADS (height info))
                           ++ bands NUM_THREADS (height info) |}.
    split; [|split; [exact Hfree|reflexivity]].
    unfold canny_gradient, bind. rewrite Et, Eb, El, Er, Hsize.
    cbn [lift]. unfold deref. cbn [mem].
    apply lookup_insert_None in F2 as [F2 N2].
    apply lookup_insert_None in F3 as [F3 N3].
    apply lookup_insert_None in F3 as [F3 N3'].
    apply lookup_insert_None in F4 as [F4 N4].
    apply lookup_insert_None in F4 as [F4 N4'].
    apply lookup_insert_None in F4 as [F4 N4''].
    assert (pixel_data info ≠ p1) by congruence.
    assert (pixel_data info ≠ p2) by congruence.
    assert (pixel_data info ≠ p3) by congruence.
    assert (pixel_data info ≠ p4) by congruence.
    repeat first [rewrite lookup_insert_eq | rewrite lookup_insert_ne by done
                 | progress cbn [lift mem]].
    rewrite Hmem. cbn [lift]. rewrite Hout. cbn [lift].
    unfold assign, free. cbn [mem answers created].
    repeat first [rewrite lookup_delete_ne by done | rewrite lookup_insert_eq
                 | rewrite lookup_insert_ne by done
                 | progress cbn [lift mem answers created]].
    reflexivity.
  - intros i pt pb pl pr Hpt Hpb Hpl Hpr.
    rewrite (Hlook i pt pb pl pr) by done. f_equal.
    rewrite Forall_lookup in Wt, Wb, Wl, Wr.
    apply canny_pixel_max; eauto.
Qed.

(** * Further properties of the pointwise transforms *)

(** ** Sequences of pointwise transforms *)

Lemma pointwise_ext (f g : pixel_info → pixel_info) (info : image_info)
    (buf : buffer) (w : world) :
  image_in info buf w → (∀ p, pixel_wf p → f p = g p) →
  pointwise f info w = pointwise g info w.
Proof.
  intros Himg Hfg. rewrite !(pointwise_spec _ _ buf) by done. do 2 f_equal.
  destruct Himg as (_ & _ & _ & Hwf).
  induction Hwf as [|p l Hp _ IH]; [done|].
  rewrite !fmap_cons. by rewrite Hfg, IH.
Qed.

Lemma pointwise_id (f : pixel_info → pixel_info) (info : image_info)
    (buf : buffer) (w : world) :
  image_in info buf w → (∀ p, pixel_wf p → f p = p) →
  pointwise f info w = Ok tt w.
Proof.
  intros Himg Hf. rewrite (pointwise_ext f id info buf) by done.
  rewrite (pointwise_spec _ _ buf) by done. rewrite list_fmap_id.
  destruct Himg as (Hmem & _). by rewrite with_block_same.
Qed.

Lemma pointwise_seq (f g : pixel_info → pixel_info) (info : image_info)
    (buf : buffer) (w : world) :
  image_in info buf w → (∀ p, pixel_wf p → pixel_wf (f p)) →
  (pointwise f info;;; pointwise g info) w = pointwise (g ∘ f) info w.
Proof.
  intros Himg Hf. unfold bind.
  rewrite (pointwise_spec f _ buf) by done.
  rewrite (pointwise_spec g _ (f <$> buf)) by (by apply image_in_pointwise).
  rewrite (pointwise_spec (g ∘ f) _ buf) by done.
  by rewrite with_block_twice, <- list_fmap_compose.
Qed.

Lemma saturate_id (z : Z) : uint8 z → saturate z = z.
Proof. unfold uint8, saturate. lia. Qed.

Lemma clamp_uint8 (z : Z) : to_uint8 (clamp z) = Z.max 0 (Z.min 255 z).
Proof.
  assert (uint8 (Z.max 0 (Z.min 255 z))) as Hu by (unfold uint8; lia).
  rewrite <- (to_uint8_id _ Hu). f_equal. unfold clamp, MAX_COLOR.
  destruct (Z.gtb_spec z 255).
  - change (255 <? 0) with false. cbv iota. lia.
  - destruct (Z.ltb_spec z 0); lia.
Qed.

Lemma average_uint8 (p : pixel_info) : pixel_wf p → uint8 (average p).
Proof.
  intros Hp. rewrite average_wf by done. destruct Hp as (?&?&?).
  unfold uint8 in *. rewrite Z.quot_div_nonneg by lia.
  split; [apply Z.div_pos; lia|].
  apply Z.lt_succ_r, Z.div_lt_upper_bound; lia.
Qed.

Lemma average_grey (a : Z) : uint8 a → average (Pixel a a a) = a.
Proof.
  intros Ha. rewrite average_wf by done. cbn [red green blue].
  unfold uint8 in Ha. rewrite Z.quot_div_nonneg by lia.
  replace (a + a + a) with (a * 3) by lia. apply Z.div_mul. lia.
Qed.

Lemma greyscale_pixel_wf (p : pixel_info) :
  pixel_wf p → pixel_wf (greyscale_pixel p).
Proof.
  intros Hp. pose proof (average_uint8 p Hp).
  unfold greyscale_pixel, pixel_wf. cbn [red green blue]. done.
Qed.

(** X1. On every well-formed image, [greyscale] applied twice is [greyscale]
    applied once: the first pass leaves the three channels of every pixel
    equal to its average [(r+g+b)/3], and the average of three equal
    channels is that value again. *)
Theorem greyscale_idempotent (info : image_info) (buf : buffer) (w : world) :
  image_in info buf w →
  (greyscale info;;; greyscale info) w = greyscale info w
  ∧ ∃ w1, greyscale info w = Ok tt w1
      ∧ ∀ i p, buf !! i = Some p →
          (mem w1 !! pixel_data info) ≫= (.!! i)
          = Some {| blue := (red p + green p + blue p) ÷ 3;
                    green := (red p + green p + blue p) ÷ 3;
                    red := (red p + green p + blue p) ÷ 3 |}.
Proof.
  intros Himg. split.
  - unfold greyscale. rewrite (pointwise_seq _ _ _ buf)
      by auto using greyscale_pixel_wf.
    apply (pointwise_ext _ _ _ buf); [done|]. intros p Hp.
    unfold compose, greyscale_pixel at 1. cbn [red green blue].
    change (greyscale_pixel p)
      with (Pixel (average p) (average p) (average p)).
    by rewrite average_grey by (by apply average_uint8).
  - eexists. split; [by apply pointwise_spec|].
    intros i p Hp. cbn [mem with_block]. rewrite lookup_insert_eq.
    cbn [mbind option_bind]. rewrite list_lookup_fmap, Hp.
    unfold greyscale_pixel. cbn [fmap option_fmap option_map].
    destruct Himg as (_ & _ & _ & Hwf). rewrite Forall_lookup in Hwf.
    by rewrite average_wf by eauto.
Qed.

Lemma greyscale_idempotent_witness :
  image_in sample_image sample_buffer sample_world
  ∧ (greyscale sample_image;;; greyscale sample_image) sample_world
    = greyscale sample_image sample_world
  ∧ ∃ w1, greyscale sample_image sample_world = Ok tt w1
      ∧ ∀ i p, sample_buffer !! i = Some p →
          (mem w1 !! pixel_data sample_image) ≫= (.!! i)
          = Some {| blue := (red p + green p + blue p) ÷ 3;
                    green := (red p + green p + blue p) ÷ 3;
                    red := (red p + green p + blue p) ÷ 3 |}.
Proof.
  split; [exact sample_image_in|].
  exact (greyscale_idempotent _ _ _ sample_image_in).
Defined.

Lemma pointwise_pixels (f : pixel_info → pixel_info) (info : image_info)
    (buf : buffer) (w : world) :
  image_in info buf w →
  pixels_after info (pointwise f info w) = Some (f <$> buf).
Proof.
  intros Himg. rewrite (pointwise_spec _ _ buf) by done.
  cbn [pixels_after mem with_block]. apply lookup_insert_eq.
Qed.

Lemma fmap_wf_ext (f g : pixel_info → pixel_info) (buf : buffer) :
  Forall pixel_wf buf → (∀ p, pixel_wf p → f p = g p) → f <$> buf = g <$> buf.
Proof.
  intros Hwf Hfg. induction Hwf as [|p l Hp _ IH]; [done|].
  rewrite !fmap_cons. by rewrite Hfg, IH.
Qed.

Lemma pointwise_seq_pixels (f g h : pixel_info → pixel_info)
    (info : image_info) (buf : buffer) (w : world) :
  image_in info buf w → (∀ p, pixel_wf p → pixel_wf (f p)) →
  (∀ p, pixel_wf p → g (f p) = h p) →
  pixels_after info ((pointwise f info;;; pointwise g info) w)
  = Some (h <$> buf).
Proof.
  intros Himg Hf Hh. rewrite (pointwise_seq _ _ _ buf) by done.
  rewrite (pointwise_pixels _ _ buf) by done. f_equal.
  destruct Himg as (_ & _ & _ & Hwf). by apply fmap_wf_ext.
Qed.

Lemma brighten_pixel_value (p : pixel_info) :
  brighten_pixel p
  = {| blue := Z.max 0 (Z.min 255 (blue p + 50));
       green := Z.max 0 (Z.min 255 (green p + 50));
       red := Z.max 0 (Z.min 255 (red p + 50)) |}.
Proof. unfold brighten_pixel, BRIGHTEN_WEIGHT. by rewrite !clamp_uint8. Qed.

Lemma darken_pixel_value (p : pixel_info) :
  darken_pixel p
  = {| blue := Z.max 0 (Z.min 255 (blue p - 50));
       green := Z.max 0 (Z.min 255 (green p - 50));
       red := Z.max 0 (Z.min 255 (red p - 50)) |}.
Proof. unfold darken_pixel, DARKEN_WEIGHT. by rewrite !clamp_uint8. Qed.

Lemma brighten_pixel_wf (p : pixel_info) : pixel_wf p → pixel_wf (brighten_pixel p).
Proof.
  intros _. rewrite brighten_pixel_value. unfold pixel_wf, uint8.
  cbn [blue green red]. lia.
Qed.

Lemma darken_pixel_wf (p : pixel_info) : pixel_wf p → pixel_wf (darken_pixel p).
Proof.
  intros _. rewrite darken_pixel_value. unfold pixel_wf, uint8.
  cbn [blue green red]. lia.
Qed.

(** X2. [brighten] followed by [darken] does not restore the image: on
    every well-formed image the two calls return and leave every channel [c]
    at [min c 205]; channels up to 205 are restored, brighter ones are clipped
    to 205 by the saturation of [brighten]. *)
Theorem brighten_then_darken (info : image_info) (buf : buffer) (w : world) :
  image_in info buf w →
  pixels_after info ((brighten info;;; darken info) w)
  = Some ((λ p, {| blue := Z.min (blue p) 205;
                   green := Z.min (green p) 205;
                   red := Z.min (red p) 205 |}) <$> buf).
Proof.
  intros Himg. apply pointwise_seq_pixels; [done|apply brighten_pixel_wf|].
  intros p (?&?&?). rewrite darken_pixel_value, brighten_pixel_value.
  unfold uint8 in *. cbn [blue green red]. f_equal; lia.
Qed.

Lemma brighten_then_darken_witness :
  image_in sample_image sample_buffer sample_world
  ∧ pixels_after sample_image
      ((brighten sample_image;;; darken sample_image) sample_world)
    = Some ((λ p, {| blue := Z.min (blue p) 205;
                     green := Z.min (green p) 205;
                     red := Z.min (red p) 205 |}) <$> sample_buffer).
Proof.
  split; [exact sample_image_in|].
  exact (brighten_then_darken _ _ _ sample_image_in).
Defined.

(** X3. [darken] followed by [brighten] leaves every channel [c] of a
    well-formed image at [max c 50]: channels below 50 are lost to the
    saturation of [darken] at 0. *)
Theorem darken_then_brighten (info : image_info) (buf : buffer) (w : world) :
  image_in info buf w →
  pixels_after info ((darken info;;; brighten info) w)
  = Some ((λ p, {| blue := Z.max (blue p) 50;
                   green := Z.max (green p) 50;
                   red := Z.max (red p) 50 |}) <$> buf).
Proof.
  intros Himg. apply pointwise_seq_pixels; [done|apply darken_pixel_wf|].
  intros p (?&?&?). rewrite darken_pixel_value, brighten_pixel_value.
  unfold uint8 in *. cbn [blue green red]. f_equal; lia.
Qed.

Lemma darken_then_brighten_witness :
  image_in sample_image sample_buffer sample_world
  ∧ pixels_after sample_image
      ((darken sample_image;;; brighten sample_image) sample_world)
    = Some ((λ p, {| blue := Z.max (blue p) 50;
                     green := Z.max (green p) 50;
                     red := Z.max (red p) 50 |}) <$> sample_buffer).
Proof.
  split; [exact sample_image_in|].
  exact (darken_then_brighten _ _ _ sample_image_in).
Defined.

(** X4. [brighten] and [darken] are dual under [invert]: on every
    well-formed image, brightening and then inverting is the same as
    inverting and then darkening. *)
Theorem brighten_invert_is_invert_darken (info : image_info) (buf : buffer)
    (w : world) :
  image_in info buf w →
  (brighten info;;; invert info) w = (invert info;;; darken info) w.
Proof.
  intros Himg. unfold brighten, invert, darken.
  rewrite !(pointwise_seq _ _ _ buf)
    by auto using brighten_pixel_wf, invert_pixel_wf.
  apply (pointwise_ext _ _ _ buf); [done|]. intros p (?&?&?).
  unfold compose. rewrite darken_pixel_value, brighten_pixel_value.
  unfold invert_pixel, MAX_COLOR, uint8 in *. cbn [blue green red].
  rewrite !to_uint8_id by (unfold uint8; lia). f_equal; lia.
Qed.

Lemma brighten_invert_is_invert_darken_witness :
  image_in sample_image sample_buffer sample_world
  ∧ (brighten sample_image;;; invert sample_image) sample_world
    = (invert sample_image;;; darken sample_image) sample_world.
Proof.
  split; [exact sample_image_in|].
  exact (brighten_invert_is_invert_darken _ _ _ sample_image_in).
Defined.

(** ** The two thresholds *)

(** X5. On every well-formed image, [set_bright_to_white] sets the three
    channels of a pixel to 255 when its average [(r+g+b)/3] is strictly
    above [LOW_PASS_THRESHOLD] = 200, and keeps every pixel whose average is
    at most 200, the boundary included. *)
Theorem set_bright_to_white_threshold (info : image_info) (buf : buffer)
    (w : world) :
  image_in info buf w →
  ∃ buf', pixels_after info (set_bright_to_white info w) = Some buf'
    ∧ length buf' = length buf
    ∧ ∀ i p, buf !! i = Some p →
        (LOW_PASS_THRESHOLD < (red p + green p + blue p) ÷ 3 →
           buf' !! i = Some {| blue := 255; green := 255; red := 255 |})
        ∧ ((red p + green p + blue p) ÷ 3 <= LOW_PASS_THRESHOLD →
           buf' !! i = Some p).
Proof.
  intros Himg. exists (set_bright_to_white_pixel <$> buf).
  split; [by apply pointwise_pixels|]. split; [by rewrite length_fmap|].
  intros i p Hp. rewrite list_lookup_fmap, Hp. simpl.
  destruct Himg as (_ & _ & _ & Hwf).
  assert (pixel_wf p) as Hpwf.
  { rewrite Forall_lookup in Hwf. by eapply Hwf. }
  unfold set_bright_to_white_pixel. rewrite average_wf by done.
  destruct (Z.gtb_spec ((red p + green p + blue p) ÷ 3) LOW_PASS_THRESHOLD);
    split; intros; try done; lia.
Qed.

Lemma set_bright_to_white_threshold_witness :
  image_in sample_image sample_buffer sample_world
  ∧ ∃ buf', pixels_after sample_image
              (set_bright_to_white sample_image sample_world) = Some buf'
    ∧ length buf' = length sample_buffer
    ∧ ∀ i p, sample_buffer !! i = Some p →
        (LOW_PASS_THRESHOLD < (red p + green p + blue p) ÷ 3 →
           buf' !! i = Some {| blue := 255; green := 255; red := 255 |})
        ∧ ((red p + green p + blue p) ÷ 3 <= LOW_PASS_THRESHOLD →
           buf' !! i = Some p).
Proof.
  split; [exact sample_image_in|].
  exact (set_bright_to_white_threshold _ _ _ sample_image_in).
Defined.

Lemma set_dim_to_black_pixel_wf (p : pixel_info) :
  pixel_wf p → pixel_wf (set_dim_to_black_pixel p).
Proof.
  intros Hp. unfold set_dim_to_black_pixel.
  destruct (average p <? HIGH_PASS_THRESHOLD); [|done].
  unfold pixel_wf, uint8. cbn [blue green red]. lia.
Qed.

Lemma set_bright_to_white_pixel_wf (p : pixel_info) :
  pixel_wf p → pixel_wf (set_bright_to_white_pixel p).
Proof.
  intros Hp. unfold set_bright_to_white_pixel.
  destruct (average p >? LOW_PASS_THRESHOLD); [|done].
  unfold pixel_wf, uint8, MAX_COLOR. cbn [blue green red]. lia.
Qed.

(** X6. The two thresholds commute: on every well-formed image,
    [set_dim_to_black] followed by [set_bright_to_white] has the outcome of
    the two in the other order. *)
Theorem thresholds_commute (info : image_info) (buf : buffer) (w : world) :
  image_in info buf w →
  (set_dim_to_black info;;; set_bright_to_white info) w
  = (set_bright_to_white info;;; set_dim_to_black info) w.
Proof.
  intros Himg. unfold set_dim_to_black, set_bright_to_white.
  rewrite !(pointwise_seq _ _ _ buf)
    by auto using set_dim_to_black_pixel_wf, set_bright_to_white_pixel_wf.
  apply (pointwise_ext _ _ _ buf); [done|]. intros p Hp.
  pose proof (average_uint8 p Hp) as Ha. unfold uint8 in Ha.
  unfold compose, set_dim_to_black_pixel, set_bright_to_white_pixel,
    HIGH_PASS_THRESHOLD, LOW_PASS_THRESHOLD, MAX_COLOR.
  destruct (Z.ltb_spec (average p) 60) as [Hlt|Hge];
    destruct (Z.gtb_spec (average p) 200) as [Hgt|Hle]; try lia.
  - change (average {| blue := 0; green := 0; red := 0 |}) with 0.
    change (0 >? 200) with false. cbv iota.
    destruct (Z.ltb_spec (average p) 60); [done|lia].
  - change (average {| blue := 255; green := 255; red := 255 |}) with 255.
    change (255 <? 60) with false. cbv iota.
    destruct (Z.gtb_spec (average p) 200); [done|lia].
  - destruct (Z.ltb_spec (average p) 60); [lia|].
    destruct (Z.gtb_spec (average p) 200); [lia|done].
Qed.

Lemma thresholds_commute_witness :
  image_in sample_image sample_buffer sample_world
  ∧ (set_dim_to_black sample_image;;; set_bright_to_white sample_image)
      sample_world
    = (set_bright_to_white sample_image;;; set_dim_to_black sample_image)
        sample_world.
Proof.
  split; [exact sample_image_in|].
  exact (thresholds_commute _ _ _ sample_image_in).
Defined.

(** ** Channel swaps and channel filters *)

Lemma swap_pixel_wf (p : pixel_info) :
  pixel_wf p →
  pixel_wf (swap_r_and_g_pixel p) ∧ pixel_wf (swap_r_and_b_pixel p)
  ∧ pixel_wf (swap_g_and_b_pixel p).
Proof.
  intros (?&?&?).
  unfold pixel_wf, swap_r_and_g_pixel, swap_r_and_b_pixel, swap_g_and_b_pixel.
  cbn [blue green red]. tauto.
Qed.

(** X7. Each of the three channel swaps is its own inverse: on every
    well-formed image, two calls of the same swap return with the world the
    first one started from. *)
Theorem swap_twice_restores (info : image_info) (buf : buffer) (w : world) :
  image_in info buf w →
  (swap_r_and_g info;;; swap_r_and_g info) w = Ok tt w
  ∧ (swap_r_and_b info;;; swap_r_and_b info) w = Ok tt w
  ∧ (swap_g_and_b info;;; swap_g_and_b info) w = Ok tt w.
Proof.
  intros Himg. unfold swap_r_and_g, swap_r_and_b, swap_g_and_b.
  rewrite !(pointwise_seq _ _ _ buf)
    by first [done | intros p Hp; by apply swap_pixel_wf].
  repeat split; apply (pointwise_id _ _ buf); try done; by intros [b g r] _.
Qed.

Lemma swap_twice_restores_witness :
  image_in sample_image sample_buffer sample_world
  ∧ (swap_r_and_g sample_image;;; swap_r_and_g sample_image) sample_world
    = Ok tt sample_world
  ∧ (swap_r_and_b sample_image;;; swap_r_and_b sample_image) sample_world
    = Ok tt sample_world
  ∧ (swap_g_and_b sample_image;;; swap_g_and_b sample_image) sample_world
    = Ok tt sample_world.
Proof.
  split; [exact sample_image_in|].
  exact (swap_twice_restores _ _ _ sample_image_in).
Defined.

Lemma pointwise_seq3 (f g h : pixel_info → pixel_info) (info : image_info)
    (buf : buffer) (w : world) :
  image_in info buf w → (∀ p, pixel_wf p → pixel_wf (f p)) →
  (∀ p, pixel_wf p → pixel_wf (g p)) →
  (pointwise f info;;; pointwise g info;;; pointwise h info) w
  = pointwise (h ∘ g ∘ f) info w.
Proof.
  intros Himg Hf Hg. unfold bind at 1.
  rewrite (pointwise_spec f _ buf) by done.
  rewrite (pointwise_seq g h _ (f <$> buf)) by (by try apply image_in_pointwise).
  rewrite (pointwise_spec (h ∘ g) _ (f <$> buf)) by (by apply image_in_pointwise).
  rewrite (pointwise_spec (h ∘ g ∘ f) _ buf) by done.
  by rewrite with_block_twice, <- list_fmap_compose.
Qed.

(** X8. The swap of red and blue is the swap of red and green, then of green
    and blue, then of red and green again: on every well-formed image the
    three calls have the outcome of the single call [swap_r_and_b]. *)
Theorem swap_r_and_b_by_conjugation (info : image_info) (buf : buffer)
    (w : world) :
  image_in info buf w →
  (swap_r_and_g info;;; swap_g_and_b info;;; swap_r_and_g info) w
  = swap_r_and_b info w.
Proof.
  intros Himg. unfold swap_r_and_g, swap_g_and_b, swap_r_and_b.
  rewrite (pointwise_seq3 _ _ _ _ buf)
    by first [done | intros p Hp; by apply swap_pixel_wf].
  apply (pointwise_ext _ _ _ buf); [done|]. by intros [b g r] _.
Qed.

Lemma swap_r_and_b_by_conjugation_witness :
  image_in sample_image sample_buffer sample_world
  ∧ (swap_r_and_g sample_image;;; swap_g_and_b sample_image;;;
     swap_r_and_g sample_image) sample_world
    = swap_r_and_b sample_image sample_world.
Proof.
  split; [exact sample_image_in|].
  exact (swap_r_and_b_by_conjugation _ _ _ sample_image_in).
Defined.

Lemma only_pixel_wf (p : pixel_info) :
  pixel_wf p →
  pixel_wf (red_only_pixel p) ∧ pixel_wf (green_only_pixel p)
  ∧ pixel_wf (blue_only_pixel p).
Proof.
  intros (?&?&?).
  unfold pixel_wf, uint8, red_only_pixel, green_only_pixel, blue_only_pixel
    in *.
  cbn [blue green red]. lia.
Qed.

(** X9. A channel filter keeps its channel and nothing else: on every
    well-formed image [red_only] returns and leaves of every pixel the red
    channel as it was and the two others at 0, and likewise [green_only] and
    [blue_only] for their channel. So [red_only] applied twice is [red_only]
    applied once, and [red_only] followed by [green_only] or by [blue_only]
    leaves every pixel black. *)
Theorem red_only_compositions (info : image_info) (buf : buffer) (w : world) :
  image_in info buf w →
  pixels_after info (red_only info w)
  = Some ((λ p, {| blue := 0; green := 0; red := red p |}) <$> buf)
  ∧ pixels_after info (green_only info w)
    = Some ((λ p, {| blue := 0; green := green p; red := 0 |}) <$> buf)
  ∧ pixels_after info (blue_only info w)
    = Some ((λ p, {| blue := blue p; green := 0; red := 0 |}) <$> buf)
  ∧ (red_only info;;; red_only info) w = red_only info w
  ∧ pixels_after info ((red_only info;;; green_only info) w)
    = Some (replicate (length buf) black)
  ∧ pixels_after info ((red_only info;;; blue_only info) w)
    = Some (replicate (length buf) black).
Proof.
  intros Himg. unfold red_only, green_only, blue_only.
  assert ((λ _ : pixel_info, black) <$> buf = replicate (length buf) black)
    as <-.
  { clear. induction buf as [|p l IH]; [done|]. rewrite fmap_cons. simpl.
    by rewrite IH. }
  split; [by apply pointwise_pixels|].
  split; [by apply pointwise_pixels|].
  split; [by apply pointwise_pixels|].
  split; [|split].
  - rewrite (pointwise_seq _ _ _ buf)
      by first [done | intros p Hp; by apply only_pixel_wf].
    by apply (pointwise_ext _ _ _ buf).
  - apply pointwise_seq_pixels; [done|intros p Hp; by apply only_pixel_wf|done].
  - apply pointwise_seq_pixels; [done|intros p Hp; by apply only_pixel_wf|done].
Qed.

Lemma red_only_compositions_witness :
  image_in sample_image sample_buffer sample_world
  ∧ pixels_after sample_image (red_only sample_image sample_world)
    = Some ((λ p, {| blue := 0; green := 0; red := red p |}) <$> sample_buffer)
  ∧ pixels_after sample_image (green_only sample_image sample_world)
    = Some ((λ p, {| blue := 0; green := green p; red := 0 |})
              <$> sample_buffer)
  ∧ pixels_after sample_image (blue_only sample_image sample_world)
    = Some ((λ p, {| blue := blue p; green := 0; red := 0 |}) <$> sample_buffer)
  ∧ (red_only sample_image;;; red_only sample_image) sample_world
    = red_only sample_image sample_world
  ∧ pixels_after sample_image
      ((red_only sample_image;;; green_only sample_image) sample_world)
    = Some (replicate (length sample_buffer) black)
  ∧ pixels_after sample_image
      ((red_only sample_image;;; blue_only sample_image) sample_world)
    = Some (replicate (length sample_buffer) black).
Proof.
  split; [exact sample_image_in|].
  exact (red_only_compositions _ _ _ sample_image_in).
Defined.

(** ** [saturate] and [desaturate] *)

Lemma weighted_distance_half (c a : Z) :
  uint8 c → uint8 a → weighted_distance Float.half c a = Some ((c - a) ÷ 2).
Proof.
  unfold uint8. intros Hc Ha.
  assert (half_distance_check = true) as Hcheck by (vm_compute; done).
  unfold half_distance_check in Hcheck.
  apply forallb_forall with (x := c - a) in Hcheck.
  2:{ apply list_elem_of_In, elem_of_seqZ. lia. }
  unfold weighted_distance in *. rewrite Z.sub_0_r in Hcheck.
  destruct (Float.to_int _) as [t|]; [|done].
  apply Z.eqb_eq in Hcheck. by subst.
Qed.

Lemma pointwise_loop_partial_spec (f : pixel_info → option pixel_info)
    (g : pixel_info → pixel_info) (buf : buffer) :
  Forall (λ p, f p = Some (g p)) buf →
  pointwise_loop_partial f (Z.of_nat (length buf)) buf = Some (g <$> buf).
Proof.
  intros Hfg. rewrite <- pointwise_loop_spec.
  unfold pointwise_loop_partial, pointwise_loop, for_range. rewrite Z.sub_0_r.
  rewrite !(for_each_seqZ_store _ (λ i, g (default black (buf !! i))));
    [done|done| |done|].
  - intros i s Hi Hlen Hdrop. rewrite load_lookup.
    assert (s !! i = buf !! i) as ->.
    { rewrite <- (Nat.add_0_r i), <- !lookup_drop. by rewrite Hdrop. }
    by destruct (lookup_lt_is_Some_2 buf i Hi) as [x ->].
  - intros i s Hi Hlen Hdrop. rewrite load_lookup.
    assert (s !! i = buf !! i) as ->.
    { rewrite <- (Nat.add_0_r i), <- !lookup_drop. by rewrite Hdrop. }
    destruct (lookup_lt_is_Some_2 buf i Hi) as [x Hx]. rewrite Hx.
    rewrite Forall_lookup in Hfg. cbn [mbind option_bind].
    by rewrite (Hfg i x Hx).
Qed.

(** A transform with a partial body that is defined on every pixel of the
    image is the transform of the total function it computes. *)
Lemma pointwise_partial_total (f : pixel_info → option pixel_info)
    (g : pixel_info → pixel_info) (info : image_info) (buf : buffer)
    (w : world) :
  image_in info buf w → (∀ p, pixel_wf p → f p = Some (g p)) →
  pointwise_partial f info w = pointwise g info w.
Proof.
  intros Himg Hfg. rewrite (pointwise_spec _ _ buf) by done.
  pose proof (int_mul_size _ _ _ Himg) as Hsize.
  destruct Himg as (Hmem & Hlen & Hmax & Hwf).
  unfold pointwise_partial, bind. rewrite Hsize. simpl.
  destruct (Z.leb_spec (Z.of_nat (length buf)) 0) as [Hz|Hz].
  - destruct buf; [|simpl in Hz; lia]. simpl.
    unfold ret. by rewrite with_block_same.
  - unfold deref. rewrite Hmem. simpl.
    rewrite (pointwise_loop_partial_spec f g).
    + simpl. done.
    + eapply Forall_impl; [done|]. intros p Hp. by apply Hfg.
Qed.

Lemma saturate_pixel_value (p : pixel_info) :
  pixel_wf p → saturate_pixel p = Some (saturated p).
Proof.
  intros Hp. pose proof (average_uint8 p Hp) as Ha.
  pose proof (average_wf p Hp) as Hav. destruct Hp as (Hb & Hg & Hr).
  unfold saturate_pixel, SATURATE_WEIGHT.
  rewrite !weighted_distance_half by done. cbn [mbind option_bind].
  unfold uint8 in *. unfold int_add.
  assert (∀ c, 0 <= c <= 255 →
            in_int (c + (c - average p) ÷ 2) = true) as Hin.
  { intros c Hc. apply in_int_spec. unfold INT_MIN, INT_MAX.
    assert (-255 <= (c - average p) ÷ 2 <= 255); [|lia].
    split; [apply Z.quot_le_lower_bound | apply Z.quot_le_upper_bound]; lia. }
  rewrite !Hin by done. cbn [mbind option_bind].
  rewrite !clamp_uint8. unfold saturated. by rewrite Hav.
Qed.

Lemma desaturate_between (c a : Z) :
  Z.min c a <= c - (c - a) ÷ 2 <= Z.max c a.
Proof.
  destruct (Z_le_gt_dec a c) as [Hle|Hgt].
  - assert (0 <= (c - a) ÷ 2 <= c - a); [|lia].
    split; [apply Z.quot_pos; lia|].
    apply Z.quot_le_upper_bound; lia.
  - assert (c - a <= (c - a) ÷ 2 <= 0); [|lia].
    split; [apply Z.quot_le_lower_bound; lia|].
    rewrite <- (Z.opp_involutive (c - a)), Z.quot_opp_l by lia.
    assert (0 <= (- (c - a)) ÷ 2) by (apply Z.quot_pos; lia). lia.
Qed.

Lemma desaturate_pixel_value (p : pixel_info) :
  pixel_wf p → desaturate_pixel p = Some (desaturated p).
Proof.
  intros Hp. pose proof (average_uint8 p Hp) as Ha.
  pose proof (average_wf p Hp) as Hav. destruct Hp as (Hb & Hg & Hr).
  unfold desaturate_pixel, DESATURATE_WEIGHT.
  rewrite !weighted_distance_half by done. cbn [mbind option_bind].
  unfold uint8 in *. unfold int_sub.
  assert (∀ c, 0 <= c <= 255 →
            in_int (c - (c - average p) ÷ 2) = true
            ∧ to_uint8 (clamp (c - (c - average p) ÷ 2))
              = c - (c - average p) ÷ 2) as Hin.
  { intros c Hc. pose proof (desaturate_between c (average p)).
    split; [apply in_int_spec; unfold INT_MIN, INT_MAX; lia|].
    rewrite clamp_uint8. lia. }
  destruct (Hin _ Hb) as [-> Eb]. destruct (Hin _ Hg) as [-> Eg].
  destruct (Hin _ Hr) as [-> Er]. cbn [mbind option_bind].
  rewrite Eb, Eg, Er. unfold desaturated. by rewrite Hav.
Qed.

Lemma saturated_wf (p : pixel_info) : pixel_wf (saturated p).
Proof. unfold pixel_wf, uint8, saturated. cbn [blue green red]. lia. Qed.

Lemma desaturated_wf (p : pixel_info) : pixel_wf p → pixel_wf (desaturated p).
Proof.
  intros Hp. pose proof (average_uint8 p Hp) as Ha.
  rewrite (average_wf p Hp) in Ha. destruct Hp as (Hb & Hg & Hr).
  unfold pixel_wf, uint8, desaturated in *. cbn [blue green red].
  pose proof (desaturate_between (blue p) ((red p + green p + blue p) ÷ 3)).
  pose proof (desaturate_between (green p) ((red p + green p + blue p) ÷ 3)).
  pose proof (desaturate_between (red p) ((red p + green p + blue p) ÷ 3)).
  lia.
Qed.

(** X10. On every well-formed image [saturate] returns, and moves every
    channel [c] of a pixel with average [a = (r+g+b)/3] to [c + (c - a)/2],
    the half distance rounded toward zero, saturated to [0, 255]: the
    single-precision product [0.5f * (float)(c - a)] and its conversion to
    [int] are exact for all channel values. *)
Theorem saturate_from_average (info : image_info) (buf : buffer) (w : world) :
  image_in info buf w →
  pixels_after info (Colour.saturate info w)
  = Some ((λ p, let a := (red p + green p + blue p) ÷ 3 in
                {| blue := Z.max 0 (Z.min 255 (blue p + (blue p - a) ÷ 2));
                   green := Z.max 0 (Z.min 255 (green p + (green p - a) ÷ 2));
                   red := Z.max 0 (Z.min 255 (red p + (red p - a) ÷ 2)) |})
            <$> buf).
Proof.
  intros Himg. unfold Colour.saturate.
  rewrite (pointwise_partial_total _ saturated _ buf)
    by auto using saturate_pixel_value.
  by apply pointwise_pixels.
Qed.

Lemma saturate_from_average_witness :
  image_in sample_image sample_buffer sample_world
  ∧ pixels_after sample_image (Colour.saturate sample_image sample_world)
    = Some ((λ p, let a := (red p + green p + blue p) ÷ 3 in
                  {| blue := Z.max 0 (Z.min 255 (blue p + (blue p - a) ÷ 2));
                     green := Z.max 0 (Z.min 255 (green p + (green p - a) ÷ 2));
                     red := Z.max 0 (Z.min 255 (red p + (red p - a) ÷ 2)) |})
              <$> sample_buffer).
Proof.
  split; [exact sample_image_in|].
  exact (saturate_from_average _ _ _ sample_image_in).
Defined.

(** X11. On every well-formed image [desaturate] returns, and moves every
    channel [c] of a pixel with average [a] to [c - (c - a)/2], which lies
    between [c] and [a]: a channel never passes the average and the
    saturation of lines 390-395 never applies. *)
Theorem desaturate_toward_average (info : image_info) (buf : buffer)
    (w : world) :
  image_in info buf w →
  ∃ buf', pixels_after info (Colour.desaturate info w) = Some buf'
    ∧ length buf' = length buf
    ∧ ∀ i p, buf !! i = Some p →
        ∃ q, buf' !! i = Some q
          ∧ let a := (red p + green p + blue p) ÷ 3 in
            blue q = blue p - (blue p - a) ÷ 2
            ∧ green q = green p - (green p - a) ÷ 2
            ∧ red q = red p - (red p - a) ÷ 2
            ∧ Z.min (blue p) a <= blue q <= Z.max (blue p) a
            ∧ Z.min (green p) a <= green q <= Z.max (green p) a
            ∧ Z.min (red p) a <= red q <= Z.max (red p) a.
Proof.
  intros Himg. exists (desaturated <$> buf). split; [|split].
  - unfold Colour.desaturate.
    rewrite (pointwise_partial_total _ desaturated _ buf)
      by auto using desaturate_pixel_value.
    by apply pointwise_pixels.
  - by rewrite length_fmap.
  - intros i p Hp. exists (desaturated p). rewrite list_lookup_fmap, Hp.
    split; [done|]. unfold desaturated. cbn [blue green red].
    repeat split; apply desaturate_between.
Qed.

Lemma desaturate_toward_average_witness :
  image_in sample_image sample_buffer sample_world
  ∧ ∃ buf', pixels_after sample_image
              (Colour.desaturate sample_image sample_world) = Some buf'
    ∧ length buf' = length sample_buffer
    ∧ ∀ i p, sample_buffer !! i = Some p →
        ∃ q, buf' !! i = Some q
          ∧ let a := (red p + green p + blue p) ÷ 3 in
            blue q = blue p - (blue p - a) ÷ 2
            ∧ green q = green p - (green p - a) ÷ 2
            ∧ red q = red p - (red p - a) ÷ 2
            ∧ Z.min (blue p) a <= blue q <= Z.max (blue p) a
            ∧ Z.min (green p) a <= green q <= Z.max (green p) a
            ∧ Z.min (red p) a <= red q <= Z.max (red p) a.
Proof.
  split; [exact sample_image_in|].
  exact (desaturate_toward_average _ _ _ sample_image_in).
Defined.

(** X12. A grey image is a fixed point of [saturate] and of [desaturate]:
    on every well-formed image, [greyscale] followed by either of them has
    the outcome of [greyscale] alone. *)
Theorem greyscale_absorbs_saturation (info : image_info) (buf : buffer)
    (w : world) :
  image_in info buf w →
  (greyscale info;;; Colour.saturate info) w = greyscale info w
  ∧ (greyscale info;;; Colour.desaturate info) w = greyscale info w.
Proof.
  intros Himg.
  pose proof (image_in_pointwise greyscale_pixel info buf w
                greyscale_pixel_wf Himg) as Himg1.
  assert (∀ a, uint8 a → (a + a + a) ÷ 3 = a) as Hthird.
  { intros a Ha. unfold uint8 in Ha. rewrite Z.quot_div_nonneg by lia.
    replace (a + a + a) with (a * 3) by lia. apply Z.div_mul. lia. }
  split.
  - unfold bind, greyscale. rewrite (pointwise_spec _ _ buf) by done.
    unfold Colour.saturate.
    rewrite (pointwise_partial_total _ saturated _ _ _ Himg1)
      by auto using saturate_pixel_value.
    assert ((pointwise greyscale_pixel info;;; pointwise saturated info) w
            = pointwise greyscale_pixel info w) as Hseq.
    { rewrite (pointwise_seq _ _ _ buf) by auto using greyscale_pixel_wf.
      apply (pointwise_ext _ _ _ buf); [done|]. intros p Hp.
      pose proof (average_uint8 p Hp) as Ha.
      unfold compose, greyscale_pixel, saturated. cbn [blue green red].
      rewrite Hthird by done. rewrite Z.sub_diag.
      change (0 ÷ 2) with 0. unfold uint8 in Ha. f_equal; lia. }
    unfold bind in Hseq. by rewrite (pointwise_spec _ _ buf) in Hseq by done.
  - unfold bind, greyscale. rewrite (pointwise_spec _ _ buf) by done.
    unfold Colour.desaturate.
    rewrite (pointwise_partial_total _ desaturated _ _ _ Himg1)
      by auto using desaturate_pixel_value.
    assert ((pointwise greyscale_pixel info;;; pointwise desaturated info) w
            = pointwise greyscale_pixel info w) as Hseq.
    { rewrite (pointwise_seq _ _ _ buf) by auto using greyscale_pixel_wf.
      apply (pointwise_ext _ _ _ buf); [done|]. intros p Hp.
      pose proof (average_uint8 p Hp) as Ha.
      unfold compose, greyscale_pixel, desaturated. cbn [blue green red].
      rewrite Hthird by done. rewrite Z.sub_diag.
      change (0 ÷ 2) with 0. f_equal; lia. }
    unfold bind in Hseq. by rewrite (pointwise_spec _ _ buf) in Hseq by done.
Qed.

Lemma greyscale_absorbs_saturation_witness :
  image_in sample_image sample_buffer sample_world
  ∧ (greyscale sample_image;;; Colour.saturate sample_image) sample_world
    = greyscale sample_image sample_world
  ∧ (greyscale sample_image;;; Colour.desaturate sample_image) sample_world
    = greyscale sample_image sample_world.
Proof.
  split; [exact sample_image_in|].
  exact (greyscale_absorbs_saturation _ _ _ sample_image_in).
Defined.

(** * Further properties of the convolution engine *)

(** ** The bands of the workers *)

Lemma list_bind_assoc {A B C : Type} (f : A → list B) (g : B → list C)
    (l : list A) :
  (l ≫= f) ≫= g = l ≫= (λ x, f x ≫= g).
Proof.
  induction l as [|x l IH]; [done|].
  rewrite !bind_cons, bind_app. by rewrite IH.
Qed.

Lemma band_rows_prefix (q : Z) (m : nat) :
  0 <= q →
  ((λ i, ThreadInfo (q * i) (q * (i + 1))) <$> seqZ 0 (Z.of_nat m))
    ≫= (λ t, seqZ (start_y t) (end_y t - start_y t))
  = seqZ 0 (q * Z.of_nat m).
Proof.
  intros Hq. induction m as [|m IH].
  - rewrite Z.mul_0_r. done.
  - rewrite seqZ_S, fmap_app, bind_app, IH. rewrite Z.add_0_l.
    change ((λ i, ThreadInfo (q * i) (q * (i + 1))) <$> [Z.of_nat m])
      with [ThreadInfo (q * Z.of_nat m) (q * (Z.of_nat m + 1))].
    rewrite bind_singleton. cbn [start_y end_y].
    replace (q * (Z.of_nat m + 1) - q * Z.of_nat m) with q by lia.
    replace (q * Z.of_nat (S m)) with (q * Z.of_nat m + q) by lia.
    rewrite seqZ_app by lia. done.
Qed.

(** The rows of the bands of [n >= 1] workers, in the order of the workers,
    are the rows [0, 1, ..., H - 1]. *)
Lemma band_rows (n H : Z) :
  1 <= n → 0 <= H →
  bands n H ≫= (λ t, seqZ (start_y t) (end_y t - start_y t)) = seqZ 0 H.
Proof.
  intros Hn HH. unfold bands. rewrite Z.quot_div_nonneg by lia.
  set (q := H / n).
  assert (0 <= q) by (apply Z.div_pos; lia).
  assert (q * n <= H) by (rewrite Z.mul_comm; apply Z.mul_div_le; lia).
  rewrite bind_app, bind_singleton. cbn [start_y end_y].
  replace (n - 1) with (Z.of_nat (Z.to_nat (n - 1))) at 1 by lia.
  rewrite band_rows_prefix by done.
  replace (Z.of_nat (Z.to_nat (n - 1))) with (n - 1) by lia.
  transitivity (seqZ 0 (q * (n - 1) + (H - q * (n - 1)))); [|f_equal; lia].
  rewrite seqZ_app by nia. by rewrite Z.add_0_l.
Qed.

Lemma worker_cells_NoDup (W : Z) (t : thread_info) : NoDup (worker_cells W t).
Proof.
  unfold worker_cells. apply NoDup_bind; [| |apply NoDup_seqZ].
  - intros y1 y2 c _ _ H1 H2.
    apply list_elem_of_bind in H1 as (x1 & H1 & _).
    apply list_elem_of_bind in H2 as (x2 & H2 & _).
    apply list_elem_of_singleton in H1, H2. congruence.
  - intros y _. apply NoDup_bind; [| |apply NoDup_seqZ].
    + intros x1 x2 c _ _ H1 H2.
      apply list_elem_of_singleton in H1, H2. congruence.
    + intros x _. apply NoDup_singleton.
Qed.

(** X13. For every number [n >= 1] of workers and every height [H >= 0],
    the cells the workers write, taken worker after worker in the order of
    their creation, are exactly the cells of the image in row-major order:
    every destination pixel is written once, by one worker, and no cell
    outside the image is written. There are exactly [n] workers, and when
    the image has fewer rows than workers only the last worker has any
    row. *)
Theorem bands_write_each_cell_once (W H n : Z) :
  1 <= n → 0 <= H →
  bands n H ≫= worker_cells W = worker_cells W (ThreadInfo 0 H)
  ∧ NoDup (bands n H ≫= worker_cells W)
  ∧ (∀ c, c ∈ bands n H ≫= worker_cells W ↔ 0 <= c.1 < H ∧ 0 <= c.2 < W)
  ∧ length (bands n H) = Z.to_nat n
  ∧ (H < n → ∀ t, t ∈ bands n H → t = ThreadInfo 0 0 ∨ t = ThreadInfo 0 H).
Proof.
  intros Hn HH.
  assert (bands n H ≫= worker_cells W = worker_cells W (ThreadInfo 0 H)) as Heq.
  { unfold worker_cells at 1.
    rewrite <- (list_bind_assoc
                  (λ t, seqZ (start_y t) (end_y t - start_y t))
                  (λ y, x ← seqZ 0 W; [(y, x)])).
    rewrite band_rows by done. unfold worker_cells. cbn [start_y end_y].
    by rewrite Z.sub_0_r. }
  split; [done|]. rewrite Heq. split; [apply worker_cells_NoDup|].
  split; [|split].
  - intros c. rewrite elem_of_worker_cells. cbn [start_y end_y]. done.
  - unfold bands. rewrite length_app, length_fmap, length_seqZ. simpl. lia.
  - intros Hlt t Ht. unfold bands in Ht.
    assert (H ÷ n = 0) as Hq by (apply Z.quot_small; lia).
    rewrite Hq in Ht. apply elem_of_app in Ht as [Ht|Ht].
    + apply list_elem_of_fmap in Ht as (i & -> & _). by left.
    + apply list_elem_of_singleton in Ht as ->. by right.
Qed.

Lemma bands_write_each_cell_once_witness :
  1 <= NUM_THREADS ∧ 0 <= 7
  ∧ bands NUM_THREADS 7 ≫= worker_cells 3 = worker_cells 3 (ThreadInfo 0 7)
  ∧ NoDup (bands NUM_THREADS 7 ≫= worker_cells 3)
  ∧ (∀ c, c ∈ bands NUM_THREADS 7 ≫= worker_cells 3
          ↔ 0 <= c.1 < 7 ∧ 0 <= c.2 < 3)
  ∧ length (bands NUM_THREADS 7) = Z.to_nat NUM_THREADS
  ∧ (7 < NUM_THREADS →
     ∀ t, t ∈ bands NUM_THREADS 7 → t = ThreadInfo 0 0 ∨ t = ThreadInfo 0 7).
Proof.
  split; [unfold NUM_THREADS; lia|]. split; [lia|].
  apply (bands_write_each_cell_once 3 7 NUM_THREADS); [unfold NUM_THREADS|]; lia.
Defined.

(** ** One worker *)

(** X14. A worker writes its own rows and nothing else: on a well-formed
    source of at least 2x2 pixels, with a kernel that keeps the taps inside
    [int], the worker of the band [start_y <= y < end_y] returns for every
    destination of the image size; the pixels of its rows hold the
    saturated tap sums of the source, every other pixel of the destination is
    as it was, whatever it held. *)
Theorem convolve_threader_writes_its_band (W H : Z) (src : buffer)
    (k : kernel3) (t : thread_info) (dst : buffer) :
  2 <= W → 2 <= H → Z.of_nat (length src) = W * H → Forall pixel_wf src →
  kernel_ok k = true →
  0 <= start_y t → end_y t <= H → Z.of_nat (length dst) = W * H →
  ∃ dst', convolve_threader W H src k t dst = Some dst'
    ∧ length dst' = length dst
    ∧ ∀ y x, 0 <= y < H → 0 <= x < W →
        (start_y t <= y < end_y t →
           dst' !! Z.to_nat (y * W + x) = Some (convolved_pixel W H src k y x))
        ∧ (¬ start_y t <= y < end_y t →
           dst' !! Z.to_nat (y * W + x) = dst !! Z.to_nat (y * W + x)).
Proof.
  intros HW HH Hlen Hwf Hk Hs He Hdst.
  rewrite convolve_threader_schedule.
  assert (Forall (in_grid W H) (worker_cells W t)) as Hgrid.
  { apply Forall_forall. intros c Hc. apply elem_of_worker_cells in Hc.
    unfold in_grid. lia. }
  destruct (run_schedule W H src k (worker_cells W t) dst) as [dst'|] eqn:Hrun.
  - exists dst'. split; [done|].
    apply run_schedule_Some in Hrun as [Hl Hlook]; [|done..].
    split; [done|]. intros y x Hy Hx.
    pose proof (Hlook (y, x) (conj Hy Hx)) as Hyx. cbn [fst snd] in Hyx.
    rewrite Hyx. split; intros Hband.
    + rewrite decide_True
        by (apply elem_of_worker_cells; cbn [fst snd]; lia).
      by apply convolve_pixel_value.
    + rewrite decide_False; [done|].
      intros Hin. apply elem_of_worker_cells in Hin. cbn [fst snd] in Hin.
      lia.
  - apply run_schedule_None in Hrun as (c & Hc & Hnone); [|done..].
    rewrite Forall_forall in Hgrid. destruct (Hgrid c Hc) as [Hy Hx].
    rewrite (convolve_pixel_value W H src k) in Hnone; done.
Qed.

Lemma sample_buffer_wf : Forall pixel_wf sample_buffer.
Proof. apply buffer_wfb_spec. reflexivity. Qed.

Lemma convolve_threader_writes_its_band_witness :
  2 <= 3 ∧ 2 <= 2 ∧ Z.of_nat (length sample_buffer) = 3 * 2
  ∧ Forall pixel_wf sample_buffer
  ∧ kernel_ok GAUSSIAN_BLUR_KERNEL = true
  ∧ 0 <= start_y (ThreadInfo 1 2) ∧ end_y (ThreadInfo 1 2) <= 2
  ∧ Z.of_nat (length (replicate 6 black)) = 3 * 2
  ∧ ∃ dst', convolve_threader 3 2 sample_buffer GAUSSIAN_BLUR_KERNEL
              (ThreadInfo 1 2) (replicate 6 black) = Some dst'
    ∧ length dst' = length (replicate 6 black)
    ∧ ∀ y x, 0 <= y < 2 → 0 <= x < 3 →
        (start_y (ThreadInfo 1 2) <= y < end_y (ThreadInfo 1 2) →
           dst' !! Z.to_nat (y * 3 + x)
           = Some (convolved_pixel 3 2 sample_buffer GAUSSIAN_BLUR_KERNEL y x))
        ∧ (¬ start_y (ThreadInfo 1 2) <= y < end_y (ThreadInfo 1 2) →
           dst' !! Z.to_nat (y * 3 + x)
           = replicate 6 black !! Z.to_nat (y * 3 + x)).
Proof.
  split; [lia|]. split; [lia|]. split; [reflexivity|].
  split; [exact sample_buffer_wf|]. split; [exact gaussian_kernel_ok|].
  split; [simpl; lia|]. split; [simpl; lia|]. split; [reflexivity|].
  apply (convolve_threader_writes_its_band 3 2 sample_buffer
           GAUSSIAN_BLUR_KERNEL (ThreadInfo 1 2) (replicate 6 black));
    first [lia | reflexivity | exact sample_buffer_wf
          | exact gaussian_kernel_ok | simpl; lia].
Defined.

(** ** The uninitialised destination *)



(** ** Uniform images *)

Lemma integer_tap (c m : Z) :
  uint8 c → -16 <= m <= 16 → tap c (Double.of_int m) = Some (c * m).
Proof.
  unfold uint8. intros Hc Hm.
  assert (integer_taps_check = true) as Hcheck by (vm_compute; done).
  unfold integer_taps_check in Hcheck.
  apply forallb_forall with (x := m) in Hcheck;
    [|apply list_elem_of_In, elem_of_seqZ; lia].
  apply forallb_forall with (x := c) in Hcheck;
    [|apply list_elem_of_In, elem_of_seqZ; lia].
  destruct (tap c (Double.of_int m)) as [t|]; [|done].
  apply Z.eqb_eq in Hcheck. by subst.
Qed.

Lemma integer_weight_ok (m : Z) :
  -16 <= m <= 16 → weight_ok (Double.of_int m) = true.
Proof.
  intros Hm. unfold weight_ok. apply forallb_forall. intros c Hc.
  apply list_elem_of_In, elem_of_seqZ in Hc.
  rewrite integer_tap by (unfold uint8; lia).
  apply Z.leb_le.
  assert (TAP_MAX = 238609294) as -> by reflexivity. nia.
Qed.

Lemma integer_kernel_ok (a b c d e f g h i : Z) :
  -16 <= a <= 16 → -16 <= b <= 16 → -16 <= c <= 16 →
  -16 <= d <= 16 → -16 <= e <= 16 → -16 <= f <= 16 →
  -16 <= g <= 16 → -16 <= h <= 16 → -16 <= i <= 16 →
  kernel_ok (kernel_of_ints a b c d e f g h i) = true.
Proof.
  intros. unfold kernel_ok, kernel_weights, kernel_of_ints.
  cbn [forallb k0 k1 k2 c0 c1 c2].
  by rewrite !integer_weight_ok.
Qed.

(** In a uniform image every neighbour, reflected or not, is the pixel of
    the image. *)
Lemma uniform_source_at (W H : Z) (p : pixel_info) (n : nat) (y x : Z)
    (d : Z * Z) :
  2 <= W → 2 <= H → Z.of_nat n = W * H →
  0 <= y < H → 0 <= x < W → near d →
  source_at W (replicate n p) (reflect H (y + d.1)) (reflect W (x + d.2)) = p.
Proof.
  intros HW HH Hn Hy Hx [Hd1 Hd2].
  destruct (load2_in_grid W H (replicate n p)
              (reflect H (y + d.1)) (reflect W (x + d.2)))
    as (q & _ & -> & Hq);
    [by rewrite length_replicate|apply reflect_in_range; lia..|].
  by apply elem_of_replicate in Hq as [-> _].
Qed.

Lemma uniform_integer_channel_sum (ch : pixel_info → Z) (W H : Z)
    (p : pixel_info) (n : nat) (a b c d e f g h i : Z) (y x : Z) :
  uint8 (ch p) →
  -16 <= a <= 16 → -16 <= b <= 16 → -16 <= c <= 16 →
  -16 <= d <= 16 → -16 <= e <= 16 → -16 <= f <= 16 →
  -16 <= g <= 16 → -16 <= h <= 16 → -16 <= i <= 16 →
  2 <= W → 2 <= H → Z.of_nat n = W * H → 0 <= y < H → 0 <= x < W →
  channel_sum ch W H (replicate n p) (kernel_of_ints a b c d e f g h i) y x
  = ch p * weight_sum a b c d e f g h i.
Proof.
  intros Hch Ha Hb Hc Hd He Hf Hg Hh Hi HW HH Hn Hy Hx.
  unfold channel_sum, neighbourhood.
  cbn [mbind list_bind app fmap list_fmap mret list_ret].
  unfold tap_at.
  rewrite !(uniform_source_at W H p n y x) by (try done; unfold near; simpl; lia).
  cbn [fst snd].
  change (weight_at (kernel_of_ints a b c d e f g h i) (1 - -1) (-1 + 1))
    with (Double.of_int g).
  change (weight_at (kernel_of_ints a b c d e f g h i) (1 - -1) (0 + 1))
    with (Double.of_int h).
  change (weight_at (kernel_of_ints a b c d e f g h i) (1 - -1) (1 + 1))
    with (Double.of_int i).
  change (weight_at (kernel_of_ints a b c d e f g h i) (1 - 0) (-1 + 1))
    with (Double.of_int d).
  change (weight_at (kernel_of_ints a b c d e f g h i) (1 - 0) (0 + 1))
    with (Double.of_int e).
  change (weight_at (kernel_of_ints a b c d e f g h i) (1 - 0) (1 + 1))
    with (Double.of_int f).
  change (weight_at (kernel_of_ints a b c d e f g h i) (1 - 1) (-1 + 1))
    with (Double.of_int a).
  change (weight_at (kernel_of_ints a b c d e f g h i) (1 - 1) (0 + 1))
    with (Double.of_int b).
  change (weight_at (kernel_of_ints a b c d e f g h i) (1 - 1) (1 + 1))
    with (Double.of_int c).
  unfold tap_value. rewrite !integer_tap by done.
  unfold sum_list, weight_sum. cbn [foldr default from_option id]. lia.
Qed.

Lemma uniform_pixel_wf (info : image_info) (p : pixel_info) (n : nat)
    (w : world) :
  image_in info (replicate n p) w → 2 <= width info → 2 <= height info →
  pixel_wf p ∧ Z.of_nat n = width info * height info.
Proof.
  intros (_ & Hlen & _ & Hwf) HW HH. rewrite length_replicate in Hlen.
  split; [|done]. rewrite Forall_forall in Hwf. apply Hwf.
  apply elem_of_replicate. split; [done|]. nia.
Qed.

(** The convolution of a uniform image with a kernel of small integers. *)
Lemma convolve_uniform_integer (info : image_info) (w : world)
    (p : pixel_info) (n : nat) (a b c d e f g h i : Z) (garbage : buffer)
    (rest : list (option buffer)) :
  image_in info (replicate n p) w → 2 <= width info → 2 <= height info →
  -16 <= a <= 16 → -16 <= b <= 16 → -16 <= c <= 16 →
  -16 <= d <= 16 → -16 <= e <= 16 → -16 <= f <= 16 →
  -16 <= g <= 16 → -16 <= h <= 16 → -16 <= i <= 16 →
  answers w = Some garbage :: rest →
  convolve info (kernel_of_ints a b c d e f g h i) w
  = Ok (fresh (dom (mem w)))
       {| mem := <[fresh (dom (mem w))
                   := replicate n
                        {| blue := saturate (blue p * weight_sum a b c d e f g h i);
                           green := saturate (green p * weight_sum a b c d e f g h i);
                           red := saturate (red p * weight_sum a b c d e f g h i) |}]>
                 (mem w);
          answers := rest;
          created := created w ++ bands NUM_THREADS (height info) |}.
Proof.
  intros Himg HW HH Ha Hb Hc Hd He Hf Hg Hh Hi Hans.
  destruct (uniform_pixel_wf _ _ _ _ Himg HW HH) as [(Hpb & Hpg & Hpr) Hn].
  destruct Himg as (Hmem & Hlen & Hmax & Hwf).
  pose proof (integer_kernel_ok a b c d e f g h i Ha Hb Hc Hd He Hf Hg Hh Hi)
    as Hk.
  destruct (convolution_value (width info) (height info) (replicate n p)
              (kernel_of_ints a b c d e f g h i))
    as (out & Hout & Hl & Hlook); [done..|].
  unfold convolve.
  erewrite convolve_n_success; [|unfold NUM_THREADS; lia|lia|nia|done..].
  rewrite Hout. do 3 f_equal. apply list_eq. intros j.
  rewrite length_replicate in Hl.
  destruct (decide (j < n)%nat) as [Hj|Hj].
  - destruct (position_cell (width info) (height info) j)
      as ([y x] & [Hy Hx] & <-); [lia..|].
    cbn [fst snd] in *. rewrite Hlook by done.
    rewrite lookup_replicate_2 by done. f_equal. unfold convolved_pixel.
    by rewrite !(uniform_integer_channel_sum _ _ _ p n a b c d e f g h i).
  - rewrite !lookup_ge_None_2; [done|rewrite length_replicate; lia|lia].
Qed.

(** X16. A kernel of integer weights between -16 and 16 acts on a uniform
    image by its weight sum: on a well-formed image of at least 2x2 pixels
    whose pixels are all [p], [convolve] returns a uniform image in which
    every channel [c] of [p] has become [c] times the sum of the nine
    weights, saturated to [0, 255]; the border reflection and the
    conversions to [int] lose nothing. *)
Theorem convolve_uniform_integer_kernel (info : image_info) (w : world)
    (p : pixel_info) (n : nat) (a b c d e f g h i : Z) (garbage : buffer)
    (rest : list (option buffer)) :
  image_in info (replicate n p) w → 2 <= width info → 2 <= height info →
  -16 <= a <= 16 → -16 <= b <= 16 → -16 <= c <= 16 →
  -16 <= d <= 16 → -16 <= e <= 16 → -16 <= f <= 16 →
  -16 <= g <= 16 → -16 <= h <= 16 → -16 <= i <= 16 →
  answers w = Some garbage :: rest →
  ∃ q w', convolve info (kernel_of_ints a b c d e f g h i) w = Ok q w'
    ∧ mem w' !! q
      = Some (replicate n
                {| blue := saturate (blue p * (a + b + c + d + e + f + g + h + i));
                   green := saturate (green p * (a + b + c + d + e + f + g + h + i));
                   red := saturate (red p * (a + b + c + d + e + f + g + h + i)) |}).
Proof.
  intros. do 2 eexists. split; [by eapply convolve_uniform_integer|].
  cbn [mem]. apply lookup_insert_eq.
Qed.

Lemma grey8_image_in :
  image_in (ImageInfo 2 2 1%positive) (replicate 4 (Pixel 8 8 8))
    kernel_sample_world.
Proof.
  repeat split; try done. apply buffer_wfb_spec. reflexivity.
Qed.

Lemma convolve_uniform_integer_kernel_witness :
  image_in (ImageInfo 2 2 1%positive) (replicate 4 (Pixel 8 8 8))
    kernel_sample_world
  ∧ 2 <= width (ImageInfo 2 2 1%positive)
  ∧ 2 <= height (ImageInfo 2 2 1%positive)
  ∧ answers kernel_sample_world = Some [] :: []
  ∧ ∃ q w', convolve (ImageInfo 2 2 1%positive)
              (kernel_of_ints 0 (-1) 0 (-1) 5 (-1) 0 (-1) 0)
              kernel_sample_world = Ok q w'
    ∧ mem w' !! q
      = Some (replicate 4
                {| blue := saturate (8 * (0 + -1 + 0 + -1 + 5 + -1 + 0 + -1 + 0));
                   green := saturate (8 * (0 + -1 + 0 + -1 + 5 + -1 + 0 + -1 + 0));
                   red := saturate (8 * (0 + -1 + 0 + -1 + 5 + -1 + 0 + -1 + 0)) |}).
Proof.
  split; [exact grey8_image_in|]. split; [simpl; lia|]. split; [simpl; lia|].
  split; [reflexivity|].
  apply (convolve_uniform_integer_kernel (ImageInfo 2 2 1%positive)
           kernel_sample_world (Pixel 8 8 8) 4 0 (-1) 0 (-1) 5 (-1) 0 (-1) 0
           [] [] grey8_image_in); first [simpl; lia | lia | reflexivity].
Defined.

(** X17. The presets on uniform images: on a well-formed uniform image of
    at least 2x2 pixels, the four Sobel kernels and the edge-detect kernel,
    whose weights sum to 0, give an all-black image, and the identity, the
    sharpen and the emboss kernel, whose weights sum to 1, give the image
    itself. *)
Theorem presets_on_uniform_images (info : image_info) (w : world)
    (p : pixel_info) (n : nat) (garbage : buffer)
    (rest : list (option buffer)) :
  image_in info (replicate n p) w → 2 <= width info → 2 <= height info →
  answers w = Some garbage :: rest →
  (∀ k, k ∈ [SOBEL_T_KERNEL; SOBEL_B_KERNEL; SOBEL_L_KERNEL; SOBEL_R_KERNEL;
             EDGE_DETECT_KERNEL] →
     ∃ q w', convolve info k w = Ok q w'
       ∧ mem w' !! q = Some (replicate n black))
  ∧ (∀ k, k ∈ [IDENTITY_KERNEL; SHARPEN_KERNEL; EMBOSS_KERNEL] →
     ∃ q w', convolve info k w = Ok q w'
       ∧ mem w' !! q = Some (replicate n p)).
Proof.
  intros Himg HW HH Hans.
  destruct (uniform_pixel_wf _ _ _ _ Himg HW HH) as [(Hpb & Hpg & Hpr) _].
  split; intros k Hk; repeat (apply elem_of_cons in Hk as [->|Hk]);
    try (by apply elem_of_nil in Hk);
    do 2 eexists;
    (split; [eapply convolve_uniform_integer; first [done | lia]|]);
    cbn [mem]; rewrite lookup_insert_eq; do 2 f_equal;
    unfold weight_sum; cbn [Z.add Z.opp Pos.add Z.pos_sub Pos.succ Z.double
                              Z.succ_double Z.pred_double Pos.pred_double];
    rewrite ?Z.mul_0_r, ?Z.mul_1_r; try done;
    destruct p as [pb pg pr]; cbn [blue green red] in *;
    by rewrite !saturate_id.
Qed.

Lemma presets_on_uniform_images_witness :
  image_in (ImageInfo 2 2 1%positive) (replicate 4 (Pixel 8 8 8))
    kernel_sample_world
  ∧ 2 <= width (ImageInfo 2 2 1%positive)
  ∧ 2 <= height (ImageInfo 2 2 1%positive)
  ∧ answers kernel_sample_world = Some [] :: []
  ∧ (∀ k, k ∈ [SOBEL_T_KERNEL; SOBEL_B_KERNEL; SOBEL_L_KERNEL; SOBEL_R_KERNEL;
               EDGE_DETECT_KERNEL] →
       ∃ q w', convolve (ImageInfo 2 2 1%positive) k kernel_sample_world
                 = Ok q w'
         ∧ mem w' !! q = Some (replicate 4 black))
  ∧ (∀ k, k ∈ [IDENTITY_KERNEL; SHARPEN_KERNEL; EMBOSS_KERNEL] →
       ∃ q w', convolve (ImageInfo 2 2 1%positive) k kernel_sample_world
                 = Ok q w'
         ∧ mem w' !! q = Some (replicate 4 (Pixel 8 8 8))).
Proof.
  split; [exact grey8_image_in|]. split; [simpl; lia|]. split; [simpl; lia|].
  split; [reflexivity|].
  apply (presets_on_uniform_images (ImageInfo 2 2 1%positive)
           kernel_sample_world (Pixel 8 8 8) 4 [] [] grey8_image_in);
    first [simpl; lia | reflexivity].
Defined.

(** ** The kernel wrappers *)

Lemma replace_by_convolution_returns (K : kernel3) (info : image_info)
    (w : world) (src garbage : buffer) (rest : list (option buffer)) :
  image_in info src w → 2 <= width info → 2 <= height info →
  kernel_ok K = true → answers w = Some garbage :: rest →
  ∃ out, convolution (width info) (height info) src K = Some out
    ∧ length out = length src
    ∧ Forall pixel_wf out
    ∧ replace_by_convolution K info w
      = Ok {| width := width info; height := height info;
              pixel_data := fresh (dom (mem w)) |}
           {| mem := delete (pixel_data info)
                       (<[fresh (dom (mem w)) := out]> (mem w));
              answers := rest;
              created := created w ++ bands NUM_THREADS (height info) |}.
Proof.
  intros Himg HW HH Hk Hans.
  destruct (convolve_returns info K w src garbage rest)
    as (out & Hout & Hl & Hwf & Hconv); [done..|].
  exists out. do 3 (split; [done|]).
  unfold replace_by_convolution, bind. rewrite Hconv.
  destruct Himg as (Hmem & _).
  assert (fresh (dom (mem w)) ≠ pixel_data info) as Hfresh.
  { intros Heq. apply (is_fresh (dom (mem w))). rewrite Heq.
    apply elem_of_dom. by eexists. }
  unfold free. cbn [mem]. rewrite lookup_insert_ne, Hmem by done.
  reflexivity.
Qed.

Lemma image_in_replaced (info : image_info) (src out : buffer) (w : world)
    (a : list (option buffer)) (c : list thread_info) :
  image_in info src w → length out = length src → Forall pixel_wf out →
  image_in {| width := width info; height := height info;
              pixel_data := fresh (dom (mem w)) |} out
           {| mem := delete (pixel_data info)
                       (<[fresh (dom (mem w)) := out]> (mem w));
              answers := a; created := c |}.
Proof.
  intros (Hmem & Hlen & Hmax & _) Hl Hwf.
  assert (fresh (dom (mem w)) ≠ pixel_data info) as Hfresh.
  { intros Heq. apply (is_fresh (dom (mem w))). rewrite Heq.
    apply elem_of_dom. by eexists. }
  repeat split; cbn [width height pixel_data mem]; try done; [|lia].
  rewrite lookup_delete_ne by done. apply lookup_insert_eq.
Qed.

Lemma size_replaced (m : gmap block buffer) (old : block) (out : buffer) :
  is_Some (m !! old) →
  size (delete old (<[fresh (dom m) := out]> m)) = size m.
Proof.
  intros [src Hold].
  assert (m !! fresh (dom m) = None) as Hnone
    by apply not_elem_of_dom, is_fresh.
  assert (fresh (dom m) ≠ old) as Hne by congruence.
  rewrite map_size_delete_Some
    by (rewrite lookup_insert_ne by done; by eexists).
  by rewrite map_size_insert_None.
Qed.

(** X18. A kernel wrapper replaces the image and leaks nothing: on a
    well-formed image of at least 2x2 pixels, with the allocation granted,
    each of [identity], [box_blur], [gaussian_blur], [sharpen] and [emboss]
    returns a well-formed image of the same width and height in a block that
    was not live; the block of the old pixel data has been freed, and the
    number of live blocks is what it was. *)
Theorem kernel_wrappers_replace_the_image (info : image_info) (w : world)
    (src garbage : buffer) (rest : list (option buffer)) :
  image_in info src w → 2 <= width info → 2 <= height info →
  answers w = Some garbage :: rest →
  ∀ f, f ∈ [identity; box_blur; gaussian_blur; sharpen; emboss] →
    ∃ info' out w', f info w = Ok info' w'
      ∧ image_in info' out w'
      ∧ width info' = width info ∧ height info' = height info
      ∧ mem w !! pixel_data info' = None
      ∧ mem w' !! pixel_data info = None
      ∧ size (mem w') = size (mem w)
      ∧ answers w' = rest.
Proof.
  intros Himg HW HH Hans f Hf.
  assert (∃ K, f = replace_by_convolution K ∧ kernel_ok K = true)
    as (K & -> & Hk).
  { repeat (apply elem_of_cons in Hf as [->|Hf]);
      [..|by apply elem_of_nil in Hf]; eexists; (split; [reflexivity|]);
      vm_compute; done. }
  destruct (replace_by_convolution_returns K info w src garbage rest)
    as (out & Hout & Hl & Hwf & Hrun); [done..|].
  do 3 eexists. split; [exact Hrun|].
  split; [by apply (image_in_replaced info src)|].
  cbn [width height pixel_data mem answers].
  split; [done|]. split; [done|].
  split; [apply not_elem_of_dom, is_fresh|].
  split; [apply lookup_delete_eq|]. split; [|done].
  apply size_replaced. destruct Himg as (Hmem & _). by eexists.
Qed.

Lemma kernel_wrappers_replace_the_image_witness :
  image_in sample_image sample_buffer sample_world
  ∧ 2 <= width sample_image ∧ 2 <= height sample_image
  ∧ answers sample_world = Some [] :: repeat (Some []) 7
  ∧ ∀ f, f ∈ [identity; box_blur; gaussian_blur; sharpen; emboss] →
      ∃ info' out w', f sample_image sample_world = Ok info' w'
        ∧ image_in info' out w'
        ∧ width info' = width sample_image
        ∧ height info' = height sample_image
        ∧ mem sample_world !! pixel_data info' = None
        ∧ mem w' !! pixel_data sample_image = None
        ∧ size (mem w') = size (mem sample_world)
        ∧ answers w' = repeat (Some []) 7.
Proof.
  split; [exact sample_image_in|]. split; [simpl; lia|]. split; [simpl; lia|].
  split; [reflexivity|].
  apply (kernel_wrappers_replace_the_image sample_image sample_world
           sample_buffer [] (repeat (Some []) 7) sample_image_in);
    first [simpl; lia | reflexivity].
Defined.

(** ** The Gaussian blur of a uniform image *)

Lemma gaussian_taps (c : Z) :
  uint8 c →
  tap_value c (Double.dyadic 1 (-4)) = c / 16
  ∧ tap_value c (Double.dyadic 1 (-3)) = c / 8
  ∧ tap_value c (Double.dyadic 1 (-2)) = c / 4.
Proof.
  unfold uint8. intros Hc.
  assert (gaussian_taps_check = true) as Hcheck by (vm_compute; done).
  unfold gaussian_taps_check in Hcheck.
  apply forallb_forall with (x := c) in Hcheck;
    [|apply list_elem_of_In, elem_of_seqZ; lia].
  unfold tap_value.
  destruct (tap c (Double.dyadic 1 (-4))) as [t16|]; [|done].
  destruct (tap c (Double.dyadic 1 (-3))) as [t8|]; [|done].
  destruct (tap c (Double.dyadic 1 (-2))) as [t4|]; [|done].
  rewrite !andb_true_iff, !Z.eqb_eq in Hcheck.
  destruct Hcheck as [[-> ->] ->]. done.
Qed.

Lemma gaussian_uniform_channel_sum (ch : pixel_info → Z) (W H : Z)
    (p : pixel_info) (n : nat) (y x : Z) :
  uint8 (ch p) →
  2 <= W → 2 <= H → Z.of_nat n = W * H → 0 <= y < H → 0 <= x < W →
  channel_sum ch W H (replicate n p) GAUSSIAN_BLUR_KERNEL y x
  = blurred_level (ch p).
Proof.
  intros Hch HW HH Hn Hy Hx.
  destruct (gaussian_taps (ch p) Hch) as (T16 & T8 & T4).
  unfold channel_sum, neighbourhood.
  cbn [mbind list_bind app fmap list_fmap mret list_ret].
  unfold tap_at.
  rewrite !(uniform_source_at W H p n y x) by (try done; unfold near; simpl; lia).
  cbn [fst snd].
  change (weight_at GAUSSIAN_BLUR_KERNEL (1 - -1) (-1 + 1))
    with (Double.dyadic 1 (-4)).
  change (weight_at GAUSSIAN_BLUR_KERNEL (1 - -1) (0 + 1))
    with (Double.dyadic 1 (-3)).
  change (weight_at GAUSSIAN_BLUR_KERNEL (1 - -1) (1 + 1))
    with (Double.dyadic 1 (-4)).
  change (weight_at GAUSSIAN_BLUR_KERNEL (1 - 0) (-1 + 1))
    with (Double.dyadic 1 (-3)).
  change (weight_at GAUSSIAN_BLUR_KERNEL (1 - 0) (0 + 1))
    with (Double.dyadic 1 (-2)).
  change (weight_at GAUSSIAN_BLUR_KERNEL (1 - 0) (1 + 1))
    with (Double.dyadic 1 (-3)).
  change (weight_at GAUSSIAN_BLUR_KERNEL (1 - 1) (-1 + 1))
    with (Double.dyadic 1 (-4)).
  change (weight_at GAUSSIAN_BLUR_KERNEL (1 - 1) (0 + 1))
    with (Double.dyadic 1 (-3)).
  change (weight_at GAUSSIAN_BLUR_KERNEL (1 - 1) (1 + 1))
    with (Double.dyadic 1 (-4)).
  rewrite T16, T8, T4. unfold sum_list, blurred_level. cbn [foldr]. lia.
Qed.

Lemma blurred_level_bounds (c : Z) :
  0 <= c → c - 8 <= blurred_level c <= c ∧ (blurred_level c = c ↔ c mod 16 = 0).
Proof.
  intros Hc. unfold blurred_level.
  pose proof (Z.div_mod c 16 ltac:(lia)).
  pose proof (Z.mod_pos_bound c 16 ltac:(lia)).
  set (q := c / 16) in *. set (r := c mod 16) in *.
  assert (c / 8 = 2 * q + r / 8) as ->.
  { replace c with ((2 * q) * 8 + r) by lia.
    rewrite Z.div_add_l by lia. done. }
  assert (c / 4 = 4 * q + r / 4) as ->.
  { replace c with ((4 * q) * 4 + r) by lia.
    rewrite Z.div_add_l by lia. done. }
  assert (0 <= r / 8 <= 1 ∧ 8 * (r / 8) <= r) as [? ?].
  { split; [split; [apply Z.div_pos; lia|]|apply Z.mul_div_le; lia].
    apply Z.lt_succ_r, Z.div_lt_upper_bound; lia. }
  assert (0 <= r / 4 <= 3 ∧ 4 * (r / 4) <= r) as [? ?].
  { split; [split; [apply Z.div_pos; lia|]|apply Z.mul_div_le; lia].
    apply Z.lt_succ_r, Z.div_lt_upper_bound; lia. }
  assert (r < 4 * (r / 4) + 4).
  { pose proof (Z.mul_succ_div_gt r 4 ltac:(lia)). lia. }
  assert (r < 8 * (r / 8) + 8).
  { pose proof (Z.mul_succ_div_gt r 8 ltac:(lia)). lia. }
  split; [lia|]. split; intros; [|assert (r = 0) as Hr by done; rewrite Hr in *];
    lia.
Qed.

(** X19. The Gaussian blur darkens a uniform image: on a well-formed image
    of at least 2x2 pixels whose pixels are all [p], [gaussian_blur] returns
    a uniform image in which every channel [c] of [p] has become
    [4 (c/16) + 4 (c/8) + c/4], each tap having lost its fraction. That
    level is never above [c], at most 8 below it, and equal to [c] exactly
    when [c] is a multiple of 16. *)
Theorem gaussian_blur_darkens_uniform (info : image_info) (w : world)
    (p : pixel_info) (n : nat) (garbage : buffer)
    (rest : list (option buffer)) :
  image_in info (replicate n p) w → 2 <= width info → 2 <= height info →
  answers w = Some garbage :: rest →
  (∃ info' w', gaussian_blur info w = Ok info' w'
     ∧ mem w' !! pixel_data info'
       = Some (replicate n
                 {| blue := 4 * (blue p / 16) + 4 * (blue p / 8) + blue p / 4;
                    green := 4 * (green p / 16) + 4 * (green p / 8) + green p / 4;
                    red := 4 * (red p / 16) + 4 * (red p / 8) + red p / 4 |}))
  ∧ ∀ c, c ∈ [blue p; green p; red p] →
      c - 8 <= 4 * (c / 16) + 4 * (c / 8) + c / 4 <= c
      ∧ (4 * (c / 16) + 4 * (c / 8) + c / 4 = c ↔ c mod 16 = 0).
Proof.
  intros Himg HW HH Hans.
  destruct (uniform_pixel_wf _ _ _ _ Himg HW HH) as [(Hpb & Hpg & Hpr) Hn].
  split.
  - destruct (replace_by_convolution_returns GAUSSIAN_BLUR_KERNEL info w
                (replicate n p) garbage rest)
      as (out & Hout & Hl & Hwf & Hrun); [done..|apply gaussian_kernel_ok|done|].
    do 2 eexists. split; [exact Hrun|]. cbn [pixel_data mem].
    destruct Himg as (Hmem & Hlen & Hmax & Hwfs).
    rewrite lookup_delete_ne, lookup_insert_eq.
    2:{ intros Heq. apply (is_fresh (dom (mem w))). rewrite <- Heq.
        apply elem_of_dom. by eexists. }
    f_equal.
    destruct (convolution_value (width info) (height info) (replicate n p)
                GAUSSIAN_BLUR_KERNEL)
      as (out' & Hout' & _ & Hlook); [done..|apply gaussian_kernel_ok|].
    assert (out' = out) as -> by congruence.
    apply list_eq. intros j. rewrite length_replicate in Hl.
    destruct (decide (j < n)%nat) as [Hj|Hj].
    + destruct (position_cell (width info) (height info) j)
        as ([y x] & [Hy Hx] & <-); [lia..|].
      cbn [fst snd] in *. rewrite Hlook by done.
      rewrite lookup_replicate_2 by done. f_equal. unfold convolved_pixel.
      rewrite !(gaussian_uniform_channel_sum _ _ _ p n) by done.
      unfold blurred_level, uint8 in *.
      pose proof (blurred_level_bounds (blue p) ltac:(lia)) as [? _].
      pose proof (blurred_level_bounds (green p) ltac:(lia)) as [? _].
      pose proof (blurred_level_bounds (red p) ltac:(lia)) as [? _].
      unfold blurred_level in *.
      rewrite !saturate_id; [done|unfold uint8..].
      * assert (0 <= 4 * (red p / 16) + 4 * (red p / 8) + red p / 4); [|lia].
        assert (0 <= red p / 16) by (apply Z.div_pos; lia).
        assert (0 <= red p / 8) by (apply Z.div_pos; lia).
        assert (0 <= red p / 4) by (apply Z.div_pos; lia). lia.
      * assert (0 <= 4 * (green p / 16) + 4 * (green p / 8) + green p / 4); [|lia].
        assert (0 <= green p / 16) by (apply Z.div_pos; lia).
        assert (0 <= green p / 8) by (apply Z.div_pos; lia).
        assert (0 <= green p / 4) by (apply Z.div_pos; lia). lia.
      * assert (0 <= 4 * (blue p / 16) + 4 * (blue p / 8) + blue p / 4); [|lia].
        assert (0 <= blue p / 16) by (apply Z.div_pos; lia).
        assert (0 <= blue p / 8) by (apply Z.div_pos; lia).
        assert (0 <= blue p / 4) by (apply Z.div_pos; lia). lia.
    + rewrite !lookup_ge_None_2; [done|rewrite length_replicate; lia|lia].
  - intros c Hc. apply (blurred_level_bounds c).
    unfold uint8 in *.
    repeat (apply elem_of_cons in Hc as [->|Hc]); [lia..|].
    by apply elem_of_nil in Hc.
Qed.

Lemma gaussian_blur_darkens_uniform_witness :
  image_in (ImageInfo 2 2 1%positive) (replicate 4 (Pixel 8 8 8))
    kernel_sample_world
  ∧ 2 <= width (ImageInfo 2 2 1%positive)
  ∧ 2 <= height (ImageInfo 2 2 1%positive)
  ∧ answers kernel_sample_world = Some [] :: []
  ∧ (∃ info' w', gaussian_blur (ImageInfo 2 2 1%positive) kernel_sample_world
                 = Ok info' w'
       ∧ mem w' !! pixel_data info'
         = Some (replicate 4
                   {| blue := 4 * (8 / 16) + 4 * (8 / 8) + 8 / 4;
                      green := 4 * (8 / 16) + 4 * (8 / 8) + 8 / 4;
                      red := 4 * (8 / 16) + 4 * (8 / 8) + 8 / 4 |}))
  ∧ ∀ c, c ∈ [8; 8; 8] →
      c - 8 <= 4 * (c / 16) + 4 * (c / 8) + c / 4 <= c
      ∧ (4 * (c / 16) + 4 * (c / 8) + c / 4 = c ↔ c mod 16 = 0).
Proof.
  split; [exact grey8_image_in|]. split; [simpl; lia|]. split; [simpl; lia|].
  split; [reflexivity|].
  apply (gaussian_blur_darkens_uniform (ImageInfo 2 2 1%positive)
           kernel_sample_world (Pixel 8 8 8) 4 [] [] grey8_image_in);
    first [simpl; lia | reflexivity].
Defined.

(** * The check of the file header *)

Lemma to_char_uint8 (c h : Z) :
  0 <= c < 128 → uint8 h → (c =? to_char h) = true ↔ h = c.
Proof.
  unfold uint8, to_char. intros Hc Hh. rewrite Z.eqb_eq.
  rewrite Z.mod_small by lia. destruct (Z.ltb_spec h 128); lia.
Qed.

Lemma to_int16_bytes (lo hi : Z) :
  uint8 lo → uint8 hi →
  (to_int16 (lo + 256 * hi) =? BITS_PER_PIXEL) = true ↔ lo = 24 ∧ hi = 0.
Proof.
  unfold uint8, to_int16, BITS_PER_PIXEL. intros Hlo Hhi. rewrite Z.eqb_eq.
  rewrite Z.mod_small by lia. destruct (Z.ltb_spec (lo + 256 * hi) 32768); lia.
Qed.

(** X20. The header check refuses a file whose first two bytes are not the
    codes of B and M before it reads the depth: the program exits, whatever
    the read of line 786 would do. For a header that starts with B and M the
    outcome is that of the read of two bytes through the [uint16_t] lvalue,
    which the C standard leaves undefined: the call is undefined where the
    read is; where the read yields a value, the call returns, with the
    memory as it was, exactly when that value converted to [int16_t] is
    [BITS_PER_PIXEL], and the program exits otherwise. Where the read yields
    the bytes 28 and 29 with the low byte first, the header is accepted
    exactly when they are 24 and 0: a depth such as 24 + 256 is refused, the
    conversion to [int16_t] does not fold it onto 24. *)
Theorem check_file_and_bpp_accepts (read_uint16 : list Z → Z → option Z)
    (header : list Z) (w : world) (h0 h1 : Z) :
  header !! 0%nat = Some h0 → header !! 1%nat = Some h1 →
  uint8 h0 → uint8 h1 →
  (h0 ≠ 66 ∨ h1 ≠ 77 → check_file_and_bpp read_uint16 header w = Exit w)
  ∧ (h0 = 66 → h1 = 77 →
     check_file_and_bpp read_uint16 header w
     = match read_uint16 header 28 with
       | None => Undefined
       | Some v => if to_int16 v =? BITS_PER_PIXEL then Ok tt w else Exit w
       end)
  ∧ (∀ lo hi, h0 = 66 → h1 = 77 → uint8 lo → uint8 hi →
       read_uint16 header 28 = Some (lo + 256 * hi) →
       check_file_and_bpp read_uint16 header w = Ok tt w ↔ lo = 24 ∧ hi = 0).
Proof.
  intros H0 H1 Hu0 Hu1.
  pose proof (to_char_uint8 CHAR_B h0 ltac:(unfold CHAR_B; lia) Hu0) as HB.
  pose proof (to_char_uint8 CHAR_M h1 ltac:(unfold CHAR_M; lia) Hu1) as HM.
  assert (check_file_and_bpp read_uint16 header w
          = if negb (CHAR_B =? to_char h0) then Exit w
            else if negb (CHAR_M =? to_char h1) then Exit w
            else match read_uint16 header 28 with
                 | None => Undefined
                 | Some v =>
                     if to_int16 v =? BITS_PER_PIXEL then Ok tt w else Exit w
                 end) as Hrun.
  { unfold check_file_and_bpp, header_at, bind, lift, exit_failure, ret.
    change (Z.to_nat 0) with 0%nat. change (Z.to_nat 1) with 1%nat.
    change (0 <=? 0) with true. change (0 <=? 1) with true. cbv iota.
    rewrite H0. destruct (negb (CHAR_B =? to_char h0)); [done|].
    rewrite H1. destruct (negb (CHAR_M =? to_char h1)); [done|].
    destruct (read_uint16 header 28) as [v|]; [|done].
    by destruct (to_int16 v =? BITS_PER_PIXEL). }
  unfold CHAR_B, CHAR_M in *. rewrite Hrun. split; [|split].
  - intros Hbad. destruct (66 =? to_char h0) eqn:E0; [|done].
    destruct (77 =? to_char h1) eqn:E1; [|done]. cbn [negb].
    destruct HB as [HB _], HM as [HM _].
    specialize (HB eq_refl). specialize (HM eq_refl). lia.
  - intros -> ->. destruct HB as [_ HB], HM as [_ HM].
    by rewrite (HB eq_refl), (HM eq_refl).
  - intros lo hi -> -> Hlo Hhi Hread. destruct HB as [_ HB], HM as [_ HM].
    rewrite (HB eq_refl), (HM eq_refl), Hread. cbn [negb].
    pose proof (to_int16_bytes lo hi Hlo Hhi) as Hbpp.
    destruct (to_int16 (lo + 256 * hi) =? BITS_PER_PIXEL).
    + split; [intros _; by apply Hbpp|done].
    + split; [done|]. intros Heq. by apply Hbpp in Heq.
Qed.

Lemma check_file_and_bpp_accepts_witness :
  bitmap_header !! 0%nat = Some 66 ∧ bitmap_header !! 1%nat = Some 77
  ∧ uint8 66 ∧ uint8 77
  ∧ (66 ≠ 66 ∨ 77 ≠ 77 →
     check_file_and_bpp little_endian_read bitmap_header sample_world
     = Exit sample_world)
  ∧ (66 = 66 → 77 = 77 →
     check_file_and_bpp little_endian_read bitmap_header sample_world
     = match little_endian_read bitmap_header 28 with
       | None => Undefined
       | Some v =>
           if to_int16 v =? BITS_PER_PIXEL then Ok tt sample_world
           else Exit sample_world
       end)
  ∧ (∀ lo hi, 66 = 66 → 77 = 77 → uint8 lo → uint8 hi →
       little_endian_read bitmap_header 28 = Some (lo + 256 * hi) →
       check_file_and_bpp little_endian_read bitmap_header sample_world
       = Ok tt sample_world ↔ lo = 24 ∧ hi = 0).
Proof.
  split; [reflexivity|]. split; [reflexivity|].
  split; [unfold uint8; lia|]. split; [unfold uint8; lia|].
  apply (check_file_and_bpp_accepts little_endian_read bitmap_header
           sample_world 66 77); first [reflexivity | unfold uint8; lia].
Defined.

(** * The edge detectors *)

Lemma convolution_pixels (W H : Z) (src : buffer) (k : kernel3) (out : buffer) :
  2 <= W → 2 <= H → Z.of_nat (length src) = W * H → Forall pixel_wf src →
  kernel_ok k = true → convolution W H src k = Some out →
  ∀ i p, out !! i = Some p → ∃ y x, p = convolved_pixel W H src k y x.
Proof.
  intros HW HH Hlen Hwf Hk Hout i p Hi.
  destruct (convolution_value W H src k) as (out' & Hout' & Hl & Hlook);
    [done..|].
  assert (out' = out) as -> by congruence.
  apply lookup_lt_Some in Hi as Hlt.
  destruct (position_cell W H i) as ([y x] & [Hy Hx] & Hpos); [lia..|].
  cbn [fst snd] in *. exists y, x.
  specialize (Hlook y x Hy Hx). rewrite Hpos in Hlook. congruence.
Qed.

Lemma source_at_grey (W : Z) (src : buffer) (y x : Z) :
  Forall grey src → grey (source_at W src y x).
Proof.
  intros Hg. unfold source_at, load.
  destruct (0 <=? y * W + x); [|done].
  destruct (src !! Z.to_nat (y * W + x)) as [p|] eqn:Hp; [|done].
  exact (proj1 (Forall_lookup _ _) Hg _ _ Hp).
Qed.

Lemma convolved_pixel_grey (W H : Z) (src : buffer) (k : kernel3) (y x : Z) :
  Forall grey src → grey (convolved_pixel W H src k y x).
Proof.
  intros Hg.
  assert (∀ d, tap_at red W H src k y x d = tap_at green W H src k y x d
               ∧ tap_at green W H src k y x d = tap_at blue W H src k y x d)
    as Htap.
  { intros d. unfold tap_at.
    destruct (source_at_grey W src (reflect H (y + d.1)) (reflect W (x + d.2)) Hg)
      as [-> ->]. done. }
  unfold grey, convolved_pixel, channel_sum. cbn [red green blue].
  split; do 2 f_equal; apply list_fmap_ext; intros ? d _; apply Htap.
Qed.

Lemma convolution_grey (W H : Z) (src : buffer) (k : kernel3) (out : buffer) :
  2 <= W → 2 <= H → Z.of_nat (length src) = W * H → Forall pixel_wf src →
  kernel_ok k = true → convolution W H src k = Some out →
  Forall grey src → Forall grey out.
Proof.
  intros HW HH Hlen Hwf Hk Hout Hg. apply Forall_lookup. intros i p Hi.
  destruct (convolution_pixels W H src k out HW HH Hlen Hwf Hk Hout i p Hi)
    as (y & x & ->).
  by apply convolved_pixel_grey.
Qed.

Lemma greyscale_pixel_grey (p : pixel_info) : grey (greyscale_pixel p).
Proof. done. Qed.

Lemma size_with_block (p : block) (buf : buffer) (w : world) :
  is_Some (mem w !! p) → size (mem (with_block p buf w)) = size (mem w).
Proof.
  intros [old Hold]. cbn [with_block mem].
  rewrite <- (insert_delete_id (mem w) p old) at 2 by done.
  rewrite <- insert_delete_eq.
  by rewrite !map_size_insert_None by apply lookup_delete_eq.
Qed.

Lemma set_dim_to_black_levels (p : pixel_info) :
  pixel_wf p → grey p →
  grey (set_dim_to_black_pixel p)
  ∧ (set_dim_to_black_pixel p = black
     ∨ set_dim_to_black_pixel p = p ∧ HIGH_PASS_THRESHOLD <= red p).
Proof.
  destruct p as [b g r]. unfold grey, pixel_wf. cbn [red green blue].
  intros (Hb & _ & _) [-> ->]. unfold set_dim_to_black_pixel.
  rewrite average_grey by done.
  destruct (Z.ltb_spec b HIGH_PASS_THRESHOLD); [by split; [|left]|].
  split; [done|]. by right.
Qed.

(** The pixels an edge detector leaves: grey, and black unless the level
    reaches the threshold. *)
Lemma set_dim_to_black_returns (info : image_info) (src : buffer) (w : world) :
  image_in info src w → Forall grey src →
  ∃ out w', set_dim_to_black info w = Ok tt w'
    ∧ image_in info out w'
    ∧ size (mem w') = size (mem w) ∧ answers w' = answers w
    ∧ length out = length src
    ∧ Forall (λ p, grey p ∧ (p = black ∨ HIGH_PASS_THRESHOLD <= red p)) out.
Proof.
  intros Himg Hg.
  exists (set_dim_to_black_pixel <$> src),
    (with_block (pixel_data info) (set_dim_to_black_pixel <$> src) w).
  split; [by apply pointwise_spec|].
  split; [apply image_in_pointwise; [apply set_dim_to_black_pixel_wf|done]|].
  split; [apply size_with_block; destruct Himg as [Hm _]; by eexists|].
  split; [done|]. split; [by rewrite length_fmap|].
  apply Forall_fmap, Forall_lookup. intros i p Hp. cbn.
  destruct Himg as (_ & _ & _ & Hwf).
  destruct (set_dim_to_black_levels p) as [Hgrey [Hblack|[Hsame Hlevel]]];
    [exact (proj1 (Forall_lookup _ _) Hwf _ _ Hp)
    |exact (proj1 (Forall_lookup _ _) Hg _ _ Hp)|..].
  - split; [done|by left].
  - split; [done|]. right. by rewrite Hsame.
Qed.

Lemma greyscale_returns (info : image_info) (src : buffer) (w : world) :
  image_in info src w →
  ∃ out w', greyscale info w = Ok tt w'
    ∧ image_in info out w' ∧ Forall grey out
    ∧ size (mem w') = size (mem w) ∧ answers w' = answers w.
Proof.
  intros Himg.
  exists (greyscale_pixel <$> src),
    (with_block (pixel_data info) (greyscale_pixel <$> src) w).
  split; [by apply pointwise_spec|].
  split; [apply image_in_pointwise; [apply greyscale_pixel_wf|done]|].
  split; [apply Forall_fmap, Forall_forall; intros; apply greyscale_pixel_grey|].
  split; [|done]. apply size_with_block. destruct Himg as [Hm _]. by eexists.
Qed.

Lemma replace_by_convolution_grey (K : kernel3) (info : image_info) (w : world)
    (src garbage : buffer) (rest : list (option buffer)) :
  image_in info src w → 2 <= width info → 2 <= height info →
  kernel_ok K = true → answers w = Some garbage :: rest → Forall grey src →
  ∃ info' out w', replace_by_convolution K info w = Ok info' w'
    ∧ image_in info' out w' ∧ Forall grey out
    ∧ width info' = width info ∧ height info' = height info
    ∧ size (mem w') = size (mem w) ∧ answers w' = rest.
Proof.
  intros Himg HW HH HK Hans Hg.
  destruct (replace_by_convolution_returns K info w src garbage rest)
    as (out & Hout & Hl & Hwf & Hrun); [done..|].
  do 3 eexists. split; [exact Hrun|].
  split; [by apply (image_in_replaced info src)|].
  destruct Himg as (Hm & Hlen & _ & Hwfs).
  split; [by apply (convolution_grey (width info) (height info) src K)|].
  do 2 (split; [done|]). split; [|done]. cbn [mem].
  apply size_replaced. by eexists.
Qed.

Lemma edge_detect_kernel_ok : kernel_ok EDGE_DETECT_KERNEL = true.
Proof. apply integer_kernel_ok; lia. Qed.

Lemma canny_gradient_grey (info : image_info) (w : world)
    (src g1 g2 g3 g4 : buffer) (rest : list (option buffer)) :
  image_in info src w → 2 <= width info → 2 <= height info →
  answers w = Some g1 :: Some g2 :: Some g3 :: Some g4 :: rest →
  Forall grey src →
  ∃ out w', canny_gradient info w = Ok tt w'
    ∧ image_in info out w' ∧ Forall grey out
    ∧ size (mem w') = size (mem w) ∧ answers w' = rest.
Proof.
  intros Himg HW HH Hans Hg.
  destruct (canny_gradient_channel_max info w src g1 g2 g3 g4 rest)
    as (t & b & l & r & out & Ht & Hb & Hl & Hr & (w' & Hrun & Hmem & Hans')
        & Hlen & Hmax); [done..|].
  destruct Himg as (Hm & Hsize & Hint & Hwf).
  destruct sobel_kernels_ok as (Kt & Kb & Kl & Kr).
  destruct (convolution_value (width info) (height info) src SOBEL_T_KERNEL
              HW HH Hsize Hwf Kt) as (t' & Ht' & Hlt & _).
  destruct (convolution_value (width info) (height info) src SOBEL_B_KERNEL
              HW HH Hsize Hwf Kb) as (b' & Hb' & Hlb & _).
  destruct (convolution_value (width info) (height info) src SOBEL_L_KERNEL
              HW HH Hsize Hwf Kl) as (l' & Hl' & Hll & _).
  destruct (convolution_value (width info) (height info) src SOBEL_R_KERNEL
              HW HH Hsize Hwf Kr) as (r' & Hr' & Hlr & _).
  assert (t' = t) as -> by congruence. assert (b' = b) as -> by congruence.
  assert (l' = l) as -> by congruence. assert (r' = r) as -> by congruence.
  assert (∀ i p, out !! i = Some p → pixel_wf p ∧ grey p) as Hpix.
  { intros i p Hi. apply lookup_lt_Some in Hi as Hlt'.
    destruct (lookup_lt_is_Some_2 t i) as [pt Hpt]; [lia|].
    destruct (lookup_lt_is_Some_2 b i) as [pb Hpb]; [lia|].
    destruct (lookup_lt_is_Some_2 l i) as [pl Hpl]; [lia|].
    destruct (lookup_lt_is_Some_2 r i) as [pr Hpr]; [lia|].
    rewrite (Hmax i pt pb pl pr) in Hi by done. injection Hi as <-.
    destruct (convolution_pixels _ _ _ _ _ HW HH Hsize Hwf Kt Ht i pt Hpt)
      as (yt & xt & ->).
    destruct (convolution_pixels _ _ _ _ _ HW HH Hsize Hwf Kb Hb i pb Hpb)
      as (yb & xb & ->).
    destruct (convolution_pixels _ _ _ _ _ HW HH Hsize Hwf Kl Hl i pl Hpl)
      as (yl & xl & ->).
    destruct (convolution_pixels _ _ _ _ _ HW HH Hsize Hwf Kr Hr i pr Hpr)
      as (yr & xr & ->).
    split.
    - unfold pixel_wf, uint8, convolved_pixel. cbn [red green blue].
      repeat match goal with
             | |- context [saturate ?z] =>
                 pose proof (saturate_uint8 z); generalize dependent (saturate z)
             end.
      unfold uint8. intros. lia.
    - destruct (convolved_pixel_grey (width info) (height info) src
                  SOBEL_T_KERNEL yt xt Hg) as [Et1 Et2].
      destruct (convolved_pixel_grey (width info) (height info) src
                  SOBEL_B_KERNEL yb xb Hg) as [Eb1 Eb2].
      destruct (convolved_pixel_grey (width info) (height info) src
                  SOBEL_L_KERNEL yl xl Hg) as [El1 El2].
      destruct (convolved_pixel_grey (width info) (height info) src
                  SOBEL_R_KERNEL yr xr Hg) as [Er1 Er2].
      unfold grey. cbn [red green blue].
      rewrite Et1, Eb1, El1, Er1, Et2, Eb2, El2, Er2.
      split; reflexivity. }
  exists out, w'. split; [done|]. split.
  - split; [rewrite Hmem; apply lookup_insert_eq|].
    split; [lia|]. split; [done|].
    apply Forall_lookup. intros i p Hi. by apply (Hpix i p).
  - split; [apply Forall_lookup; intros i p Hi; by apply (Hpix i p)|].
    split; [|done]. rewrite Hmem.
    apply (size_with_block (pixel_data info) out w). by eexists.
Qed.

(** X21. The simple edge detector on a well-formed image of at least 2x2
    pixels, with its two allocations granted, returns an image of the same
    dimensions; it frees each block it replaces, so the number of live
    blocks is unchanged. Every pixel of the result is
    grey, and is black unless its level reaches [HIGH_PASS_THRESHOLD]. *)
Theorem simple_edge_detection_output (info : image_info) (w : world)
    (src g1 g2 : buffer) (rest : list (option buffer)) :
  image_in info src w → 2 <= width info → 2 <= height info →
  answers w = Some g1 :: Some g2 :: rest →
  ∃ info' out w', simple_edge_detection info w = Ok info' w'
    ∧ image_in info' out w'
    ∧ width info' = width info ∧ height info' = height info
    ∧ size (mem w') = size (mem w) ∧ answers w' = rest
    ∧ Forall (λ p, grey p ∧ (p = black ∨ HIGH_PASS_THRESHOLD <= red p)) out.
Proof.
  intros Himg HW HH Hans.
  destruct (greyscale_returns info src w Himg)
    as (o1 & w1 & R1 & I1 & G1 & S1 & A1).
  destruct (replace_by_convolution_grey GAUSSIAN_BLUR_KERNEL info w1 o1 g1
              (Some g2 :: rest))
    as (i2 & o2 & w2 & R2 & I2 & G2 & W2 & H2 & S2 & A2);
    [done..|apply gaussian_kernel_ok|congruence|done|].
  destruct (replace_by_convolution_grey EDGE_DETECT_KERNEL i2 w2 o2 g2 rest)
    as (i3 & o3 & w3 & R3 & I3 & G3 & W3 & H3 & S3 & A3);
    [done|lia|lia|apply edge_detect_kernel_ok|done..|].
  destruct (set_dim_to_black_returns i3 o3 w3 I3 G3)
    as (o4 & w4 & R4 & I4 & S4 & A4 & _ & L4).
  exists i3, o4, w4. unfold simple_edge_detection, bind, gaussian_blur.
  rewrite R1, R2, R3, R4. unfold ret.
  split; [done|]. split; [exact I4|]. do 4 (split; [congruence|]). exact L4.
Qed.

Lemma simple_edge_detection_output_witness :
  image_in sample_image sample_buffer sample_world
  ∧ 2 <= width sample_image ∧ 2 <= height sample_image
  ∧ answers sample_world = Some [] :: Some [] :: repeat (Some []) 6
  ∧ ∃ info' out w', simple_edge_detection sample_image sample_world = Ok info' w'
      ∧ image_in info' out w'
      ∧ width info' = width sample_image ∧ height info' = height sample_image
      ∧ size (mem w') = size (mem sample_world)
      ∧ answers w' = repeat (Some []) 6
      ∧ Forall (λ p, grey p ∧ (p = black ∨ HIGH_PASS_THRESHOLD <= red p)) out.
Proof.
  split; [exact sample_image_in|]. split; [simpl; lia|]. split; [simpl; lia|].
  split; [reflexivity|].
  apply (simple_edge_detection_output sample_image sample_world sample_buffer
           [] [] (repeat (Some []) 6) sample_image_in);
    first [simpl; lia | reflexivity].
Defined.

(** X22. The Canny edge detector on a well-formed image of at least 2x2
    pixels, with its five allocations granted, returns an image of the same
    dimensions; the four gradient buffers and the block the blur replaced
    are freed, so the number of live blocks is unchanged. Every pixel of
    the result is grey, and is black unless its level reaches
    [HIGH_PASS_THRESHOLD]. *)
Theorem canny_edge_detection_output (info : image_info) (w : world)
    (src g0 g1 g2 g3 g4 : buffer) (rest : list (option buffer)) :
  image_in info src w → 2 <= width info → 2 <= height info →
  answers w = Some g0 :: Some g1 :: Some g2 :: Some g3 :: Some g4 :: rest →
  ∃ info' out w', canny_edge_detection info w = Ok info' w'
    ∧ image_in info' out w'
    ∧ width info' = width info ∧ height info' = height info
    ∧ size (mem w') = size (mem w) ∧ answers w' = rest
    ∧ Forall (λ p, grey p ∧ (p = black ∨ HIGH_PASS_THRESHOLD <= red p)) out.
Proof.
  intros Himg HW HH Hans.
  destruct (greyscale_returns info src w Himg)
    as (o1 & w1 & R1 & I1 & G1 & S1 & A1).
  destruct (replace_by_convolution_grey GAUSSIAN_BLUR_KERNEL info w1 o1 g0
              (Some g1 :: Some g2 :: Some g3 :: Some g4 :: rest))
    as (i2 & o2 & w2 & R2 & I2 & G2 & W2 & H2 & S2 & A2);
    [done..|apply gaussian_kernel_ok|congruence|done|].
  destruct (canny_gradient_grey i2 w2 o2 g1 g2 g3 g4 rest)
    as (o3 & w3 & R3 & I3 & G3 & S3 & A3); [done|lia|lia|done..|].
  destruct (set_dim_to_black_returns i2 o3 w3 I3 G3)
    as (o4 & w4 & R4 & I4 & S4 & A4 & _ & L4).
  exists i2, o4, w4. unfold canny_edge_detection, bind, gaussian_blur.
  rewrite R1, R2, R3, R4. unfold ret.
  split; [done|]. split; [exact I4|]. do 4 (split; [congruence|]). exact L4.
Qed.

Lemma canny_edge_detection_output_witness :
  image_in sample_image sample_buffer sample_world
  ∧ 2 <= width sample_image ∧ 2 <= height sample_image
  ∧ answers sample_world
    = Some [] :: Some [] :: Some [] :: Some [] :: Some [] :: repeat (Some []) 3
  ∧ ∃ info' out w', canny_edge_detection sample_image sample_world = Ok info' w'
      ∧ image_in info' out w'
      ∧ width info' = width sample_image ∧ height info' = height sample_image
      ∧ size (mem w') = size (mem sample_world)
      ∧ answers w' = repeat (Some []) 3
      ∧ Forall (λ p, grey p ∧ (p = black ∨ HIGH_PASS_THRESHOLD <= red p)) out.
Proof.
  split; [exact sample_image_in|]. split; [simpl; lia|]. split; [simpl; lia|].
  split; [reflexivity|].
  apply (canny_edge_detection_output sample_image sample_world sample_buffer
           [] [] [] [] [] (repeat (Some []) 3) sample_image_in);
    first [simpl; lia | reflexivity].
Defined.

(** * Samples of the identity filter and of the frame of [convolve] *)

Lemma identity_keeps_image_witness :
  image_in (ImageInfo 2 2 1%positive) grey8 kernel_sample_world
  ∧ 2 <= width (ImageInfo 2 2 1%positive)
  ∧ 2 <= height (ImageInfo 2 2 1%positive)
  ∧ answers kernel_sample_world = Some [] :: []
  ∧ ∃ info' w', identity (ImageInfo 2 2 1%positive) kernel_sample_world
                = Ok info' w'
      ∧ width info' = width (ImageInfo 2 2 1%positive)
      ∧ height info' = height (ImageInfo 2 2 1%positive)
      ∧ mem w' !! pixel_data info' = Some grey8
      ∧ mem w' !! pixel_data (ImageInfo 2 2 1%positive) = None.
Proof.
  split; [exact grey8_image_in|]. split; [simpl; lia|]. split; [simpl; lia|].
  split; [reflexivity|].
  apply (identity_keeps_image (ImageInfo 2 2 1%positive) kernel_sample_world
           grey8 [] [] grey8_image_in); first [simpl; lia | reflexivity].
Defined.

Lemma convolve_fresh_frame_witness :
  image_in sample_image sample_buffer sample_world
  ∧ 2 <= width sample_image ∧ 2 <= height sample_image
  ∧ kernel_ok SHARPEN_KERNEL = true
  ∧ answers sample_world = Some [] :: repeat (Some []) 7
  ∧ ∃ p w' out, convolve sample_image SHARPEN_KERNEL sample_world = Ok p w'
      ∧ mem sample_world !! p = None
      ∧ mem w' !! p = Some out
      ∧ Z.of_nat (length out) = width sample_image * height sample_image
      ∧ mem w' !! pixel_data sample_image = Some sample_buffer
      ∧ ∀ q, q ≠ p → mem w' !! q = mem sample_world !! q.
Proof.
  split; [exact sample_image_in|]. split; [simpl; lia|]. split; [simpl; lia|].
  split; [vm_compute; reflexivity|]. split; [reflexivity|].
  apply (convolve_fresh_frame sample_image SHARPEN_KERNEL sample_world
           sample_buffer [] (repeat (Some []) 7) sample_image_in);
    first [simpl; lia | vm_compute; reflexivity | reflexivity].
Defined.

(** * The bands of [convolve] *)

Lemma tall_image_in : image_in tall_image tall_buffer tall_world.
Proof.
  repeat split; try done. apply buffer_wfb_spec. reflexivity.
Qed.

(** C6, defect. On an image with a single row or a single column
    ([W, H >= 1]) no partition into bands gives an output grid: for every
    number [n >= 1] of bands the call is undefined, and so is the sequential
    single-band reference, because the border reflection of lines 628-631
    yields the coordinate -1 and line 635 reads outside the source; what
    the program then stores is not determined by the grid and the kernel.
    The defect is the one of C4, C5 and C9. On images of at least 2x2
    pixels the claim holds ([convolve_bands_reference]). *)
Theorem convolve_bands_single_line_undefined (n : Z) (info : image_info)
    (k : kernel3) (w : world) (src garbage : buffer)
    (rest : list (option buffer)) :
  1 <= n → image_in info src w → 1 <= width info → 1 <= height info →
  width info = 1 ∨ height info = 1 → answers w = Some garbage :: rest →
  convolution (width info) (height info) src k = None
  ∧ convolve_n n info k w = Undefined.
Proof.
  intros Hn (Hm & Hlen & Hmax & Hwf) HW HH Hone Hans.
  split; [by apply convolution_degenerate|].
  rewrite (convolve_n_success n info k w src garbage rest)
    by first [done | lia | nia].
  by rewrite convolution_degenerate.
Qed.

Lemma convolve_bands_single_line_undefined_witness :
  1 <= NUM_THREADS
  ∧ image_in one_pixel_image [Pixel 10 20 30] one_pixel_world
  ∧ 1 <= width one_pixel_image ∧ 1 <= height one_pixel_image
  ∧ (width one_pixel_image = 1 ∨ height one_pixel_image = 1)
  ∧ answers one_pixel_world = Some [Pixel 0 0 0] :: []
  ∧ convolution (width one_pixel_image) (height one_pixel_image)
      [Pixel 10 20 30] IDENTITY_KERNEL = None
  ∧ convolve_n NUM_THREADS one_pixel_image IDENTITY_KERNEL one_pixel_world
    = Undefined.
Proof.
  split; [unfold NUM_THREADS; lia|]. split; [exact one_pixel_image_in|].
  split; [simpl; lia|]. split; [simpl; lia|]. split; [by left|].
  split; [reflexivity|].
  apply (convolve_bands_single_line_undefined NUM_THREADS one_pixel_image
           IDENTITY_KERNEL one_pixel_world [Pixel 10 20 30] [Pixel 0 0 0] []
           ltac:(unfold NUM_THREADS; lia) one_pixel_image_in);
    first [simpl; lia | by left | reflexivity].
Defined.

(** X25. On every well-formed image of at least 2x2 pixels, with a kernel
    that keeps the taps inside [int] and the allocation granted, the output
    of [convolve] is a function of the grid and the kernel only. For every
    number [n >= 1] of bands (the code has [n] = 20) the call returns, having
    created the workers of its bands, and the new block holds the grid [out] of the
    sequential single-band reference, whatever the block held before; the
    pixel [(y, x)] of [out] is the saturated sum of the nine truncated taps
    of the source. The cell writes of the [n] workers executed in any order
    (any interleaving of the workers is one), from any destination contents,
    give the same grid [out]. *)
Theorem convolve_bands_reference (n : Z) (info : image_info) (k : kernel3)
    (w : world) (src garbage : buffer) (rest : list (option buffer)) :
  1 <= n → image_in info src w → 2 <= width info → 2 <= height info →
  kernel_ok k = true → answers w = Some garbage :: rest →
  ∃ out,
    convolve_n n info k w
    = Ok (fresh (dom (mem w)))
         {| mem := <[fresh (dom (mem w)) := out]> (mem w);
            answers := rest;
            created := created w ++ bands n (height info) |}
    ∧ convolution (width info) (height info) src k = Some out
    ∧ (∀ y x, 0 <= y < height info → 0 <= x < width info →
         out !! Z.to_nat (y * width info + x)
         = Some (convolved_pixel (width info) (height info) src k y x))
    ∧ ∀ (dst : buffer) (sched : list (Z * Z)),
        Z.of_nat (length dst) = width info * height info →
        sched ≡ₚ bands n (height info) ≫= worker_cells (width info) →
        run_schedule (width info) (height info) src k sched dst = Some out.
Proof.
  intros Hn (Hm & Hlen & Hmax & Hwf) HW HH Hk Hans.
  destruct (convolution_value (width info) (height info) src k HW HH Hlen Hwf
              Hk) as (out & Hout & Hl & Hlook).
  exists out. split.
  { rewrite (convolve_n_success n info k w src garbage rest)
      by first [done | lia | nia].
    by rewrite Hout. }
  split; [done|]. split; [done|].
  intros dst sched Hdst Hperm. rewrite <- Hout. unfold convolution.
  rewrite convolve_threader_schedule.
  apply run_schedule_same_cells; [| |lia|done|].
  - intros c. rewrite Hperm. apply elem_of_bands_cells; lia.
  - intros c. rewrite elem_of_worker_cells. unfold in_grid. simpl. lia.
  - rewrite length_replicate. lia.
Qed.

Lemma convolve_bands_reference_witness :
  1 <= NUM_THREADS
  ∧ image_in tall_image tall_buffer tall_world
  ∧ 2 <= width tall_image ∧ 2 <= height tall_image
  ∧ kernel_ok GAUSSIAN_BLUR_KERNEL = true
  ∧ answers tall_world = Some [Pixel 7 7 7] :: []
  ∧ ∃ out,
    convolve_n NUM_THREADS tall_image GAUSSIAN_BLUR_KERNEL tall_world
    = Ok (fresh (dom (mem tall_world)))
         {| mem := <[fresh (dom (mem tall_world)) := out]> (mem tall_world);
            answers := [];
            created := created tall_world
                       ++ bands NUM_THREADS (height tall_image) |}
    ∧ convolution (width tall_image) (height tall_image) tall_buffer
        GAUSSIAN_BLUR_KERNEL = Some out
    ∧ (∀ y x, 0 <= y < height tall_image → 0 <= x < width tall_image →
         out !! Z.to_nat (y * width tall_image + x)
         = Some (convolved_pixel (width tall_image) (height tall_image)
                   tall_buffer GAUSSIAN_BLUR_KERNEL y x))
    ∧ ∀ (dst : buffer) (sched : list (Z * Z)),
        Z.of_nat (length dst) = width tall_image * height tall_image →
        sched ≡ₚ bands NUM_THREADS (height tall_image)
                   ≫= worker_cells (width tall_image) →
        run_schedule (width tall_image) (height tall_image) tall_buffer
          GAUSSIAN_BLUR_KERNEL sched dst = Some out.
Proof.
  split; [unfold NUM_THREADS; lia|]. split; [exact tall_image_in|].
  split; [simpl; lia|]. split; [simpl; lia|].
  split; [exact gaussian_kernel_ok|]. split; [reflexivity|].
  apply (convolve_bands_reference NUM_THREADS tall_image GAUSSIAN_BLUR_KERNEL
           tall_world tall_buffer [Pixel 7 7 7] []
           ltac:(unfold NUM_THREADS; lia) tall_image_in);
    first [simpl; lia | exact gaussian_kernel_ok | reflexivity].
Defined.

(** * The gradient combination of [canny_edge_detection] *)

(** C7, defect. On an image with a single row or a single column
    ([W, H >= 1]) the four directional outputs the combination takes the
    maximum of do not exist: each of the four Sobel convolutions reads
    outside the source (the border reflection of lines 628-631 yields the
    coordinate -1) and is undefined, so the gradient stage of lines 712-745
    is undefined, and so is [canny_edge_detection], already at its blur.
    The defect is the one of C4, C5 and C9. On images of at least 2x2
    pixels every channel of the combination is the maximum of that channel
    across the four Sobel outputs ([canny_gradient_channel_max],
    [canny_edge_detection_channel_max]). *)
Theorem canny_single_line_undefined (info : image_info) (w : world)
    (src garbage : buffer) (rest : list (option buffer)) :
  image_in info src w → 1 <= width info → 1 <= height info →
  width info = 1 ∨ height info = 1 → answers w = Some garbage :: rest →
  (∀ k, k ∈ [SOBEL_T_KERNEL; SOBEL_B_KERNEL; SOBEL_L_KERNEL; SOBEL_R_KERNEL] →
     convolve info k w = Undefined)
  ∧ canny_gradient info w = Undefined
  ∧ canny_edge_detection info w = Undefined.
Proof.
  intros Himg HW HH Hone Hans.
  pose proof Himg as (Hm & Hlen & Hmax & Hwf).
  assert (∀ k, convolve info k w = Undefined) as Hconv.
  { intros k. by apply (convolve_degenerate info k w src garbage rest). }
  split; [intros k _; apply Hconv|]. split.
  - unfold canny_gradient, bind. by rewrite Hconv.
  - unfold canny_edge_detection, bind, greyscale.
    rewrite (pointwise_spec greyscale_pixel info src w Himg).
    unfold gaussian_blur, replace_by_convolution, bind.
    rewrite (convolve_degenerate info GAUSSIAN_BLUR_KERNEL _
               (greyscale_pixel <$> src) garbage rest); [done..| |done].
    cbn [with_block mem]. apply lookup_insert_eq.
Qed.

Lemma canny_single_line_undefined_witness :
  image_in one_pixel_image [Pixel 10 20 30] one_pixel_world
  ∧ 1 <= width one_pixel_image ∧ 1 <= height one_pixel_image
  ∧ (width one_pixel_image = 1 ∨ height one_pixel_image = 1)
  ∧ answers one_pixel_world = Some [Pixel 0 0 0] :: []
  ∧ (∀ k, k ∈ [SOBEL_T_KERNEL; SOBEL_B_KERNEL; SOBEL_L_KERNEL;
               SOBEL_R_KERNEL] →
       convolve one_pixel_image k one_pixel_world = Undefined)
  ∧ canny_gradient one_pixel_image one_pixel_world = Undefined
  ∧ canny_edge_detection one_pixel_image one_pixel_world = Undefined.
Proof.
  split; [exact one_pixel_image_in|]. split; [simpl; lia|].
  split; [simpl; lia|]. split; [by left|]. split; [reflexivity|].
  apply (canny_single_line_undefined one_pixel_image one_pixel_world
           [Pixel 10 20 30] [Pixel 0 0 0] [] one_pixel_image_in);
    first [simpl; lia | by left | reflexivity].
Defined.

(** X26. The output of [canny_edge_detection] on a well-formed image of at
    least 2x2 pixels, with its five allocations granted: with [blurred] the
    Gaussian convolution of the grey image and [t], [b], [l], [r] the four
    Sobel convolutions of [blurred], the call returns and at every pixel
    index the image it leaves holds the pixel whose channels are, each on
    its own, the maximum of that channel across [t], [b], [l] and [r] at
    that index, set to black by the threshold of [set_dim_to_black] when its
    average is below [HIGH_PASS_THRESHOLD]. *)
Theorem canny_edge_detection_channel_max (info : image_info) (w : world)
    (src g0 g1 g2 g3 g4 : buffer) (rest : list (option buffer)) :
  image_in info src w → 2 <= width info → 2 <= height info →
  answers w = Some g0 :: Some g1 :: Some g2 :: Some g3 :: Some g4 :: rest →
  ∃ blurred t b l r info' w' out,
    convolution (width info) (height info) (greyscale_pixel <$> src)
      GAUSSIAN_BLUR_KERNEL = Some blurred
    ∧ convolution (width info) (height info) blurred SOBEL_T_KERNEL = Some t
    ∧ convolution (width info) (height info) blurred SOBEL_B_KERNEL = Some b
    ∧ convolution (width info) (height info) blurred SOBEL_L_KERNEL = Some l
    ∧ convolution (width info) (height info) blurred SOBEL_R_KERNEL = Some r
    ∧ canny_edge_detection info w = Ok info' w'
    ∧ mem w' !! pixel_data info' = Some out
    ∧ length out = length src
    ∧ ∀ i pt pb pl pr,
        t !! i = Some pt → b !! i = Some pb →
        l !! i = Some pl → r !! i = Some pr →
        out !! i
        = Some (set_dim_to_black_pixel
                  {| blue := Z.max (Z.max (blue pt) (blue pb))
                                   (Z.max (blue pl) (blue pr));
                     green := Z.max (Z.max (green pt) (green pb))
                                    (Z.max (green pl) (green pr));
                     red := Z.max (Z.max (red pt) (red pb))
                                  (Z.max (red pl) (red pr)) |}).
Proof.
  intros Himg HW HH Hans.
  pose proof (pointwise_spec greyscale_pixel info src w Himg) as R1.
  pose proof (image_in_pointwise greyscale_pixel info src w greyscale_pixel_wf
                Himg) as I1.
  set (src1 := greyscale_pixel <$> src) in *.
  set (w1 := with_block (pixel_data info) src1 w) in *.
  assert (Forall grey src1) as G1.
  { apply Forall_fmap, Forall_forall. intros. apply greyscale_pixel_grey. }
  destruct (replace_by_convolution_returns GAUSSIAN_BLUR_KERNEL info w1 src1 g0
              (Some g1 :: Some g2 :: Some g3 :: Some g4 :: rest) I1 HW HH
              gaussian_kernel_ok Hans)
    as (blurred & Hblur & L2 & Wf2 & R2).
  pose proof (image_in_replaced info src1 blurred w1
                (Some g1 :: Some g2 :: Some g3 :: Some g4 :: rest)
                (created w1 ++ bands NUM_THREADS (height info)) I1 L2 Wf2)
    as I2.
  set (info2 := {| width := width info; height := height info;
                   pixel_data := fresh (dom (mem w1)) |}) in *.
  set (w2 := {| mem := delete (pixel_data info)
                         (<[fresh (dom (mem w1)) := blurred]> (mem w1));
                answers := Some g1 :: Some g2 :: Some g3 :: Some g4 :: rest;
                created := created w1 ++ bands NUM_THREADS (height info) |})
    in *.
  assert (Forall grey blurred) as G2.
  { destruct I1 as (_ & Hlen1 & _ & Hwf1).
    by apply (convolution_grey (width info) (height info) src1
                GAUSSIAN_BLUR_KERNEL blurred HW HH Hlen1 Hwf1
                gaussian_kernel_ok). }
  destruct (canny_gradient_channel_max info2 w2 blurred g1 g2 g3 g4 rest I2
              HW HH eq_refl)
    as (t & b & l & r & out3 & Ht & Hb & Hl & Hr & (w3 & R3 & Hmem3 & Hans3)
        & L3 & Hmax).
  destruct (canny_gradient_grey info2 w2 blurred g1 g2 g3 g4 rest I2 HW HH
              eq_refl G2) as (out3' & w3' & R3' & I3 & _).
  assert (w3' = w3) as -> by congruence.
  assert (out3' = out3) as ->.
  { destruct I3 as (Hm3 & _). rewrite Hmem3 in Hm3.
    rewrite lookup_insert_eq in Hm3. congruence. }
  pose proof (pointwise_spec set_dim_to_black_pixel info2 out3 w3 I3) as R4.
  exists blurred, t, b, l, r, info2,
    (with_block (pixel_data info2) (set_dim_to_black_pixel <$> out3) w3),
    (set_dim_to_black_pixel <$> out3).
  do 5 (split; [done|]). split.
  { unfold canny_edge_detection, bind, greyscale, gaussian_blur,
      set_dim_to_black.
    by rewrite R1, R2, R3, R4. }
  split; [cbn [with_block mem]; apply lookup_insert_eq|].
  split; [rewrite length_fmap, L3, L2; apply length_fmap|].
  intros i pt pb pl pr Hpt Hpb Hpl Hpr.
  by rewrite list_lookup_fmap, (Hmax i pt pb pl pr).
Qed.

Lemma canny_edge_detection_channel_max_witness :
  image_in sample_image sample_buffer sample_world
  ∧ 2 <= width sample_image ∧ 2 <= height sample_image
  ∧ answers sample_world
    = Some [] :: Some [] :: Some [] :: Some [] :: Some [] :: repeat (Some []) 3
  ∧ ∃ blurred t b l r info' w' out,
    convolution (width sample_image) (height sample_image)
      (greyscale_pixel <$> sample_buffer) GAUSSIAN_BLUR_KERNEL = Some blurred
    ∧ convolution (width sample_image) (height sample_image) blurred
        SOBEL_T_KERNEL = Some t
    ∧ convolution (width sample_image) (height sample_image) blurred
        SOBEL_B_KERNEL = Some b
    ∧ convolution (width sample_image) (height sample_image) blurred
        SOBEL_L_KERNEL = Some l
    ∧ convolution (width sample_image) (height sample_image) blurred
        SOBEL_R_KERNEL = Some r
    ∧ canny_edge_detection sample_image sample_world = Ok info' w'
    ∧ mem w' !! pixel_data info' = Some out
    ∧ length out = length sample_buffer
    ∧ ∀ i pt pb pl pr,
        t !! i = Some pt → b !! i = Some pb →
        l !! i = Some pl → r !! i = Some pr →
        out !! i
        = Some (set_dim_to_black_pixel
                  {| blue := Z.max (Z.max (blue pt) (blue pb))
                                   (Z.max (blue pl) (blue pr));
                     green := Z.max (Z.max (green pt) (green pb))
                                    (Z.max (green pl) (green pr));
                     red := Z.max (Z.max (red pt) (red pb))
                                  (Z.max (red pl) (red pr)) |}).
Proof.
  split; [exact sample_image_in|]. split; [simpl; lia|]. split; [simpl; lia|].
  split; [reflexivity|].
  apply (canny_edge_detection_channel_max sample_image sample_world
           sample_buffer [] [] [] [] [] (repeat (Some []) 3) sample_image_in);
    first [simpl; lia | reflexivity].
Defined.
